(** * web-search.js: search resolution, result extraction and enrichment

    A shallow embedding of [src/utils/web-search.js] and the properties of
    its result extractors, of the provider fallback in [searchWeb], of the
    batch resolver [searchWebMultiple] and of the enrichment stage
    [searchAndFetch].

    Layout: JavaScript strings and the string methods the file calls; a
    backtracking matcher for the regular-expression literals of the file;
    the two extractors; the asynchronous functions as programs over the
    platform's effects (environment, [fetch], console, clock) and the two
    ways of running them (one call alone, a pool of calls under
    [Promise.all]); the notions the properties are stated with; the
    properties. *)

From Stdlib Require Import String Ascii.
From Stdlib Require Import List NArith ZArith Lia Bool Arith DecimalNat.
Import ListNotations.

Set Implicit Arguments.

(** ** JavaScript strings

    A JavaScript string is a sequence of UTF-16 code units; [length],
    [substring], [split], [includes] and the regular expressions of the
    file (none has the [u] flag) all work on code units. *)

Module JS.

Definition char := N.
Definition jsstring := list char.

(** An ASCII literal of the source as a code-unit sequence. *)
Definition lit (s : string) : jsstring :=
  map N_of_ascii (list_ascii_of_string s).

Definition char_eqb (a b : char) : bool := N.eqb a b.

Fixpoint str_eqb (a b : jsstring) : bool :=
  match a, b with
  | [], [] => true
  | x :: a', y :: b' => char_eqb x y && str_eqb a' b'
  | _, _ => false
  end.

Definition in_range (lo hi c : char) : bool := N.leb lo c && N.leb c hi.

Local Open Scope N_scope.

(** WhiteSpace and LineTerminator of ECMA-262: the characters [trim]
    removes and the class escape [\s] matches. *)
Definition is_space (c : char) : bool :=
  in_range 9 13 c || char_eqb c 32 || char_eqb c 160 || char_eqb c 5760
  || in_range 8192 8202 c || char_eqb c 8232 || char_eqb c 8233
  || char_eqb c 8239 || char_eqb c 8287 || char_eqb c 12288
  || char_eqb c 65279.

(** LineTerminator: what [.] does not match. *)
Definition is_line_terminator (c : char) : bool :=
  char_eqb c 10 || char_eqb c 13 || char_eqb c 8232 || char_eqb c 8233.

Definition is_digit (c : char) : bool := in_range 48 57 c.

Local Close Scope N_scope.

Fixpoint trimStart (s : jsstring) : jsstring :=
  match s with
  | c :: s' => if is_space c then trimStart s' else s
  | [] => []
  end.

Definition trimEnd (s : jsstring) : jsstring := rev (trimStart (rev s)).

(** [s.trim()] *)
Definition trim (s : jsstring) : jsstring := trimEnd (trimStart s).

(** [s.substring(0, n)] for an integer [n] *)
Definition substring0 (n : Z) (s : jsstring) : jsstring :=
  firstn (Z.to_nat n) s.

(** [s.startsWith(p)] *)
Fixpoint startsWith (p s : jsstring) : bool :=
  match p, s with
  | [], _ => true
  | x :: p', y :: s' => char_eqb x y && startsWith p' s'
  | _ :: _, [] => false
  end.

(** [s.includes(p)] *)
Fixpoint includes (p s : jsstring) : bool :=
  startsWith p s ||
  match s with
  | [] => false
  | _ :: s' => includes p s'
  end.

(** [s.split(sep)] for a string separator.  [skip] counts the code units
    of a separator occurrence still to be passed over; [cur] is the piece
    being collected, reversed. *)
Fixpoint split_go (sep : jsstring) (skip : nat) (cur s : jsstring)
  : list jsstring :=
  match s with
  | [] => [rev cur]
  | c :: s' =>
      match skip with
      | S n => split_go sep n cur s'
      | O =>
          if startsWith sep s
          then rev cur :: split_go sep (length sep - 1) [] s'
          else split_go sep 0 (c :: cur) s'
      end
  end.

Definition split (sep s : jsstring) : list jsstring :=
  match sep with
  | [] => map (fun c => [c]) s
  | _ => split_go sep 0 [] s
  end.

(** Decimal digits of a number, as in a template literal [`${n}`]. *)
Fixpoint uint_digits (u : Decimal.uint) : jsstring :=
  match u with
  | Decimal.Nil => []
  | Decimal.D0 u' => 48%N :: uint_digits u'
  | Decimal.D1 u' => 49%N :: uint_digits u'
  | Decimal.D2 u' => 50%N :: uint_digits u'
  | Decimal.D3 u' => 51%N :: uint_digits u'
  | Decimal.D4 u' => 52%N :: uint_digits u'
  | Decimal.D5 u' => 53%N :: uint_digits u'
  | Decimal.D6 u' => 54%N :: uint_digits u'
  | Decimal.D7 u' => 55%N :: uint_digits u'
  | Decimal.D8 u' => 56%N :: uint_digits u'
  | Decimal.D9 u' => 57%N :: uint_digits u'
  end.

Definition of_nat (n : nat) : jsstring := uint_digits (Nat.to_uint n).

(** A string in a boolean position: only the empty string is falsy. *)
Definition truthy (s : jsstring) : bool :=
  match s with [] => false | _ => true end.

(** [a || b] on strings *)
Definition or_else (a b : jsstring) : jsstring := if truthy a then a else b.

End JS.

Import JS.

(** ** Regular expressions

    The literals of the file use: literal characters, character classes
    (also negated, with the escapes [\s], [\S], [\d]), [.], the
    quantifiers [*], [+], [?] and their lazy forms, always on a single
    character or class, capture groups, alternation, a positive lookahead
    and [$].  The matcher below is the backtracking semantics of ECMA-262
    for this fragment, in continuation-passing style: [k] is the rest of
    the pattern. *)

Module Regex.

Inductive citem : Type :=
| CChar (c : char)        (* a character *)
| CSpace                  (* \s *)
| CNonSpace               (* \S *)
| CDigit.                 (* \d *)

Inductive atom : Type :=
| ALit (c : char)                          (* x *)
| AClass (neg : bool) (items : list citem) (* [...] and [^...] *)
| ADot.                                    (* . *)

Inductive regex : Type :=
| REmpty
| RAtom (a : atom)
| RSeq (r1 r2 : regex)
| RAlt (r1 r2 : regex)
| RStar (greedy : bool) (a : atom)   (* a* and a*? *)
| RPlus (greedy : bool) (a : atom)   (* a+ and a+? *)
| ROpt (a : atom)                    (* a? *)
| RGroup (n : nat) (r : regex)       (* the n-th capture group *)
| RLookahead (r : regex)             (* (?=r) *)
| REnd.                              (* $ without the m flag *)

(** A regular-expression literal with its [i] flag; every literal of the
    file that is used with [exec], [match] or [replace] has the [g] flag. *)
Record RegExp : Type := mkRegExp { source : regex; ignoreCase : bool }.

(** Canonicalize of ECMA-262 (no [u] flag) on ASCII.  Every pattern
    character of the file is ASCII, and Canonicalize never maps a
    code unit of 128 or more to one below 128, so a code unit outside
    ASCII never equals a canonicalized pattern character: it is left as
    it is. *)
Definition canonicalize (ic : bool) (c : char) : char :=
  if ic && in_range 97%N 122%N c then (c - 32)%N else c.

Definition citem_matches (ic : bool) (it : citem) (c : char) : bool :=
  match it with
  | CChar x => char_eqb (canonicalize ic x) (canonicalize ic c)
  | CSpace => is_space c
  | CNonSpace => negb (is_space c)
  | CDigit => is_digit c
  end.

Definition atom_matches (ic : bool) (a : atom) (c : char) : bool :=
  match a with
  | ALit x => char_eqb (canonicalize ic x) (canonicalize ic c)
  | AClass neg items =>
      xorb neg (existsb (fun it => citem_matches ic it c) items)
  | ADot => negb (is_line_terminator c)
  end.

(** Captures: group number to captured text. *)
Definition captures := list (nat * jsstring).

Fixpoint capture (n : nat) (caps : captures) : option jsstring :=
  match caps with
  | [] => None
  | (m, s) :: caps' => if Nat.eqb n m then Some s else capture n caps'
  end.

Definition set_capture (n : nat) (s : jsstring) (caps : captures) : captures :=
  (n, s) :: caps.

(** The state of a match in progress: the input not yet consumed, and the
    captures. *)
Definition cont := jsstring -> captures -> option (jsstring * captures).

Section Quantifiers.
Variable p : char -> bool.

(** Greedy [a*]: take as many as possible, give back one at a time. *)
Fixpoint star_greedy (s : jsstring) (caps : captures) (k : cont)
  : option (jsstring * captures) :=
  match s with
  | c :: s' =>
      if p c then
        match star_greedy s' caps k with
        | Some res => Some res
        | None => k s caps
        end
      else k s caps
  | [] => k s caps
  end.

(** Lazy [a*?]: try the rest of the pattern first, then one more. *)
Fixpoint star_lazy (s : jsstring) (caps : captures) (k : cont)
  : option (jsstring * captures) :=
  match k s caps with
  | Some res => Some res
  | None =>
      match s with
      | c :: s' => if p c then star_lazy s' caps k else None
      | [] => None
      end
  end.

Definition star (greedy : bool) := if greedy then star_greedy else star_lazy.

Definition one (s : jsstring) (caps : captures) (k : cont)
  : option (jsstring * captures) :=
  match s with
  | c :: s' => if p c then k s' caps else None
  | [] => None
  end.
End Quantifiers.

(** [rmatch ic r s caps k]: match [r] at the start of [s], then [k]. *)
Fixpoint rmatch (ic : bool) (r : regex) (s : jsstring) (caps : captures)
  (k : cont) : option (jsstring * captures) :=
  match r with
  | REmpty => k s caps
  | RAtom a => one (atom_matches ic a) s caps k
  | RSeq r1 r2 => rmatch ic r1 s caps (fun s' caps' => rmatch ic r2 s' caps' k)
  | RAlt r1 r2 =>
      match rmatch ic r1 s caps k with
      | Some res => Some res
      | None => rmatch ic r2 s caps k
      end
  | RStar g a => star (atom_matches ic a) g s caps k
  | RPlus g a =>
      one (atom_matches ic a) s caps
        (fun s' caps' => star (atom_matches ic a) g s' caps' k)
  | ROpt a =>
      match one (atom_matches ic a) s caps k with
      | Some res => Some res
      | None => k s caps
      end
  | RGroup n r' =>
      rmatch ic r' s caps
        (fun s' caps' =>
           k s' (set_capture n (firstn (length s - length s') s) caps'))
  | RLookahead r' =>
      match rmatch ic r' s caps (fun s' caps' => Some (s', caps')) with
      | Some (_, caps') => k s caps'
      | None => None
      end
  | REnd => match s with [] => k s caps | _ => None end
  end.

(** A successful match: [index], the matched text [m0] (match[0]) and the
    capture groups (match[1], match[2], ...). *)
Record MatchResult : Type :=
  mkMatch { index : nat; m0 : jsstring; groups : captures }.

(** match[n] for a group that took part in the match *)
Definition group (n : nat) (m : MatchResult) : jsstring :=
  match capture n (groups m) with Some s => s | None => [] end.

(** Match at the start of [s] only. *)
Definition match_here (re : RegExp) (s : jsstring)
  : option (jsstring * captures) :=
  rmatch (ignoreCase re) (source re) s [] (fun s' caps' => Some (s', caps')).

(** Try the start positions [pos], [pos + 1], ... in turn; [s] is the
    input from [pos] on. *)
Fixpoint search (re : RegExp) (pos : nat) (s : jsstring)
  : option MatchResult :=
  match match_here re s with
  | Some (s', caps) => Some (mkMatch pos (firstn (length s - length s') s) caps)
  | None =>
      match s with
      | [] => None
      | _ :: s' => search re (S pos) s'
      end
  end.

(** [re.exec(s)] of a global regular expression whose [lastIndex] is
    [lastIndex]: the match, if any, and the new [lastIndex] (a failed
    match resets it to 0, which no loop of the file looks at). *)
Definition exec (re : RegExp) (s : jsstring) (lastIndex : nat)
  : option (MatchResult * nat) :=
  if Nat.ltb (length s) lastIndex then None
  else
    match search re lastIndex (skipn lastIndex s) with
    | Some m => Some (m, index m + length (m0 m))
    | None => None
    end.

(** [s.match(re)] and [s.replace(re, repl)] with a global regular
    expression enumerate the matches from left to right: the next match is
    looked for where the previous one ended, one code unit further when
    that match was empty.  [skip] counts the code units of the current
    match still to be passed over. *)
Fixpoint match_all (re : RegExp) (skip : nat) (s : jsstring)
  : list jsstring :=
  match s with
  | [] =>
      match skip with
      | O => match match_here re [] with Some _ => [[]] | None => [] end
      | S _ => []
      end
  | _ :: s' =>
      match skip with
      | S n => match_all re n s'
      | O =>
          match match_here re s with
          | Some (rest, _) =>
              let n := length s - length rest in
              firstn n s :: match_all re (n - 1) s'
          | None => match_all re 0 s'
          end
      end
  end.

(** [s.match(re)]: the matched texts, or null when there is none. *)
Definition match_g (re : RegExp) (s : jsstring) : option (list jsstring) :=
  match match_all re 0 s with
  | [] => None
  | ms => Some ms
  end.

(** [s.replace(re, repl)] for a replacement text without [$]. *)
Fixpoint replace_all (re : RegExp) (repl : jsstring) (skip : nat)
  (s : jsstring) : jsstring :=
  match s with
  | [] =>
      match skip with
      | O => match match_here re [] with Some _ => repl | None => [] end
      | S _ => []
      end
  | c :: s' =>
      match skip with
      | S n => replace_all re repl n s'
      | O =>
          match match_here re s with
          | Some (rest, _) =>
              match length s - length rest with
              | O => repl ++ c :: replace_all re repl 0 s'
              | S n => repl ++ replace_all re repl n s'
              end
          | None => c :: replace_all re repl 0 s'
          end
      end
  end.

Definition replace_g (re : RegExp) (repl s : jsstring) : jsstring :=
  replace_all re repl 0 s.

(** Patterns are written with these abbreviations. *)
Fixpoint chars (s : jsstring) : regex :=
  match s with
  | [] => REmpty
  | [c] => RAtom (ALit c)
  | c :: s' => RSeq (RAtom (ALit c)) (chars s')
  end.

Definition str (s : string) : regex := chars (lit s).

Definition chr (s : string) : char :=
  match lit s with c :: _ => c | [] => 0%N end.

(** [[^x]] *)
Definition not_char (s : string) : atom := AClass true [CChar (chr s)].

Fixpoint seq (rs : list regex) : regex :=
  match rs with
  | [] => REmpty
  | [r] => r
  | r :: rs' => RSeq r (seq rs')
  end.

End Regex.

Import Regex.

(** ** Exceptions

    Every value the platform throws or rejects with ([TypeError],
    [URIError], [SyntaxError], [DOMException]) and every value the file
    throws ([new Error(...)]) is an error object; the file reads only its
    [message]. *)

Record exn : Type := Error { message : jsstring }.

Inductive outcome (A : Type) : Type :=
| Ok (a : A)
| Throw (e : exn).

Arguments Ok {A} a.
Arguments Throw {A} e.

(** ** The result records *)

Record SearchResult : Type := mkResult
  { title : jsstring; url : jsstring; snippet : jsstring; rank : nat }.

(** ** Loops over [re.exec]

    [while ((match = re.exec(s)) !== null && cond) { body }] for a global
    regular expression created just before the loop.  The engine may give
    up on a call with an exception (its backtracking stack is bounded):
    [fault re s lastIndex] says when, and is [None] everywhere for an
    engine that never gives up.  A successful [exec] of a pattern that
    cannot match the empty string moves [lastIndex] forward, so
    [S (length s)] rounds are enough ([while_exec_fuel] below). *)

Definition fault_oracle := RegExp -> jsstring -> nat -> option exn.

Definition no_fault : fault_oracle := fun _ _ _ => None.

Section WhileExec.
Variable fault : fault_oracle.
Variable St : Type.
Variable re : RegExp.
Variable s : jsstring.
Variable cond : St -> bool.
Variable body : MatchResult -> St -> St.

Fixpoint while_exec_from (fuel lastIndex : nat) (st : St) : outcome St :=
  match fuel with
  | O => Ok st
  | S fuel' =>
      match fault re s lastIndex with
      | Some e => Throw e
      | None =>
          match exec re s lastIndex with
          | None => Ok st
          | Some (m, lastIndex') =>
              if cond st
              then while_exec_from fuel' lastIndex' (body m st)
              else Ok st
          end
      end
  end.

Definition while_exec (st : St) : outcome St :=
  while_exec_from (S (length s)) 0 st.
End WhileExec.

(** ** The citation extractor *)

(** [/\[(\d+)\]\s*(.+?)(?=\[|$)/g] *)
Definition citationRegex : RegExp :=
  mkRegExp
    (seq [ str "[";
           RGroup 1 (RPlus true (AClass false [CDigit]));
           str "]";
           RStar true (AClass false [CSpace]);
           RGroup 2 (RPlus false ADot);
           RLookahead (RAlt (str "[") REnd) ])
    false.

(** [/https?:\/\/[^\s\)]+/g] *)
Definition urlRegex : RegExp :=
  mkRegExp
    (seq [ str "http"; ROpt (ALit (chr "s")); str "://";
           RPlus true (AClass true [CSpace; CChar (chr ")")]) ])
    false.

(** [`Result ${rank}`] *)
Definition result_n (n : nat) : jsstring := lit "Result " ++ of_nat n.

(** The state of the loop of [parsePerplexityResults]: [rank] and
    [results]. *)
Definition citation_body (m : MatchResult) (st : nat * list SearchResult)
  : nat * list SearchResult :=
  let '(rank, results) := st in
  let citationText := trim (group 2 m) in
  match match_g urlRegex citationText with
  | Some (u :: _) =>
      if truthy u then
        let pieces := split u citationText in
        let titleMatch := trim (nth 0 pieces []) in
        let snippetMatch :=
          match nth_error pieces 1 with
          | Some p => or_else (trim p) []
          | None => []
          end in
        (S rank,
         results ++ [mkResult (or_else titleMatch (result_n rank)) u
                       (substring0 200 snippetMatch) rank])
      else st
  | _ => st
  end.

Definition parsePerplexityResults (fault : fault_oracle)
  (content : jsstring) (limit : Z) : outcome (list SearchResult) :=
  match
    while_exec fault citationRegex content
      (fun st => Z.ltb (Z.of_nat (length (snd st))) limit)
      citation_body (1, [])
  with
  | Ok (_, results) => Ok results
  | Throw e => Throw e
  end.

(** ** The HTML extractor *)

Definition quot : char := 34%N.   (* the double quote *)
Definition a_quot : regex := RAtom (ALit quot).
Definition not_quot : atom := AClass true [CChar quot].

(** The patterns of [parseDuckDuckGoResults]; in these comments Q stands
    for the double-quote character of the source, and a space separates a
    star from a closing parenthesis.

    [/<a[^>]*class=Q[^Q]*result__a[^Q]*Q[^>]*href=Q([^Q]* )Q[^>]*>([^<]* )<\/a>/gi] *)
Definition modernRegex : RegExp :=
  mkRegExp
    (seq [ str "<a"; RStar true (not_char ">");
           str "class="; a_quot; RStar true not_quot;
           str "result__a"; RStar true not_quot; a_quot;
           RStar true (not_char ">");
           str "href="; a_quot; RGroup 1 (RStar true not_quot); a_quot;
           RStar true (not_char ">"); str ">";
           RGroup 2 (RStar true (not_char "<")); str "</a>" ])
    true.

(** [/<a[^>]*class=Q[^Q]*result__snippet[^Q]*Q[^>]*>([^<]* )<\/a>/gi] *)
Definition snippetRegex : RegExp :=
  mkRegExp
    (seq [ str "<a"; RStar true (not_char ">");
           str "class="; a_quot; RStar true not_quot;
           str "result__snippet"; RStar true not_quot; a_quot;
           RStar true (not_char ">"); str ">";
           RGroup 1 (RStar true (not_char "<")); str "</a>" ])
    true.

(** [/<a[^>]*href=Q(https?:\/\/[^Q]+)Q[^>]*>([^<]+)<\/a>/gi] *)
Definition genericLinkRegex : RegExp :=
  mkRegExp
    (seq [ str "<a"; RStar true (not_char ">");
           str "href="; a_quot;
           RGroup 1 (seq [ str "http"; ROpt (ALit (chr "s")); str "://";
                           RPlus true not_quot ]);
           a_quot;
           RStar true (not_char ">"); str ">";
           RGroup 2 (RPlus true (not_char "<")); str "</a>" ])
    true.

(** [/<[^>]+>/g] *)
Definition tagRegex : RegExp :=
  mkRegExp (seq [ str "<"; RPlus true (not_char ">"); str ">" ]) false.

Module Link.
Record t : Type := mk { url : jsstring; title : jsstring }.
End Link.

(** [match[2].trim().replace(/<[^>]+>/g, '')] *)
Definition clean_text (s : jsstring) : jsstring := replace_g tagRegex [] (trim s).

(** [links.length < limit * 2] *)
Definition below_cap (A : Type) (limit : Z) (l : list A) : bool :=
  Z.ltb (Z.of_nat (length l)) (limit * 2).

Definition modern_body (m : MatchResult) (links : list Link.t) : list Link.t :=
  let url := group 1 m in
  if negb (includes (lit "duckduckgo.com") url) && startsWith (lit "http") url
  then links ++ [Link.mk url (clean_text (group 2 m))]
  else links.

Definition snippet_body (m : MatchResult) (snippets : list jsstring)
  : list jsstring :=
  snippets ++ [clean_text (group 1 m)].

Definition generic_body (m : MatchResult) (links : list Link.t) : list Link.t :=
  let url := group 1 m in
  if negb (includes (lit "duckduckgo.com") url)
     && negb (includes (lit "javascript:") url)
  then links ++ [Link.mk url (clean_text (group 2 m))]
  else links.

(** Console output, as far as the file produces it. *)
Inductive level : Type := level_warn | level_error.

Record console_entry : Type :=
  mkEntry { entry_level : level; entry_text : jsstring; entry_detail : jsstring }.

Section Extractor.
Variable fault : fault_oracle.
Variable html : jsstring.
Variable limit : Z.

(** Strategy 1: the links of the modern structure. *)
Definition primary_links : outcome (list Link.t) :=
  while_exec fault modernRegex html (below_cap limit) modern_body [].

Definition snippet_texts : outcome (list jsstring) :=
  while_exec fault snippetRegex html (below_cap limit) snippet_body [].

(** Strategy 2: any anchor with an absolute http(s) address. *)
Definition fallback_links (links : list Link.t) : outcome (list Link.t) :=
  while_exec fault genericLinkRegex html (below_cap limit) generic_body links.

(** The statements of the [try] block up to the final loop. *)
Definition scan_candidates : outcome (list Link.t * list jsstring) :=
  match primary_links with
  | Throw e => Throw e
  | Ok links =>
      match snippet_texts with
      | Throw e => Throw e
      | Ok snippets =>
          if Nat.eqb (length links) 0 then
            match fallback_links links with
            | Throw e => Throw e
            | Ok links' => Ok (links', snippets)
            end
          else Ok (links, snippets)
      end
  end.

(** [snippets[i] || snippets[i - 1] || ''] *)
Definition snippet_for (snippets : list jsstring) (i : nat) : jsstring :=
  or_else (nth i snippets [])
    (or_else (match i with O => [] | S j => nth j snippets [] end) []).

(** [link.url.split('&')[0].split('?')[0]] *)
Definition cleanUrl (u : jsstring) : jsstring :=
  nth 0 (split (lit "?") (nth 0 (split (lit "&") u) [])) [].

(** One round of the final loop: [results.push({...})]. *)
Definition combine_body (links : list Link.t) (snippets : list jsstring)
  (results : list SearchResult) (i : nat) : list SearchResult :=
  let link := nth i links (Link.mk [] []) in
  let snippet := snippet_for snippets i in
  results ++
    [mkResult (or_else (Link.title link) (result_n (i + 1)))
       (cleanUrl (Link.url link)) (substring0 300 snippet) (i + 1)].

(** [for (let i = 0; i < Math.min(links.length, limit); i++)] *)
Definition combine (links : list Link.t) (snippets : list jsstring)
  (results : list SearchResult) : list SearchResult :=
  fold_left (combine_body links snippets)
    (List.seq 0 (Z.to_nat (Z.min (Z.of_nat (length links)) limit)))
    results.

(** [results] is created before the [try]; the [catch] logs and falls
    through to [return results]. *)
Definition parseDuckDuckGoResults : list SearchResult * list console_entry :=
  let results := [] in
  match scan_candidates with
  | Ok (links, snippets) => (combine links snippets results, [])
  | Throw e =>
      (results,
       [mkEntry level_error (lit "Error parsing search results:") (message e)])
  end.
End Extractor.

(** ** The HTML extractor, statement by statement

    [parseDuckDuckGoResults] above is what the function returns and what
    it writes to the console.  Here its statements run one after the
    other on a store that holds the array [results] and the console, and
    a statement completes or throws: the [try] and the [catch] are
    statements like the others, and the function itself could throw.
    The arrays [links] and [snippets] do not leave the [try] block and
    are values. *)

Module Statements.

Record Store : Type := mkStore
  { st_results : list SearchResult;        (* the array [results] *)
    st_console : list console_entry }.     (* what has been written *)

(** A statement: from a store to a value or an exception, and the store
    it leaves. *)
Definition stmt (A : Type) : Type := Store -> outcome A * Store.

Definition ret {A : Type} (a : A) : stmt A := fun st => (Ok a, st).

(** [p; f]: an exception of [p] ends the sequence, with the store as [p]
    left it. *)
Definition bind {A B : Type} (p : stmt A) (f : A -> stmt B) : stmt B :=
  fun st =>
    match p st with
    | (Ok a, st') => f a st'
    | (Throw e, st') => (Throw e, st')
    end.

(** An expression that may throw and does not touch the store. *)
Definition eval {A : Type} (o : outcome A) : stmt A := fun st => (o, st).

(** [try { p } catch (error) { h error }] *)
Definition try_catch {A : Type} (p : stmt A) (h : exn -> stmt A) : stmt A :=
  fun st =>
    match p st with
    | (Ok a, st') => (Ok a, st')
    | (Throw e, st') => h e st'
    end.

(** [const results = []] *)
Definition new_results : stmt unit :=
  fun st => (Ok tt, mkStore [] (st_console st)).

(** [results.push(r)] *)
Definition push (r : SearchResult) : stmt unit :=
  fun st => (Ok tt, mkStore (st_results st ++ [r]) (st_console st)).

(** [console.error(...)] *)
Definition console_error (c : console_entry) : stmt unit :=
  fun st => (Ok tt, mkStore (st_results st) (st_console st ++ [c])).

(** [return results] *)
Definition return_results : stmt (list SearchResult) :=
  fun st => (Ok (st_results st), st).

(** [for (let i = 0; i < n; i++) body], over the values that [i] takes. *)
Fixpoint for_each (l : list nat) (body : nat -> stmt unit) : stmt unit :=
  match l with
  | [] => ret tt
  | i :: l' => bind (body i) (fun _ => for_each l' body)
  end.

Section Extractor.
Variable fault : fault_oracle.
Variable html : jsstring.
Variable limit : Z.

(** The [try] block: the two scans, the fallback scan when the first
    found no link, and the final loop, which is where [results] is
    written. *)
Definition try_block : stmt unit :=
  bind (eval (primary_links fault html limit)) (fun links0 =>
  bind (eval (snippet_texts fault html limit)) (fun snippets =>
  bind (if Nat.eqb (length links0) 0
        then eval (fallback_links fault html limit links0)
        else ret links0) (fun links =>
  for_each (List.seq 0 (Z.to_nat (Z.min (Z.of_nat (length links)) limit)))
    (fun i =>
       let link := nth i links (Link.mk [] []) in
       let snippet := snippet_for snippets i in
       push (mkResult (or_else (Link.title link) (result_n (i + 1)))
               (cleanUrl (Link.url link)) (substring0 300 snippet) (i + 1)))))).

(** The [catch] block. *)
Definition catch_block (error : exn) : stmt unit :=
  console_error
    (mkEntry level_error (lit "Error parsing search results:") (message error)).

Definition parseDuckDuckGoResults : stmt (list SearchResult) :=
  bind new_results (fun _ =>
  bind (try_catch try_block catch_block) (fun _ =>
  return_results)).
End Extractor.

End Statements.

(** ** The platform

    What the asynchronous functions use from their environment: the
    variable [process.env.PERPLEXITY_API_KEY], [fetch], the console and
    the clock. *)

(** JSON values, as [response.json()] produces them.  A number is kept as
    its ToString image, the only thing the file can observe of it besides
    its truth value (false exactly for 0). *)
Unset Elimination Schemes.
Inductive json : Type :=
| JNull
| JBool (b : bool)
| JNum (repr : jsstring)
| JStr (s : jsstring)
| JArr (items : list json)
| JObj (fields : list (jsstring * json)).
Set Elimination Schemes.

Fixpoint field (name : jsstring) (fields : list (jsstring * json))
  : option json :=
  match fields with
  | [] => None
  | (k, v) :: fields' => if str_eqb k name then Some v else field name fields'
  end.

(** [v.name] for a value that is neither null nor undefined and a name
    that no prototype defines; [None] is undefined. *)
Definition get_prop (v : json) (name : jsstring) : option json :=
  match v with
  | JObj fields => field name fields
  | _ => None
  end.

(** [v[0]] for a value that is neither null nor undefined. *)
Definition get_index0 (v : json) : option json :=
  match v with
  | JArr items => nth_error items 0
  | JStr (c :: _) => Some (JStr [c])
  | JObj fields => field (lit "0") fields
  | _ => None
  end.

Definition json_truthy (v : json) : bool :=
  match v with
  | JNull => false
  | JBool b => b
  | JNum repr => negb (str_eqb repr (lit "0"))
  | JStr s => truthy s
  | JArr _ | JObj _ => true
  end.

Fixpoint join (sep : jsstring) (l : list jsstring) : jsstring :=
  match l with
  | [] => []
  | [x] => x
  | x :: l' => x ++ sep ++ join sep l'
  end.

(** ToString, which [exec] applies to its argument.  An object is
    converted by its [toString] method: the one of [Object.prototype],
    unless the object has a key [toString] of its own, which holds a JSON
    value and so nothing that can be called, and then the conversion
    throws (the [valueOf] that is tried next returns no primitive).  An
    array is converted by [join], which converts its elements from left
    to right, [null] to the empty string.  The message of the TypeError
    is V8's. *)
Fixpoint to_string (v : json) : outcome jsstring :=
  match v with
  | JNull => Ok (lit "null")
  | JBool true => Ok (lit "true")
  | JBool false => Ok (lit "false")
  | JNum repr => Ok repr
  | JStr s => Ok s
  | JArr items =>
      let fix each (l : list json) : outcome (list jsstring) :=
        match l with
        | [] => Ok []
        | x :: l' =>
            match (match x with JNull => Ok [] | _ => to_string x end) with
            | Throw e => Throw e
            | Ok piece =>
                match each l' with
                | Throw e => Throw e
                | Ok pieces => Ok (piece :: pieces)
                end
            end
        end in
      match each items with
      | Throw e => Throw e
      | Ok pieces => Ok (join (lit ",") pieces)
      end
  | JObj fields =>
      match field (lit "toString") fields with
      | Some _ => Throw (Error (lit "Cannot convert object to primitive value"))
      | None => Ok (lit "[object Object]")
      end
  end.

(** A [Response], with what reading its body will give. *)
Record Response : Type := mkResponse
  { ok : bool;
    statusText : jsstring;
    text : outcome jsstring;     (* await response.text() *)
    json_body : outcome json }.  (* await response.json() *)

(** The second argument of [fetch]; [body] is the value handed to
    [JSON.stringify], [timeout] the milliseconds of [AbortSignal.timeout]. *)
Record RequestInit : Type := mkInit
  { method : option jsstring;
    headers : list (jsstring * jsstring);
    body : option json;
    timeout : option N }.

(** A program: what an async function does, up to its result.  [Fetch] is
    [await fetch(url, init)]; a rejected promise is a [Throw] given to the
    continuation. *)
Inductive prog (A : Type) : Type :=
| Ret (a : A)
| Raise (e : exn)
| GetEnv (k : option jsstring -> prog A)
| Fetch (url : jsstring) (init : RequestInit) (k : outcome Response -> prog A)
| Console (entry : console_entry) (k : prog A)
| Now (k : jsstring -> prog A).

Arguments Ret {A} a.
Arguments Raise {A} e.
Arguments GetEnv {A} k.
Arguments Fetch {A} url init k.
Arguments Console {A} entry k.
Arguments Now {A} k.

Fixpoint bind (A B : Type) (p : prog A) (f : A -> prog B) : prog B :=
  match p with
  | Ret a => f a
  | Raise e => Raise e
  | GetEnv k => GetEnv (fun x => bind (k x) f)
  | Fetch u i k => Fetch u i (fun x => bind (k x) f)
  | Console c k => Console c (bind k f)
  | Now k => Now (fun x => bind (k x) f)
  end.

(** [try { p } catch (error) { h error }] *)
Fixpoint try_catch (A : Type) (p : prog A) (h : exn -> prog A) : prog A :=
  match p with
  | Ret a => Ret a
  | Raise e => h e
  | GetEnv k => GetEnv (fun x => try_catch (k x) h)
  | Fetch u i k => Fetch u i (fun x => try_catch (k x) h)
  | Console c k => Console c (try_catch k h)
  | Now k => Now (fun x => try_catch (k x) h)
  end.

Declare Scope prog_scope.
Delimit Scope prog_scope with prog.
Notation "x <- p ;; f" := (bind p (fun x => f))
  (at level 61, p at next level, right associativity) : prog_scope.
Notation "p ;;; f" := (bind p (fun _ => f))
  (at level 61, right associativity) : prog_scope.
Local Open Scope prog_scope.

Definition getenv : prog (option jsstring) := GetEnv (fun x => Ret x).
Definition fetch (url : jsstring) (init : RequestInit)
  : prog Response :=
  Fetch url init (fun r => match r with Ok x => Ret x | Throw e => Raise e end).
Definition console (c : console_entry) : prog unit := Console c (Ret tt).
Definition now : prog jsstring := Now (fun t => Ret t).
(** A synchronous step that may throw, and an awaited body read. *)
Definition lift (A : Type) (o : outcome A) : prog A :=
  match o with Ok a => Ret a | Throw e => Raise e end.

(** *** [encodeURIComponent] *)

Section Encode.
Local Open Scope N_scope.

Definition uri_unreserved (c : char) : bool :=
  in_range 65 90 c || in_range 97 122 c || in_range 48 57 c
  || existsb (char_eqb c) (lit "-_.!~*'()").

Definition hex_digit (n : N) : char := if n <? 10 then 48 + n else 55 + n.

Definition percent (b : N) : jsstring :=
  [37; hex_digit (b / 16); hex_digit (b mod 16)].

Definition utf8 (cp : N) : list N :=
  if cp <? 128 then [cp]
  else if cp <? 2048 then [192 + cp / 64; 128 + cp mod 64]
  else if cp <? 65536 then
    [224 + cp / 4096; 128 + (cp / 64) mod 64; 128 + cp mod 64]
  else
    [240 + cp / 262144; 128 + (cp / 4096) mod 64;
     128 + (cp / 64) mod 64; 128 + cp mod 64].

Definition escape (cp : N) : jsstring := concat (map percent (utf8 cp)).

Definition URIError : exn := Error (lit "URI malformed").

Definition prepend (p : jsstring) (o : outcome jsstring) : outcome jsstring :=
  match o with Ok s => Ok (p ++ s)%list | Throw e => Throw e end.

(** A lone surrogate makes [encodeURIComponent] throw a URIError. *)
Fixpoint encodeURIComponent (s : jsstring) : outcome jsstring :=
  match s with
  | [] => Ok []
  | c :: s' =>
      if uri_unreserved c then prepend [c] (encodeURIComponent s')
      else if in_range 56320 57343 c then Throw URIError
      else if in_range 55296 56319 c then
        match s' with
        | c2 :: s'' =>
            if in_range 56320 57343 c2
            then prepend
                   (escape ((c - 55296) * 1024 + (c2 - 56320) + 65536))
                   (encodeURIComponent s'')
            else Throw URIError
        | [] => Throw URIError
        end
      else prepend (escape c) (encodeURIComponent s')
  end.
End Encode.

(** [`${n}`] for an integer *)
Definition of_Z (z : Z) : jsstring :=
  if Z.ltb z 0 then lit "-" ++ of_nat (Z.abs_nat z) else of_nat (Z.to_nat z).

(** ** Envelopes *)

Inductive Source : Type := perplexity | duckduckgo | none.

Record SearchEnvelope : Type := mkEnvelope
  { query : jsstring;
    results : list SearchResult;
    total : nat;
    error : option jsstring;      (* the key is absent when [None] *)
    timestamp : jsstring;
    source : Source }.

Record SearchOptions : Type := mkOptions
  { limit : option Z; region : option jsstring }.

(** [const { limit = 10 } = options] *)
Definition limit_of (options : SearchOptions) : Z :=
  match limit options with Some l => l | None => 10%Z end.

(** [data.choices[0]?.message?.content || ''], as the string that
    [exec] makes of it, or the TypeError of the property reads or of that
    conversion.  The messages of the TypeErrors are V8's. *)
Definition content_of (data : json) : outcome jsstring :=
  match data with
  | JNull =>
      Throw (Error (lit "Cannot read properties of null (reading 'choices')"))
  | _ =>
      match get_prop data (lit "choices") with
      | None =>
          Throw (Error (lit "Cannot read properties of undefined (reading '0')"))
      | Some JNull =>
          Throw (Error (lit "Cannot read properties of null (reading '0')"))
      | Some choices =>
          let content :=
            match get_index0 choices with
            | None | Some JNull => None
            | Some first =>
                match get_prop first (lit "message") with
                | None | Some JNull => None
                | Some msg => get_prop msg (lit "content")
                end
            end in
          match content with
          | Some v => if json_truthy v then to_string v else Ok []
          | None => Ok []
          end
      end
  end.

(** ** The search functions *)

Definition truthy_key (k : option jsstring) : bool :=
  match k with Some s => truthy s | None => false end.

Definition apiUrl : jsstring := lit "https://api.perplexity.ai/chat/completions".

Definition searchUrlPrefix : jsstring := lit "https://html.duckduckgo.com/html/?q=".

Definition perplexity_init (apiKey query : jsstring) (limit : Z) : RequestInit :=
  mkInit (Some (lit "POST"))
    [ (lit "Authorization", lit "Bearer " ++ apiKey);
      (lit "Content-Type", lit "application/json") ]
    (Some (JObj
       [ (lit "model", JStr (lit "llama-3.1-sonar-small-128k-online"));
         (lit "messages",
          JArr
            [ JObj [ (lit "role", JStr (lit "system"));
                     (lit "content",
                      JStr (lit "You are a helpful assistant that provides web search results in a structured format.")) ];
              JObj [ (lit "role", JStr (lit "user"));
                     (lit "content",
                      JStr (lit "Search the web for: " ++ query
                            ++ lit ". Provide " ++ of_Z limit
                            ++ lit " results with titles, URLs, and snippets.")) ] ]);
         (lit "max_tokens", JNum (lit "2000")) ]))
    None.

Definition duckduckgo_init : RequestInit :=
  mkInit None
    [ (lit "User-Agent",
       lit "Mozilla/5.0 (Windows NT 10.0; Win64; x64) AppleWebKit/537.36 (KHTML, like Gecko) Chrome/120.0.0.0 Safari/537.36");
      (lit "Accept",
       lit "text/html,application/xhtml+xml,application/xml;q=0.9,*/*;q=0.8");
      (lit "Accept-Language", lit "en-US,en;q=0.5") ]
    None None.

Fixpoint console_all (l : list console_entry) : prog unit :=
  match l with
  | [] => Ret tt
  | c :: l' => Console c (console_all l')
  end.

Module MultiQueryEnvelope.
Record t : Type := mk
  { queries : list jsstring;
    results : list SearchEnvelope;
    totalResults : nat;
    timestamp : jsstring }.
End MultiQueryEnvelope.

(** [{...result, content, fetchError}]; [content] is null and [fetchError]
    absent when [None]. *)
Record EnrichedResult : Type := mkEnriched
  { base : SearchResult;
    content : option jsstring;
    fetchError : option jsstring }.

Module EnrichmentEnvelope.
Record t : Type := mk
  { query : jsstring;
    searchResults : list SearchResult;
    fetchedContent : list EnrichedResult;
    timestamp : jsstring }.
End EnrichmentEnvelope.

Record FetchOptions : Type := mkFetchOptions { fetchCount : option Z }.

(** [const { fetchCount = 3 } = options] *)
Definition fetchCount_of (options : FetchOptions) : Z :=
  match fetchCount options with Some n => n | None => 3%Z end.

(** [l.slice(0, n)] for an integer [n]: a negative [n] counts from the end. *)
Definition slice0 (A : Type) (n : Z) (l : list A) : list A :=
  if Z.ltb n 0 then firstn (Z.to_nat (Z.of_nat (length l) + n)) l
  else firstn (Z.to_nat n) l.

(** [/<script[^>]*>[\s\S]*?<\/script>/gi] *)
Definition scriptRegex : RegExp :=
  mkRegExp
    (seq [ str "<script"; RStar true (not_char ">"); str ">";
           RStar false (AClass false [CSpace; CNonSpace]); str "</script>" ])
    true.

(** [/<style[^>]*>[\s\S]*?<\/style>/gi] *)
Definition styleRegex : RegExp :=
  mkRegExp
    (seq [ str "<style"; RStar true (not_char ">"); str ">";
           RStar false (AClass false [CSpace; CNonSpace]); str "</style>" ])
    true.

(** [/\s+/g] *)
Definition spaceRegex : RegExp :=
  mkRegExp (RPlus true (AClass false [CSpace])) false.

Definition page_init : RequestInit :=
  mkInit None
    [ (lit "User-Agent",
       lit "Mozilla/5.0 (Windows NT 10.0; Win64; x64) AppleWebKit/537.36") ]
    None (Some 10000%N).


Section Search.
Variable fault : fault_oracle.

Definition searchWithPerplexity (query : jsstring) (options : SearchOptions)
  : prog SearchEnvelope :=
  let limit := limit_of options in
  apiKey <- getenv ;;
  match apiKey with
  | Some key =>
      if truthy key then
        response <- fetch apiUrl (perplexity_init key query limit) ;;
        (if negb (ok response) then
           errorText <- lift (text response) ;;
           Raise (Error (lit "Perplexity API error: " ++ statusText response
                         ++ lit " - " ++ errorText))
         else Ret tt) ;;;
        data <- lift (json_body response) ;;
        content <- lift (content_of data) ;;
        results <- lift (parsePerplexityResults fault content limit) ;;
        timestamp <- now ;;
        Ret (mkEnvelope query results (length results) None timestamp
               perplexity)
      else Raise (Error (lit "PERPLEXITY_API_KEY not set"))
  | None => Raise (Error (lit "PERPLEXITY_API_KEY not set"))
  end.

(** The body of the second [try] of [searchWeb]. *)
Definition searchDuckDuckGo (query : jsstring) (limit : Z)
  : prog SearchEnvelope :=
  encoded <- lift (encodeURIComponent query) ;;
  response <- fetch (searchUrlPrefix ++ encoded) duckduckgo_init ;;
  (if negb (ok response)
   then Raise (Error (lit "Search failed: " ++ statusText response))
   else Ret tt) ;;;
  html <- lift (text response) ;;
  let '(results, logged) := parseDuckDuckGoResults fault html limit in
  console_all logged ;;;
  timestamp <- now ;;
  Ret (mkEnvelope query results (length results) None timestamp duckduckgo).

(** Its [catch]. *)
Definition search_failed (query : jsstring) (err : exn)
  : prog SearchEnvelope :=
  console (mkEntry level_error (lit "Web search error:") (message err)) ;;;
  timestamp <- now ;;
  Ret (mkEnvelope query [] 0 (Some (message err)) timestamp none).

(** [None] stands for leaving the first [if] without a [return]. *)
Definition searchWeb (query : jsstring) (options : SearchOptions)
  : prog SearchEnvelope :=
  let limit := limit_of options in
  key <- getenv ;;
  early <-
    (if truthy_key key then
       try_catch
         (r <- searchWithPerplexity query (mkOptions (Some limit) None) ;;
          Ret (Some r))
         (fun err =>
            console (mkEntry level_warn
                       (lit "Perplexity search failed, falling back to DuckDuckGo:")
                       (message err)) ;;;
            Ret None)
     else Ret None) ;;
  match early with
  | Some r => Ret r
  | None => try_catch (searchDuckDuckGo query limit) (search_failed query)
  end.
(** *** [searchWebMultiple]

    [Promise.all] over the calls started by [queries.map]: the calls run
    interleaved, and the continuation gets their results in the order of
    the array. *)

Record par (A B : Type) : Type :=
  mkPar { par_tasks : list (prog A); par_then : list A -> prog B }.

Definition searchWebMultiple (queries : list jsstring)
  (options : SearchOptions) : par SearchEnvelope MultiQueryEnvelope.t :=
  mkPar
    (map (fun query => searchWeb query options) queries)
    (fun results =>
       timestamp <- now ;;
       Ret (MultiQueryEnvelope.mk queries results
              (fold_left (fun sum r => sum + total r) results 0)
              timestamp)).

(** *** [fetchWebPage] and [searchAndFetch] *)

Definition fetchWebPage (url : jsstring) : prog jsstring :=
  try_catch
    (response <- fetch url page_init ;;
     (if negb (ok response)
      then Raise (Error (lit "Failed to fetch: " ++ statusText response))
      else Ret tt) ;;;
     html <- lift (text response) ;;
     let textContent :=
       trim
         (replace_g spaceRegex (lit " ")
            (replace_g tagRegex (lit " ")
               (replace_g styleRegex []
                  (replace_g scriptRegex [] html)))) in
     Ret (substring0 10000 textContent))
    (fun err =>
       Raise (Error (lit "Failed to fetch " ++ url ++ lit ": " ++ message err))).

(** One round of the loop of [searchAndFetch]. *)
Definition fetch_one (result : SearchResult)
  (fetchedContent : list EnrichedResult) : prog (list EnrichedResult) :=
  try_catch
    (content <- fetchWebPage (url result) ;;
     Ret (fetchedContent
          ++ [mkEnriched result (Some (substring0 5000 content)) None]))
    (fun err =>
       Ret (fetchedContent ++ [mkEnriched result None (Some (message err))])).

(** [for (const result of ...)] *)
Fixpoint fetch_each (rs : list SearchResult)
  (fetchedContent : list EnrichedResult) : prog (list EnrichedResult) :=
  match rs with
  | [] => Ret fetchedContent
  | result :: rs' =>
      fetchedContent' <- fetch_one result fetchedContent ;;
      fetch_each rs' fetchedContent'
  end.

Definition searchAndFetch (query : jsstring) (options : FetchOptions)
  : prog EnrichmentEnvelope.t :=
  let fetchCount := fetchCount_of options in
  searchResults <- searchWeb query (mkOptions (Some fetchCount) None) ;;
  fetchedContent <-
    fetch_each (slice0 fetchCount (results searchResults)) [] ;;
  timestamp <- now ;;
  Ret (EnrichmentEnvelope.mk query (results searchResults) fetchedContent
         timestamp).

End Search.

(** ** Running a program

    A platform is a state machine that answers the reads of the
    environment variable, the requests and the reads of the clock. *)

Inductive event : Type :=
| EvEnv (value : option jsstring)
| EvFetch (url : jsstring) (init : RequestInit) (answer : outcome Response)
| EvConsole (entry : console_entry)
| EvNow (t : jsstring).

Record Platform (W : Type) : Type := mkPlatform
  { read_env : W -> option jsstring * W;
    do_fetch : jsstring -> RequestInit -> W -> outcome Response * W;
    read_clock : W -> jsstring * W }.

Record ran (W A : Type) : Type :=
  mkRan { value : A; trace : list event; final : W }.

Definition after (W A : Type) (ev : event) (r : ran W A) : ran W A :=
  mkRan (value r) (ev :: trace r) (final r).

Section Run.
Variable W : Type.
Variable P : Platform W.

(** One async function from its call to its result, nothing else running
    in between. *)
Fixpoint run (A : Type) (p : prog A) (w : W) : ran W (outcome A) :=
  match p with
  | Ret a => mkRan (Ok a) [] w
  | Raise e => mkRan (Throw e) [] w
  | GetEnv k =>
      let '(v, w') := read_env P w in after (EvEnv v) (run (k v) w')
  | Fetch u i k =>
      let '(r, w') := do_fetch P u i w in after (EvFetch u i r) (run (k r) w')
  | Console c k => after (EvConsole c) (run k w)
  | Now k =>
      let '(t, w') := read_clock P w in after (EvNow t) (run (k t) w')
  end.

(** A task runs without interruption up to its next [await fetch]. *)
Fixpoint advance (A : Type) (p : prog A) (w : W) : ran W (prog A) :=
  match p with
  | GetEnv k =>
      let '(v, w') := read_env P w in after (EvEnv v) (advance (k v) w')
  | Console c k => after (EvConsole c) (advance k w)
  | Now k =>
      let '(t, w') := read_clock P w in after (EvNow t) (advance (k t) w')
  | Ret _ | Raise _ | Fetch _ _ _ => mkRan p [] w
  end.

(** [queries.map(...)] starts the calls one after the other. *)
Fixpoint start (A : Type) (ps : list (prog A)) (w : W)
  : ran W (list (prog A)) :=
  match ps with
  | [] => mkRan [] [] w
  | p :: ps' =>
      let r := advance p w in
      let rs := start ps' (final r) in
      mkRan (value r :: value rs) (trace r ++ trace rs) (final rs)
  end.

Fixpoint update (A : Type) (i : nat) (x : A) (l : list A) : list A :=
  match l, i with
  | [], _ => []
  | _ :: l', O => x :: l'
  | y :: l', S j => y :: update j x l'
  end.

(** The request of task [i] completes, and the task runs on to its next
    request or to its end; nothing happens when task [i] is not waiting. *)
Definition step (A : Type) (i : nat) (pool : ran W (list (prog A)))
  : ran W (list (prog A)) :=
  match nth_error (value pool) i with
  | Some (Fetch u init k) =>
      let '(r, w') := do_fetch P u init (final pool) in
      let t := advance (k r) w' in
      mkRan (update i (value t) (value pool))
        (trace pool ++ EvFetch u init r :: trace t) (final t)
  | _ => pool
  end.

(** What [Promise.all] settles to: nothing yet, the results in the order
    of the array, or a rejection (of the first rejected task in the order
    of the array; no caller in the file looks at which). *)
Fixpoint settled (A : Type) (pool : list (prog A))
  : option (outcome (list A)) :=
  match pool with
  | [] => Some (Ok [])
  | p :: pool' =>
      match p, settled pool' with
      | Raise e, _ => Some (Throw e)
      | _, Some (Throw e) => Some (Throw e)
      | Ret a, Some (Ok l) => Some (Ok (a :: l))
      | _, _ => None
      end
  end.

(** A schedule is the order in which the pending requests complete.
    [None]: the calls have not all settled when the schedule ends. *)
Definition run_par (A B : Type) (pp : par A B) (schedule : list nat) (w : W)
  : option (ran W (outcome B)) :=
  let pool := fold_left (fun pool i => step i pool) schedule
                (start (par_tasks pp) w) in
  match settled (value pool) with
  | None => None
  | Some (Throw e) => Some (mkRan (Throw e) (trace pool) (final pool))
  | Some (Ok l) =>
      let r := run (par_then pp l) (final pool) in
      Some (mkRan (value r) (trace pool ++ trace r) (final r))
  end.

End Run.

(** * Notions used in the properties *)

Unset Implicit Arguments.

(** ** The extractors *)

(** The result that round [i] of the final loop pushes. *)
Definition combined (links : list Link.t) (snippets : list jsstring) (i : nat)
  : SearchResult :=
  mkResult (or_else (Link.title (nth i links (Link.mk [] []))) (result_n (i + 1)))
    (cleanUrl (Link.url (nth i links (Link.mk [] []))))
    (substring0 300 (snippet_for snippets i)) (i + 1).

(** The number of rounds of the final loop. *)
Definition rounds (limit : Z) (links : list Link.t) : nat :=
  Z.to_nat (Z.min (Z.of_nat (length links)) limit).

(** The cap of the scans, and the filter on the provider's own links. *)
Definition within_cap (limit : Z) (links : list Link.t) : Prop :=
  (Z.of_nat (length links) <= Z.max 0 (limit * 2))%Z.

Definition off_provider (l : Link.t) : Prop :=
  includes (lit "duckduckgo.com") (Link.url l) = false.

(** Whether a pattern can match without consuming (an over-approximation). *)
Fixpoint nullable (r : regex) : bool :=
  match r with
  | RAtom _ | RPlus _ _ => false
  | RSeq r1 r2 => nullable r1 && nullable r2
  | RAlt r1 r2 => nullable r1 || nullable r2
  | RGroup _ r' => nullable r'
  | REmpty | RStar _ _ | ROpt _ | RLookahead _ | REnd => true
  end.

(** [k] is reached with no more input than [s], less when [strict]. *)
Definition reaches (strict : bool) (s : jsstring) (k : cont)
  (res : jsstring * captures) : Prop :=
  exists s' caps',
    k s' caps' = Some res
    /\ length s' <= length s
    /\ (strict = true -> length s' < length s).

(** ** Programs

    [wp Q E p]: whatever the platform answers, [p] ends with a result in
    [Q] or an exception in [E].  [emits R p]: every event of [p] is in
    [R].  [awaits n p]: [p] waits for at most [n] requests. *)

Fixpoint wp {A : Type} (Q : A -> Prop) (E : exn -> Prop) (p : prog A) : Prop :=
  match p with
  | Ret a => Q a
  | Raise e => E e
  | GetEnv k => forall v, wp Q E (k v)
  | Fetch _ _ k => forall r, wp Q E (k r)
  | Console _ k => wp Q E k
  | Now k => forall t, wp Q E (k t)
  end.

Fixpoint emits {A : Type} (R : event -> Prop) (p : prog A) : Prop :=
  match p with
  | Ret _ | Raise _ => True
  | GetEnv k => forall v, R (EvEnv v) /\ emits R (k v)
  | Fetch u i k => forall r, R (EvFetch u i r) /\ emits R (k r)
  | Console c k => R (EvConsole c) /\ emits R k
  | Now k => forall t, R (EvNow t) /\ emits R (k t)
  end.

(** Exceptional postconditions: any exception, none. *)
Definition any_exn : exn -> Prop := fun _ => True.
Definition no_exn : exn -> Prop := fun _ => False.

Fixpoint awaits {A : Type} (n : nat) (p : prog A) : Prop :=
  match p with
  | Ret _ | Raise _ => True
  | GetEnv k => forall v, awaits n (k v)
  | Console _ k => awaits n k
  | Now k => forall t, awaits n (k t)
  | Fetch _ _ k =>
      match n with
      | O => False
      | S n' => forall r, awaits n' (k r)
      end
  end.

(** A task between two rounds of the event loop has returned, has thrown
    or waits for a request. *)
Definition parked {A : Type} (p : prog A) : Prop :=
  match p with
  | Ret _ | Raise _ | Fetch _ _ _ => True
  | _ => False
  end.

(** The run of [p] followed, on a result, by [f], and the run of [p]
    followed, on an exception, by [h]. *)
Definition and_then {W A B : Type} (r : ran W (outcome A))
  (f : A -> W -> ran W (outcome B)) : ran W (outcome B) :=
  match value r with
  | Ok a =>
      let r' := f a (final r) in
      mkRan (value r') (trace r ++ trace r') (final r')
  | Throw e => mkRan (Throw e) (trace r) (final r)
  end.

Definition or_catch {W A : Type} (r : ran W (outcome A))
  (h : exn -> W -> ran W (outcome A)) : ran W (outcome A) :=
  match value r with
  | Ok a => r
  | Throw e =>
      let r' := h e (final r) in
      mkRan (value r') (trace r ++ trace r') (final r')
  end.

(** ** The stages of [searchWeb] and their envelopes *)

(** The second stage of [searchWeb]: the second [try] and its [catch]. *)
Definition markup_stage (fault : fault_oracle) (query : jsstring) (limit : Z)
  : prog SearchEnvelope :=
  try_catch (searchDuckDuckGo fault query limit) (search_failed query).

(** The markup stage, once its response is there. *)
Definition markup_rest (fault : fault_oracle) (q : jsstring) (limit : Z)
  (answer : outcome Response) : prog SearchEnvelope :=
  try_catch
    (response <- lift answer ;;
     (if negb (ok response)
      then Raise (Error (lit "Search failed: " ++ statusText response))
      else Ret tt) ;;;
     html <- lift (text response) ;;
     let '(results, logged) := parseDuckDuckGoResults fault html limit in
     console_all logged ;;;
     timestamp <- now ;;
     Ret (mkEnvelope q results (length results) None timestamp duckduckgo))
    (search_failed q).

(** The console line of the first [catch] of [searchWeb]. *)
Definition fallback_warning (e : exn) : console_entry :=
  mkEntry level_warn
    (lit "Perplexity search failed, falling back to DuckDuckGo:") (message e).

(** An envelope of the API adapter, of a markup response, of a failure. *)
Definition api_envelope (q : jsstring) (env : SearchEnvelope) : Prop :=
  query env = q /\ total env = length (results env)
  /\ source env = perplexity /\ error env = None.

Definition markup_envelope (q : jsstring) (env : SearchEnvelope) : Prop :=
  query env = q /\ total env = length (results env)
  /\ source env = duckduckgo /\ error env = None.

Definition failure_envelope (q : jsstring) (env : SearchEnvelope) : Prop :=
  query env = q /\ total env = 0 /\ results env = []
  /\ source env = none /\ error env <> None.

(** The invariant of the envelopes of [searchWeb]. *)
Definition well_formed (q : jsstring) (env : SearchEnvelope) : Prop :=
  api_envelope q env \/ markup_envelope q env \/ failure_envelope q env.

(** ** Events *)

(** A read of the credential; a request to the API; any request; a
    request without a method, as the markup stage and [fetchWebPage] send
    them and the API adapter does not. *)
Definition is_env_read (ev : event) : bool :=
  match ev with EvEnv _ => true | _ => false end.

Definition is_api_request (ev : event) : bool :=
  match ev with EvFetch u _ _ => str_eqb u apiUrl | _ => false end.

Definition is_fetch (ev : event) : bool :=
  match ev with EvFetch _ _ _ => true | _ => false end.

Definition without_method (ev : event) : bool :=
  match ev with
  | EvFetch _ init _ => match method init with None => true | Some _ => false end
  | _ => false
  end.

(** After its request, the markup stage only writes to the console and
    reads the clock. *)
Definition quiet (ev : event) : Prop := is_fetch ev = false /\ is_env_read ev = false.

(** ** The enrichment stage *)




(** ** Pools of tasks

    What holds of each task of a pool: its goal [Q], which depends on the
    position, and the requests it may still wait for. *)

(** A task is between two rounds and will return a result in [Q x]. *)
Definition task_ok (A I : Type) (Q : I -> A -> Prop) (x : I) (p : prog A)
  : Prop :=
  parked p /\ wp (Q x) no_exn p.

(** Task [i] waits for at most [budget i] more requests. *)
Definition within (A : Type) (budget : nat -> nat) (pool : list (prog A))
  : Prop :=
  forall i p, nth_error pool i = Some p -> awaits (budget i) p.

(** The pool after the requests have completed in the order [schedule]. *)
Definition run_schedule (W : Type) (P : Platform W) (A : Type)
  (schedule : list nat) (pool : ran W (list (prog A)))
  : ran W (list (prog A)) :=
  fold_left (fun pool i => step P i pool) schedule pool.

(** ** Inputs and platforms of the examples *)

(** Two result links, the second without a title, and one snippet. *)
Definition sample_page : jsstring :=
  lit "<a rel=x class=" ++ [quot] ++ lit "r result__a big" ++ [quot]
  ++ lit " href=" ++ [quot] ++ lit "https://ex.org/p?x=1&y=2" ++ [quot]
  ++ lit "> T1 </a>"
  ++ lit "<A class=" ++ [quot] ++ lit "result__snippet" ++ [quot]
  ++ lit ">snip one</a>"
  ++ lit "<a class=" ++ [quot] ++ lit "result__a" ++ [quot]
  ++ lit " href=" ++ [quot] ++ lit "https://duckduckgo.com/y" ++ [quot]
  ++ lit ">T2</a>"
  ++ lit "<a class=" ++ [quot] ++ lit "result__a" ++ [quot]
  ++ lit " href=" ++ [quot] ++ lit "http://b.org/" ++ [quot] ++ lit "></a>".

(** Two plain anchors, no result link. *)
Definition plain_page : jsstring :=
  lit "<a href=" ++ [quot] ++ lit "https://ex.org/p?x=1&y=2" ++ [quot]
  ++ lit "> T1 </a>"
  ++ lit "<a href=" ++ [quot] ++ lit "http://b.org/" ++ [quot] ++ lit ">B</a>".

(** A page without anchors. *)
Definition empty_page : jsstring := lit "<html><body>No results.</body></html>".

(** The text of the citation example of the specification. *)
Definition citation_example : jsstring :=
  lit "[1] Example Site https://example.com more info [2] Other https://other.com data".

(** The engine gives up on the first call. *)
Definition fault_at_start : fault_oracle :=
  fun _ _ lastIndex =>
    if Nat.eqb lastIndex 0 then Some (Error (lit "Maximum call stack size exceeded"))
    else None.

(** A platform that answers the [n]-th request with the [n]-th entry of a
    script (a network error once the script is used up); its state counts
    the requests. *)
Definition scripted (key : option jsstring) (answers : list (outcome Response))
  : Platform nat :=
  mkPlatform
    (fun n => (key, n))
    (fun _ _ n => (nth n answers (Throw (Error (lit "fetch failed"))), S n))
    (fun n => (lit "2025-11-01T00:00:00.000Z", n)).

(** A response with a success status and an HTML body. *)
Definition page (body : jsstring) : outcome Response :=
  Ok (mkResponse true (lit "OK") (Ok body)
        (Throw (Error (lit "Unexpected token < in JSON")))).

(** [{}] *)
Definition no_options : SearchOptions := mkOptions None None.

(** A credential is set, the API answers 503, the markup provider
    answers. *)
Definition api_down : Platform nat :=
  scripted (Some (lit "pplx-key"))
    [ Ok (mkResponse false (lit "Service Unavailable") (Ok (lit "try later"))
            (Throw (Error (lit "Unexpected token t in JSON"))));
      page plain_page ].

(** No credential; the search succeeds, the first page fetch times out,
    the second succeeds. *)
Definition first_page_times_out : Platform nat :=
  scripted None
    [ page plain_page;
      Throw (Error (lit "The operation was aborted due to timeout"));
      page plain_page ].

(** No credential; two searches succeed. *)
Definition two_pages : Platform nat :=
  scripted None [page plain_page; page sample_page].

(** An answer of the API without citations, and a platform with a
    credential whose API gives this answer. *)
Definition no_citations : Response :=
  mkResponse true (lit "OK") (Ok (lit "{...}"))
    (Ok (JObj [ (lit "choices",
                 JArr [ JObj [ (lit "message",
                                JObj [ (lit "content",
                                        JStr (lit "Nothing found.")) ]) ] ]) ])).

Definition api_silent : Platform nat :=
  scripted (Some (lit "pplx-key")) [Ok no_citations].

(** An answer of the API whose content is an object with a key
    [toString], which no text can be made of, and a platform with a
    credential whose API gives this answer; the markup provider answers. *)
Definition unprintable : Response :=
  mkResponse true (lit "OK") (Ok (lit "{...}"))
    (Ok (JObj [ (lit "choices",
                 JArr [ JObj [ (lit "message",
                                JObj [ (lit "content",
                                        JObj [ (lit "toString",
                                                JNum (lit "1")) ]) ]) ] ]) ])).

Definition api_unprintable : Platform nat :=
  scripted (Some (lit "pplx-key")) [Ok unprintable; page plain_page].

(** ** Notions of the further properties *)

(** The text before the first [c]: [s.split(c)[0]] for a separator of one
    character. *)
Fixpoint before (c : char) (s : jsstring) : jsstring :=
  match s with
  | [] => []
  | x :: s' => if char_eqb c x then [] else x :: before c s'
  end.

(** [p] is the beginning of [s]. *)
Definition is_prefix (p s : jsstring) : Prop := exists t, s = p ++ t.

(** A text in which the character [c] does not occur. *)
Definition free_of (c : char) (s : jsstring) : Prop :=
  Forall (fun x => char_eqb c x = false) s.

(** What a pattern matches, declaratively: [lang ic r w rest] says that
    [r] can consume [w] when [rest] follows ([rest] matters to a
    lookahead and to [$]); [group_lang ic r n t] says that [t] is a text
    that the capture group [n] of [r] can consume. *)
Fixpoint lang (ic : bool) (r : regex) (w rest : jsstring) : Prop :=
  match r with
  | REmpty => w = []
  | RAtom a => exists c, w = [c] /\ atom_matches ic a c = true
  | RSeq r1 r2 =>
      exists w1 w2,
        w = w1 ++ w2 /\ lang ic r1 w1 (w2 ++ rest) /\ lang ic r2 w2 rest
  | RAlt r1 r2 => lang ic r1 w rest \/ lang ic r2 w rest
  | RStar _ a => Forall (fun c => atom_matches ic a c = true) w
  | RPlus _ a => w <> [] /\ Forall (fun c => atom_matches ic a c = true) w
  | ROpt a => w = [] \/ exists c, w = [c] /\ atom_matches ic a c = true
  | RGroup _ r' => lang ic r' w rest
  | RLookahead r' =>
      w = [] /\ exists w' rest', rest = w' ++ rest' /\ lang ic r' w' rest'
  | REnd => w = [] /\ rest = []
  end.

Fixpoint group_lang (ic : bool) (r : regex) (n : nat) (t : jsstring) : Prop :=
  match r with
  | RSeq r1 r2 | RAlt r1 r2 => group_lang ic r1 n t \/ group_lang ic r2 n t
  | RGroup m r' => (m = n /\ exists rest, lang ic r' t rest) \/ group_lang ic r' n t
  | RLookahead r' => group_lang ic r' n t
  | _ => False
  end.

(** The captures [caps'] are those of [caps] and texts of groups of [r]. *)
Definition captured (ic : bool) (r : regex) (caps caps' : captures) : Prop :=
  forall n t, In (n, t) caps' -> In (n, t) caps \/ group_lang ic r n t.

(** [k] is reached after [r] has consumed some [w] of [s]. *)
Definition consumes (ic : bool) (r : regex) (s : jsstring) (caps : captures)
  (k : cont) (res : jsstring * captures) : Prop :=
  exists w rest caps',
    s = w ++ rest /\ lang ic r w rest /\ k rest caps' = Some res
    /\ captured ic r caps caps'.

(** [t] occurs in [s]. *)
Definition infix (t s : jsstring) : Prop := exists a b, s = a ++ t ++ b.

(** The groups that take part in every match of a pattern: those that
    are not under an alternative. *)
Fixpoint spine (r : regex) : list nat :=
  match r with
  | RSeq r1 r2 => spine r1 ++ spine r2
  | RGroup n r' => n :: spine r'
  | RLookahead r' => spine r'
  | _ => []
  end.

(** [m] is a match of [re] somewhere in [s]. *)
Definition matched_by (re : RegExp) (s : jsstring) (m : MatchResult) : Prop :=
  exists pre rest,
    s = pre ++ m0 m ++ rest
    /\ lang (ignoreCase re) (Regex.source re) (m0 m) rest
    /\ (forall n t, In (n, t) (groups m) ->
                    group_lang (ignoreCase re) (Regex.source re) n t)
    /\ (forall n, In n (spine (Regex.source re)) ->
                  capture n (groups m) <> None)
    /\ (forall n t, In (n, t) (groups m) -> infix t s).

(** The atom with which every match of a pattern begins, when the shape
    of the pattern shows one. *)
Fixpoint first_atom (r : regex) : option atom :=
  match r with
  | RAtom a | RPlus _ a => Some a
  | RSeq r1 _ => first_atom r1
  | RGroup _ r' => first_atom r'
  | _ => None
  end.

(** The results of the citation extractor are numbered from 1 and each
    has a title, a bounded snippet and an address of the shape that
    [urlRegex] matches. *)
Definition http_url (u : jsstring) : Prop :=
  (startsWith (lit "http://") u || startsWith (lit "https://") u) = true
  /\ Forall (fun c => is_space c = false) u
  /\ free_of (chr ")") u.

Definition citation_ok (r : SearchResult) : Prop :=
  title r <> [] /\ (Z.of_nat (length (snippet r)) <= 200)%Z /\ http_url (url r).

Definition citation_inv (limit : Z) (st : nat * list SearchResult) : Prop :=
  fst st = S (length (snd st))
  /\ (Z.of_nat (length (snd st)) <= Z.max 0 limit)%Z
  /\ map rank (snd st) = List.seq 1 (length (snd st))
  /\ Forall citation_ok (snd st).

(** A text as the scans of the HTML extractor keep it: without [<] and
    trimmed. *)
Definition plain_text (s : jsstring) : Prop :=
  free_of (chr "<") s /\ trim s = s.

(** The condition of a loop that collects at most [cap] items: the items
    of a state are [proj st]. *)
Definition under {St A : Type} (proj : St -> list A) (cap : Z) (st : St)
  : bool :=
  Z.ltb (Z.of_nat (length (proj st))) cap.

(** A result list as both extractors make it for a limit [cap]: at most
    [cap] results, ranked 1, 2, ... in this order, each with a title and
    a snippet of at most 300 code units. *)
Definition listed (cap : Z) (rs : list SearchResult) : Prop :=
  (Z.of_nat (length rs) <= Z.max 0 cap)%Z
  /\ map rank rs = List.seq 1 (length rs)
  /\ Forall (fun r => title r <> [] /\ length (snippet r) <= 300) rs.

(** ** The requests of [searchWeb]

    A request as the API adapter sends it when it has read the credential
    [key], and a request as the markup stage sends it. *)
Definition sent_to_api (key : option jsstring) (q : jsstring) (limit : Z)
  (u : jsstring) (i : RequestInit) : Prop :=
  u = apiUrl
  /\ exists k, key = Some k /\ truthy k = true /\ i = perplexity_init k q limit.

Definition sent_to_markup (q : jsstring) (u : jsstring) (i : RequestInit)
  : Prop :=
  exists encoded,
    encodeURIComponent q = Ok encoded
    /\ u = searchUrlPrefix ++ encoded /\ i = duckduckgo_init.

(** Every request of a trace satisfies [R]. *)
Definition requests (R : jsstring -> RequestInit -> Prop) (l : list event)
  : Prop :=
  Forall (fun ev => match ev with EvFetch u i _ => R u i | _ => True end) l.

(** What the answer to the markup request makes of the envelope: a
    rejected request, a status that is not a success, a body that cannot
    be read, a body. *)
Definition markup_verdict (fault : fault_oracle) (limit : Z)
  (answer : outcome Response) (env : SearchEnvelope) : Prop :=
  match answer with
  | Throw e => source env = none /\ error env = Some (message e)
  | Ok response =>
      if ok response then
        match text response with
        | Ok html =>
            source env = duckduckgo /\ error env = None
            /\ results env = fst (parseDuckDuckGoResults fault html limit)
        | Throw e => source env = none /\ error env = Some (message e)
        end
      else
        source env = none
        /\ error env = Some (lit "Search failed: " ++ statusText response)
  end.

(** What the API adapter makes of the answer to its request: the results
    it returns, or the exception it throws. *)
Definition api_outcome (fault : fault_oracle) (limit : Z)
  (answer : outcome Response) : outcome (list SearchResult) :=
  match answer with
  | Throw e => Throw e
  | Ok response =>
      if ok response then
        match json_body response with
        | Throw e => Throw e
        | Ok data =>
            match content_of data with
            | Throw e => Throw e
            | Ok content => parsePerplexityResults fault content limit
            end
        end
      else
        match text response with
        | Throw e => Throw e
        | Ok errorText =>
            Throw (Error (lit "Perplexity API error: " ++ statusText response
                          ++ lit " - " ++ errorText))
        end
  end.

(** What each envelope of a batch satisfies. *)
Definition batch_entry (limit : Z) (q : jsstring) (env : SearchEnvelope)
  : Prop :=
  well_formed q env /\ listed limit (results env).

(** ** Pages

    The text that [fetchWebPage] makes of a body, and what it makes of
    the answer to its request. *)
Definition page_text (html : jsstring) : jsstring :=
  substring0 10000
    (trim
       (replace_g spaceRegex (lit " ")
          (replace_g tagRegex (lit " ")
             (replace_g styleRegex []
                (replace_g scriptRegex [] html))))).

Definition fetch_error (u cause : jsstring) : exn :=
  Error (lit "Failed to fetch " ++ u ++ lit ": " ++ cause).

Definition page_outcome (u : jsstring) (answer : outcome Response)
  : outcome jsstring :=
  match answer with
  | Throw e => Throw (fetch_error u (message e))
  | Ok response =>
      if ok response then
        match text response with
        | Ok html => Ok (page_text html)
        | Throw e => Throw (fetch_error u (message e))
        end
      else
        Throw (fetch_error u (lit "Failed to fetch: " ++ statusText response))
  end.



(** A text in which white space only occurs as single spaces. *)
Fixpoint single_spaced (s : jsstring) : Prop :=
  match s with
  | [] => True
  | c :: s' =>
      (is_space c = true ->
       c = chr " "
       /\ match s' with [] => True | d :: _ => is_space d = false end)
      /\ single_spaced s'
  end.

(** A character that may stand in a query string without ending it or
    starting a new parameter: an unreserved one or the percent sign. *)
Definition url_safe (c : char) : Prop := uri_unreserved c = true \/ c = chr "%".

(** [stamped ts p]: whenever [p] returns, the last thing it did was to
    read the clock, and [ts] of its result is what it read. *)
Fixpoint stamped {A : Type} (ts : A -> jsstring) (p : prog A) : Prop :=
  match p with
  | Ret _ => False
  | Raise _ => True
  | GetEnv k => forall v, stamped ts (k v)
  | Fetch _ _ k => forall r, stamped ts (k r)
  | Console _ k => stamped ts k
  | Now k => forall t, (exists a, k t = Ret a /\ ts a = t) \/ stamped ts (k t)
  end.

(** ** The requests of a batch *)




(** The lower-case form of an ASCII letter, other code units unchanged. *)
Definition lower (c : char) : char :=
  if in_range 65%N 90%N c then (c + 32)%N else c.

(** A result whose address, title and snippet are taken from the text
    [doc]; the title may be the default one. *)
Definition taken_from (doc : jsstring) (r : SearchResult) : Prop :=
  infix (url r) doc
  /\ (infix (title r) doc \/ title r = result_n (rank r))
  /\ infix (snippet r) doc.

(** * Properties *)

(** ** The final loop of the HTML extractor *)

Lemma combine_fold (links : list Link.t) (snippets : list jsstring)
  (l : list nat) (results : list SearchResult) :
  fold_left (combine_body links snippets) l results
  = results ++ map (combined links snippets) l.
Proof.
  revert results; induction l as [|i l IH]; intros results; simpl.
  - now rewrite app_nil_r.
  - rewrite IH. unfold combine_body at 1. fold (combined links snippets i).
    now rewrite <- app_assoc.
Qed.

Lemma combine_spec (limit : Z) (links : list Link.t) (snippets : list jsstring) :
  combine limit links snippets []
  = map (combined links snippets) (List.seq 0 (rounds limit links)).
Proof. unfold combine. now rewrite combine_fold. Qed.

Lemma seq_shift_rank (f : nat -> SearchResult) (a n : nat) :
  (forall i, rank (f i) = i + 1) ->
  map rank (map f (List.seq a n)) = List.seq (a + 1) n.
Proof.
  intros Hf. revert a; induction n as [|n IH]; intros a; simpl; [reflexivity|].
  rewrite Hf. f_equal. apply (IH (S a)).
Qed.

Lemma substring0_length (n : Z) (s : jsstring) :
  (0 <= n)%Z -> (Z.of_nat (length (substring0 n s)) <= n)%Z.
Proof.
  intros Hn. unfold substring0.
  pose proof (firstn_le_length (Z.to_nat n) s). lia.
Qed.

(** What [parseDuckDuckGoResults] returns, by the way the scan ended. *)
Lemma parse_cases (fault : fault_oracle) (html : jsstring) (limit : Z) :
  (exists e, scan_candidates fault html limit = Throw e
             /\ fst (parseDuckDuckGoResults fault html limit) = [])
  \/ (exists links snippets,
        scan_candidates fault html limit = Ok (links, snippets)
        /\ fst (parseDuckDuckGoResults fault html limit)
           = map (combined links snippets) (List.seq 0 (rounds limit links))).
Proof.
  unfold parseDuckDuckGoResults.
  destruct (scan_candidates fault html limit) as [[links snippets]|e].
  - right. exists links, snippets. split; [reflexivity|]. simpl. apply combine_spec.
  - left. exists e. now split.
Qed.

Example sample_page_results :
  fst (parseDuckDuckGoResults no_fault sample_page 10)
  = [ mkResult (lit "T1") (lit "https://ex.org/p") (lit "snip one") 1;
      mkResult (lit "Result 2") (lit "http://b.org/") (lit "snip one") 2 ].
Proof. vm_compute. reflexivity. Qed.

Example plain_page_results :
  fst (parseDuckDuckGoResults no_fault plain_page 10)
  = [ mkResult (lit "T1") (lit "https://ex.org/p") [] 1;
      mkResult (lit "B") (lit "http://b.org/") [] 2 ].
Proof. vm_compute. reflexivity. Qed.

(** C1: for every HTML string and every limit L >= 1, the HTML extractor
    returns at most L results, and their ranks are 1, 2, ..., length in
    this order. *)
Theorem parseDuckDuckGoResults_length_rank
  (fault : fault_oracle) (html : jsstring) (L : Z) :
  (1 <= L)%Z ->
  let rs := fst (parseDuckDuckGoResults fault html L) in
  (Z.of_nat (length rs) <= L)%Z /\ map rank rs = List.seq 1 (length rs).
Proof.
  intros HL rs. subst rs.
  destruct (parse_cases fault html L) as [(e & _ & ->)|(links & snippets & _ & ->)].
  - simpl. split; [lia | reflexivity].
  - rewrite !length_map, length_seq. split.
    + unfold rounds. lia.
    + now apply (seq_shift_rank (combined links snippets) 0).
Qed.

Lemma parseDuckDuckGoResults_length_rank_witness :
  (1 <= 1)%Z
  /\ (let rs := fst (parseDuckDuckGoResults no_fault sample_page 1) in
      (Z.of_nat (length rs) <= 1)%Z /\ map rank rs = List.seq 1 (length rs)).
Proof.
  split; [lia|].
  apply (parseDuckDuckGoResults_length_rank no_fault sample_page 1). lia.
Defined.

(** C10: every result of the HTML extractor has a snippet of at most 300
    code units, for every HTML string and limit. *)
Theorem parseDuckDuckGoResults_snippet_bound
  (fault : fault_oracle) (html : jsstring) (limit : Z) :
  Forall (fun r => length (snippet r) <= 300)
    (fst (parseDuckDuckGoResults fault html limit)).
Proof.
  destruct (parse_cases fault html limit)
    as [(e & _ & ->)|(links & snippets & _ & ->)].
  - constructor.
  - apply Forall_forall. intros r Hr. apply in_map_iff in Hr.
    destruct Hr as (i & <- & _). unfold combined; simpl.
    pose proof (substring0_length 300 (snippet_for snippets i)). lia.
Qed.

(** An exception of a loop over [exec] is one that the engine threw on a
    call with the pattern and the input of the loop. *)
Lemma while_exec_from_throws (fault : fault_oracle) (St : Type) (re : RegExp)
  (s : jsstring) (cond : St -> bool) (body : MatchResult -> St -> St)
  (fuel : nat) :
  forall (lastIndex : nat) (st : St) (e : exn),
    while_exec_from fault re s cond body fuel lastIndex st = Throw e ->
    exists idx, fault re s idx = Some e.
Proof.
  induction fuel as [|fuel IH]; intros lastIndex st e; simpl; [discriminate|].
  destruct (fault re s lastIndex) as [e'|] eqn:Ef.
  - intros [= <-]. now exists lastIndex.
  - destruct (exec re s lastIndex) as [[m lastIndex']|]; [|discriminate].
    destruct (cond st); [apply IH|discriminate].
Qed.

Lemma scan_candidates_throws (fault : fault_oracle) (html : jsstring)
  (limit : Z) (e : exn) :
  scan_candidates fault html limit = Throw e ->
  exists re idx, fault re html idx = Some e.
Proof.
  unfold scan_candidates, primary_links, snippet_texts, fallback_links, while_exec.
  destruct (while_exec_from fault modernRegex html _ modern_body _ 0 [])
    as [links|e1] eqn:E1.
  2: { intros [= <-]. apply while_exec_from_throws in E1.
       destruct E1 as (idx & H). now exists modernRegex, idx. }
  destruct (while_exec_from fault snippetRegex html _ snippet_body _ 0 [])
    as [snippets|e2] eqn:E2.
  2: { intros [= <-]. apply while_exec_from_throws in E2.
       destruct E2 as (idx & H). now exists snippetRegex, idx. }
  destruct (Nat.eqb (length links) 0); [|discriminate].
  destruct (while_exec_from fault genericLinkRegex html _ generic_body _ 0 links)
    as [links'|e3] eqn:E3; [discriminate|].
  intros [= <-]. apply while_exec_from_throws in E3.
  destruct E3 as (idx & H). now exists genericLinkRegex, idx.
Qed.

(** The final loop only pushes. *)
Lemma for_each_push (f : nat -> SearchResult) (l : list nat) :
  forall st,
    Statements.for_each l (fun i => Statements.push (f i)) st
    = (Ok tt,
       Statements.mkStore (Statements.st_results st ++ map f l)
         (Statements.st_console st)).
Proof.
  induction l as [|i l IH]; intros [rs log]; cbn [Statements.for_each map].
  - unfold Statements.ret. cbn. now rewrite app_nil_r.
  - unfold Statements.bind, Statements.push at 1. cbn. rewrite IH. cbn.
    now rewrite <- app_assoc.
Qed.

(** The [try] block throws what the scans throw, before it has written
    to [results], and otherwise pushes the results of the final loop. *)
Lemma try_block_runs (fault : fault_oracle) (html : jsstring) (limit : Z)
  (st : Statements.Store) :
  Statements.try_block fault html limit st
  = match scan_candidates fault html limit with
    | Ok (links, snippets) =>
        (Ok tt,
         Statements.mkStore
           (Statements.st_results st
            ++ map (combined links snippets) (List.seq 0 (rounds limit links)))
           (Statements.st_console st))
    | Throw e => (Throw e, st)
    end.
Proof.
  unfold Statements.try_block, scan_candidates, Statements.bind, Statements.eval.
  destruct (primary_links fault html limit) as [links0|e]; [|reflexivity].
  destruct (snippet_texts fault html limit) as [snippets|e]; [|reflexivity].
  destruct (Nat.eqb (length links0) 0).
  - destruct (fallback_links fault html limit links0) as [links|e]; [|reflexivity].
    apply (for_each_push (combined links snippets)).
  - unfold Statements.ret. apply (for_each_push (combined links0 snippets)).
Qed.

(** C3: the HTML extractor never throws.  Run statement by statement, from
    any store, it returns the array [results], and what it returns and
    writes to the console is what [parseDuckDuckGoResults] gives: either
    nothing is written, or the engine has thrown, the result is the empty
    list and the exception is written to the console.  When the [try]
    block throws (it does when the engine throws on the first call, and
    its exceptions are those of the engine), the exception is caught
    while the array is still empty: the extractor returns the empty
    list, and the exception goes to the console and nowhere else. *)
Theorem parseDuckDuckGoResults_catches
  (fault : fault_oracle) (html : jsstring) (limit : Z)
  (st : Statements.Store) :
  exists rs logged,
    Statements.parseDuckDuckGoResults fault html limit st
    = (Ok rs, Statements.mkStore rs (Statements.st_console st ++ logged))
    /\ (rs, logged) = parseDuckDuckGoResults fault html limit
    /\ (logged = []
        \/ exists e re idx,
             fault re html idx = Some e /\ rs = []
             /\ logged = [mkEntry level_error
                            (lit "Error parsing search results:") (message e)])
    /\ (forall e st',
          Statements.try_block fault html limit
            (Statements.mkStore [] (Statements.st_console st))
          = (Throw e, st') ->
          rs = []
          /\ logged = [mkEntry level_error (lit "Error parsing search results:")
                         (message e)]
          /\ exists re idx, fault re html idx = Some e)
    /\ (forall e,
          fault modernRegex html 0 = Some e ->
          Statements.try_block fault html limit
            (Statements.mkStore [] (Statements.st_console st))
          = (Throw e, Statements.mkStore [] (Statements.st_console st))).
Proof.
  destruct st as [old console]. cbn [Statements.st_console].
  unfold Statements.parseDuckDuckGoResults, parseDuckDuckGoResults.
  unfold Statements.bind at 1, Statements.new_results.
  cbn [Statements.st_console].
  unfold Statements.bind, Statements.try_catch.
  rewrite try_block_runs. cbn [Statements.st_results Statements.st_console].
  destruct (scan_candidates fault html limit) as [[links snippets]|e] eqn:E.
  - exists (map (combined links snippets) (List.seq 0 (rounds limit links))), [].
    unfold Statements.return_results. cbn. rewrite app_nil_r.
    split; [reflexivity|]. split; [now rewrite combine_spec|].
    split; [now left|]. split; [discriminate|].
    intros e He. exfalso. revert E. unfold scan_candidates, primary_links, while_exec.
    cbn [while_exec_from]. rewrite He. discriminate.
  - exists [], [mkEntry level_error (lit "Error parsing search results:") (message e)].
    unfold Statements.catch_block, Statements.console_error,
      Statements.return_results. cbn.
    split; [reflexivity|]. split; [reflexivity|].
    destruct (scan_candidates_throws fault html limit e E) as (re & idx & Hf).
    split; [right; now exists e, re, idx|]. split.
    + intros e' st' [= <- _]. split; [reflexivity|]. split; [reflexivity|].
      now exists re, idx.
    + intros e' He. revert E. unfold scan_candidates, primary_links, while_exec.
      cbn [while_exec_from]. rewrite He. now intros [= <-].
Qed.

Lemma parseDuckDuckGoResults_catches_witness :
  Statements.parseDuckDuckGoResults fault_at_start sample_page 10
    (Statements.mkStore [] [])
  = (Ok [],
     Statements.mkStore []
       [mkEntry level_error (lit "Error parsing search results:")
          (lit "Maximum call stack size exceeded")])
  /\ fst (parseDuckDuckGoResults fault_at_start sample_page 10) = []
  /\ fst (parseDuckDuckGoResults no_fault sample_page 10) <> [].
Proof.
  destruct (parseDuckDuckGoResults_catches fault_at_start sample_page 10
              (Statements.mkStore [] []))
    as (rs & logged & Hrun & Hval & _ & Hcatch & Hfirst).
  destruct (Hcatch _ _
              (Hfirst (Error (lit "Maximum call stack size exceeded")) eq_refl))
    as (Hrs & Hlog & _).
  subst rs logged. split; [exact Hrun|]. split.
  - now rewrite <- Hval.
  - vm_compute. discriminate.
Defined.

(** ** Loops over [exec]: invariants *)

Section WhileInvariant.
Variable fault : fault_oracle.
Variable St : Type.
Variable re : RegExp.
Variable s : jsstring.
Variable cond : St -> bool.
Variable body : MatchResult -> St -> St.
Variable Inv : St -> Prop.
Hypothesis body_keeps : forall m st, Inv st -> cond st = true -> Inv (body m st).

Lemma while_exec_from_inv (fuel lastIndex : nat) (st st' : St) :
  Inv st ->
  while_exec_from fault re s cond body fuel lastIndex st = Ok st' ->
  Inv st'.
Proof.
  revert lastIndex st. induction fuel as [|fuel IH]; intros lastIndex st Hst; simpl.
  - intros [= <-]. exact Hst.
  - destruct (fault re s lastIndex); [discriminate|].
    destruct (exec re s lastIndex) as [[m lastIndex']|].
    + destruct (cond st) eqn:Hc.
      * apply IH. now apply body_keeps.
      * intros [= <-]. exact Hst.
    + intros [= <-]. exact Hst.
Qed.

Lemma while_exec_inv (st st' : St) :
  Inv st -> while_exec fault re s cond body st = Ok st' -> Inv st'.
Proof. apply while_exec_from_inv. Qed.
End WhileInvariant.

Lemma generic_body_cap (limit : Z) (m : MatchResult) (links : list Link.t) :
  within_cap limit links -> below_cap limit links = true ->
  within_cap limit (generic_body m links).
Proof.
  unfold within_cap, below_cap, generic_body. intros H Hc.
  apply Z.ltb_lt in Hc.
  destruct (_ && _); [rewrite length_app; simpl|]; lia.
Qed.

Lemma generic_body_off_provider (m : MatchResult) (links : list Link.t) :
  Forall off_provider links -> Forall off_provider (generic_body m links).
Proof.
  unfold generic_body. intros H.
  destruct (includes (lit "duckduckgo.com") (group 1 m)) eqn:Hd; simpl; [exact H|].
  destruct (negb _); [|exact H].
  apply Forall_app. split; [exact H|]. repeat constructor. exact Hd.
Qed.

Lemma fallback_links_cap (fault : fault_oracle) (html : jsstring) (limit : Z)
  (links : list Link.t) :
  fallback_links fault html limit [] = Ok links ->
  within_cap limit links /\ Forall off_provider links.
Proof.
  intros H. split.
  - revert H. apply while_exec_inv.
    + intros m st. apply generic_body_cap.
    + unfold within_cap. simpl. lia.
  - revert H. apply while_exec_inv.
    + intros m st Hst _. now apply generic_body_off_provider.
    + constructor.
Qed.

Lemma generic_body_no_script (m : MatchResult) (links : list Link.t) :
  Forall (fun l => includes (lit "javascript:") (Link.url l) = false) links ->
  Forall (fun l => includes (lit "javascript:") (Link.url l) = false)
    (generic_body m links).
Proof.
  unfold generic_body. intros H.
  destruct (negb (includes (lit "duckduckgo.com") (group 1 m))); simpl;
    [|exact H].
  destruct (includes (lit "javascript:") (group 1 m)) eqn:Hj; simpl; [exact H|].
  apply Forall_app. split; [exact H|]. repeat constructor. exact Hj.
Qed.

Lemma fallback_links_no_script (fault : fault_oracle) (html : jsstring)
  (limit : Z) (links : list Link.t) :
  fallback_links fault html limit [] = Ok links ->
  Forall (fun l => includes (lit "javascript:") (Link.url l) = false) links.
Proof.
  apply while_exec_inv; [|constructor].
  intros m st Hst _. now apply generic_body_no_script.
Qed.

Lemma nth_error_map_seq {A : Type} (f : nat -> A) (n i : nat) :
  i < n -> nth_error (map f (List.seq 0 n)) i = Some (f i).
Proof.
  assert (H : forall a, i < n ->
                        nth_error (map f (List.seq a n)) i = Some (f (a + i))).
  { revert i. induction n as [|n IH]; intros i a Hi; [lia|].
    destruct i as [|i]; simpl.
    - now rewrite Nat.add_0_r.
    - rewrite IH by lia. f_equal. f_equal. lia. }
  apply (H 0).
Qed.

(** C7: when the primary strategy yields no link, the fallback strategy is
    run, and what the extractor returns is made of the links of the
    fallback, in their order: one result for each of the first [limit]
    links, with the title of the link (the default title when it is
    empty), its address cut before the first ampersand and question
    mark, the snippet of its position and its position plus one as rank;
    no result when the fallback finds no link or is aborted.  The
    fallback collects at most 2 * limit links, none to the domain of the
    provider and none with the script protocol. *)
Theorem fallback_when_primary_empty
  (fault : fault_oracle) (html : jsstring) (limit : Z)
  (snippets : list jsstring) :
  primary_links fault html limit = Ok [] ->
  snippet_texts fault html limit = Ok snippets ->
  match fallback_links fault html limit [] with
  | Throw _ => fst (parseDuckDuckGoResults fault html limit) = []
  | Ok links =>
      length (fst (parseDuckDuckGoResults fault html limit))
      = Z.to_nat (Z.min (Z.of_nat (length links)) limit)
      /\ (forall i link,
            nth_error links i = Some link -> (Z.of_nat i < limit)%Z ->
            nth_error (fst (parseDuckDuckGoResults fault html limit)) i
            = Some (mkResult (or_else (Link.title link) (result_n (i + 1)))
                      (nth 0 (split (lit "?")
                                (nth 0 (split (lit "&") (Link.url link)) [])) [])
                      (substring0 300
                         (or_else (nth i snippets [])
                            (or_else
                               match i with
                               | O => []
                               | S j => nth j snippets []
                               end [])))
                      (i + 1)))
      /\ (links = [] -> fst (parseDuckDuckGoResults fault html limit) = [])
      /\ ((0 <= limit)%Z -> (Z.of_nat (length links) <= 2 * limit)%Z)
      /\ Forall (fun l =>
                   includes (lit "duckduckgo.com") (Link.url l) = false
                   /\ includes (lit "javascript:") (Link.url l) = false) links
  end.
Proof.
  intros Hp Hs.
  assert (Hr : fst (parseDuckDuckGoResults fault html limit)
               = match fallback_links fault html limit [] with
                 | Ok links =>
                     map (combined links snippets)
                       (List.seq 0 (rounds limit links))
                 | Throw _ => []
                 end).
  { unfold parseDuckDuckGoResults, scan_candidates. rewrite Hp, Hs. simpl.
    destruct (fallback_links fault html limit []); [apply combine_spec|reflexivity]. }
  destruct (fallback_links fault html limit []) as [links|e] eqn:Ef; [|exact Hr].
  rewrite Hr. split; [|split; [|split; [|split]]].
  - now rewrite length_map, length_seq.
  - intros i link Hi Hlt.
    assert (Hlen : i < length links)
      by (apply nth_error_Some; rewrite Hi; discriminate).
    rewrite nth_error_map_seq by (unfold rounds; lia).
    f_equal. unfold combined, cleanUrl, snippet_for.
    now rewrite (nth_error_nth links i (Link.mk [] []) Hi).
  - intros ->. unfold rounds. cbn [length]. now destruct limit.
  - intros Hl. apply fallback_links_cap in Ef. destruct Ef as [H _].
    unfold within_cap in H. lia.
  - pose proof (fallback_links_no_script fault html limit links Ef) as Hj.
    apply fallback_links_cap in Ef. destruct Ef as [_ Hd].
    rewrite Forall_forall in *. intros l Hl. split; [apply Hd|apply Hj]; exact Hl.
Qed.

Lemma fallback_when_primary_empty_witness :
  primary_links no_fault plain_page 1 = Ok []
  /\ snippet_texts no_fault plain_page 1 = Ok []
  /\ fallback_links no_fault plain_page 1 []
     = Ok [ Link.mk (lit "https://ex.org/p?x=1&y=2") (lit "T1");
            Link.mk (lit "http://b.org/") (lit "B") ]
  /\ nth_error (fst (parseDuckDuckGoResults no_fault plain_page 1)) 0
     = Some (mkResult (lit "T1") (lit "https://ex.org/p") [] 1)
  /\ length (fst (parseDuckDuckGoResults no_fault plain_page 1)) = 1.
Proof.
  split; [reflexivity|]. split; [reflexivity|]. split; [reflexivity|].
  pose proof (fallback_when_primary_empty no_fault plain_page 1 []
                eq_refl eq_refl) as H.
  change (fallback_links no_fault plain_page 1 [])
    with (@Ok (list Link.t)
            [ Link.mk (lit "https://ex.org/p?x=1&y=2") (lit "T1");
              Link.mk (lit "http://b.org/") (lit "B") ]) in H.
  destruct H as (Hlen & Hnth & _). split.
  - apply (Hnth 0 (Link.mk (lit "https://ex.org/p?x=1&y=2") (lit "T1")));
      [reflexivity|reflexivity].
  - exact Hlen.
Defined.

(** ** The citation extractor on the example of the specification *)

(** C9: on the text above and limit 10, citation extraction yields exactly
    two results: rank 1 with title Example Site, url https://example.com
    and a snippet starting with (in fact equal to) more info; rank 2 with
    title Other, url https://other.com and snippet data. *)
Theorem parsePerplexityResults_example :
  exists r1 r2,
    parsePerplexityResults no_fault citation_example 10 = Ok [r1; r2]
    /\ rank r1 = 1 /\ title r1 = lit "Example Site"
    /\ url r1 = lit "https://example.com"
    /\ startsWith (lit "more info") (snippet r1) = true
    /\ snippet r1 = lit "more info"
    /\ rank r2 = 2 /\ title r2 = lit "Other"
    /\ url r2 = lit "https://other.com"
    /\ snippet r2 = lit "data".
Proof.
  exists (mkResult (lit "Example Site") (lit "https://example.com")
            (lit "more info") 1),
         (mkResult (lit "Other") (lit "https://other.com") (lit "data") 2).
  repeat split; vm_compute; reflexivity.
Qed.

(** ** The matcher consumes input, and the loops have rounds enough *)

Lemma reaches_weaken (b : bool) (s : jsstring) (k : cont) res :
  reaches true s k res -> reaches b s k res.
Proof.
  intros (s' & caps' & Hk & Hle & Hlt). exists s', caps'. auto.
Qed.

Lemma reaches_here (s : jsstring) (caps : captures) (k : cont) res :
  k s caps = Some res -> reaches false s k res.
Proof.
  intros H. exists s, caps. split; [exact H|]. split; [lia|discriminate].
Qed.

Lemma reaches_tail (b : bool) (c : char) (s : jsstring) (k : cont) res :
  reaches b s k res -> reaches true (c :: s) k res.
Proof.
  intros (s' & caps' & Hk & Hle & _). exists s', caps'. simpl.
  split; [exact Hk|]. split; intros; lia.
Qed.

Lemma one_reaches (p : char -> bool) (s : jsstring) (caps : captures)
  (k : cont) res :
  one p s caps k = Some res -> reaches true s k res.
Proof.
  destruct s as [|c s]; simpl; [discriminate|].
  destruct (p c); [|discriminate].
  intros H. apply reaches_tail with (b := false). now apply reaches_here with caps.
Qed.

Lemma star_greedy_reaches (p : char -> bool) (s : jsstring) (caps : captures)
  (k : cont) res :
  star_greedy p s caps k = Some res -> reaches false s k res.
Proof.
  induction s as [|c s IH]; simpl.
  - apply reaches_here.
  - destruct (p c); [|apply reaches_here].
    destruct (star_greedy p s caps k) as [res'|] eqn:E.
    + intros [= <-]. apply reaches_weaken. apply reaches_tail with (b := false).
      now apply IH.
    + apply reaches_here.
Qed.

Lemma star_lazy_reaches (p : char -> bool) (s : jsstring) (caps : captures)
  (k : cont) res :
  star_lazy p s caps k = Some res -> reaches false s k res.
Proof.
  induction s as [|c s IH]; simpl.
  - destruct (k [] caps) eqn:E; [|discriminate].
    intros [= <-]. now apply reaches_here with caps.
  - destruct (k (c :: s) caps) eqn:E.
    + intros [= <-]. now apply reaches_here with caps.
    + destruct (p c); [|discriminate]. intros H.
      apply reaches_weaken. apply reaches_tail with (b := false). now apply IH.
Qed.

Lemma star_reaches (p : char -> bool) (g : bool) (s : jsstring)
  (caps : captures) (k : cont) res :
  star p g s caps k = Some res -> reaches false s k res.
Proof.
  destruct g; [apply star_greedy_reaches | apply star_lazy_reaches].
Qed.

Lemma reaches_compose (b1 b2 : bool) (s : jsstring) (k1 k : cont) res :
  reaches b1 s k1 res ->
  (forall s' caps', k1 s' caps' = Some res -> reaches b2 s' k res) ->
  reaches (b1 || b2) s k res.
Proof.
  intros (s1 & caps1 & H1 & Hle1 & Hlt1) Hk.
  destruct (Hk _ _ H1) as (s2 & caps2 & H2 & Hle2 & Hlt2).
  exists s2, caps2. split; [exact H2|]. split; [lia|].
  intros Hb. apply orb_true_iff in Hb. destruct Hb as [Hb|Hb].
  - specialize (Hlt1 Hb). lia.
  - specialize (Hlt2 Hb). lia.
Qed.

Lemma rmatch_reaches (ic : bool) (r : regex) :
  forall (s : jsstring) (caps : captures) (k : cont) res,
    rmatch ic r s caps k = Some res ->
    reaches (negb (nullable r)) s k res.
Proof.
  induction r as [|a|r1 IH1 r2 IH2|r1 IH1 r2 IH2|g a|g a|a|n r IH|r IH|];
    intros s caps k res; simpl.
  - apply reaches_here.
  - apply one_reaches.
  - intros H. apply IH1 in H. rewrite negb_andb.
    eapply reaches_compose; [exact H|]. intros s' caps'. apply IH2.
  - intros H. rewrite negb_orb.
    destruct (rmatch ic r1 s caps k) as [res'|] eqn:E.
    + injection H as <-. apply IH1 in E.
      destruct E as (s' & caps' & Hk & Hle & Hlt). exists s', caps'.
      split; [exact Hk|]. split; [exact Hle|]. intros Hb.
      apply andb_true_iff in Hb. apply Hlt, Hb.
    + apply IH2 in H.
      destruct H as (s' & caps' & Hk & Hle & Hlt). exists s', caps'.
      split; [exact Hk|]. split; [exact Hle|]. intros Hb.
      apply andb_true_iff in Hb. apply Hlt, Hb.
  - apply star_reaches.
  - intros H. apply one_reaches in H.
    apply (reaches_compose true false _ _ k res H).
    intros s' caps'. apply star_reaches.
  - destruct (one (atom_matches ic a) s caps k) as [res'|] eqn:E.
    + intros [= <-]. apply reaches_weaken. now apply one_reaches in E.
    + apply reaches_here.
  - intros H. apply IH in H.
    destruct H as (s' & caps' & Hk & Hle & Hlt).
    exists s', (set_capture n (firstn (length s - length s') s) caps'). auto.
  - destruct (rmatch ic r s caps _) as [[s1 caps1]|]; [|discriminate].
    apply reaches_here.
  - destruct s; [apply reaches_here | discriminate].
Qed.

Lemma match_here_consumes (re : RegExp) (s rest : jsstring) (caps : captures) :
  match_here re s = Some (rest, caps) ->
  length rest <= length s
  /\ (nullable (Regex.source re) = false -> length rest < length s).
Proof.
  unfold match_here. intros H. apply rmatch_reaches in H.
  destruct H as (s' & caps' & [= <- <-] & Hle & Hlt). split; [exact Hle|].
  intros Hn. apply Hlt. now rewrite Hn.
Qed.

Lemma search_bounds (re : RegExp) (s : jsstring) :
  forall (pos : nat) (m : MatchResult),
    search re pos s = Some m ->
    pos <= index m
    /\ index m + length (m0 m) <= pos + length s
    /\ (nullable (Regex.source re) = false -> 0 < length (m0 m)).
Proof.
  induction s as [|c s IH]; intros pos m; cbn [search].
  - destruct (match_here re []) as [[rest caps]|] eqn:E; [|discriminate].
    intros [= <-]. apply match_here_consumes in E.
    destruct E as [Hle Hlt]. simpl in *.
    repeat split; try lia. intros Hn. specialize (Hlt Hn). lia.
  - destruct (match_here re (c :: s)) as [[rest caps]|] eqn:E.
    + intros [= <-]. cbn [index m0]. apply match_here_consumes in E.
      destruct E as [Hle Hlt]. rewrite length_firstn. cbn [length] in *.
      destruct (length rest) as [|n]; repeat split; try lia;
        intros Hn; specialize (Hlt Hn); lia.
    + intros H. apply IH in H. destruct H as (H1 & H2 & H3). cbn [length].
      repeat split; [lia | lia | exact H3].
Qed.

Lemma exec_advances (re : RegExp) (s : jsstring) (lastIndex lastIndex' : nat)
  (m : MatchResult) :
  exec re s lastIndex = Some (m, lastIndex') ->
  lastIndex <= lastIndex' <= length s
  /\ (nullable (Regex.source re) = false -> lastIndex < lastIndex').
Proof.
  unfold exec. destruct (Nat.ltb (length s) lastIndex) eqn:Hl; [discriminate|].
  apply Nat.ltb_ge in Hl.
  destruct (search re lastIndex (skipn lastIndex s)) as [m'|] eqn:E; [|discriminate].
  intros [= <- <-]. apply search_bounds in E. rewrite length_skipn in E.
  destruct E as (H1 & H2 & H3). split; [lia|]. intros Hn. specialize (H3 Hn). lia.
Qed.

Section WhileFuel.
Variable fault : fault_oracle.
Variable St : Type.
Variable re : RegExp.
Variable s : jsstring.
Variable cond : St -> bool.
Variable body : MatchResult -> St -> St.
Hypothesis consuming : nullable (Regex.source re) = false.

(** Once the rounds cover the input that is left, more rounds change
    nothing. *)
Lemma while_exec_from_fuel (fuel fuel' lastIndex : nat) (st : St) :
  lastIndex <= length s ->
  length s < fuel + lastIndex ->
  length s < fuel' + lastIndex ->
  while_exec_from fault re s cond body fuel lastIndex st
  = while_exec_from fault re s cond body fuel' lastIndex st.
Proof.
  revert fuel' lastIndex st.
  induction fuel as [|fuel IH]; intros fuel' lastIndex st Hle Hf Hf'; [lia|].
  destruct fuel' as [|fuel']; [lia|]. simpl.
  destruct (fault re s lastIndex); [reflexivity|].
  destruct (exec re s lastIndex) as [[m lastIndex']|] eqn:E; [|reflexivity].
  destruct (cond st); [|reflexivity].
  apply exec_advances in E. destruct E as [Hb Hlt]. specialize (Hlt consuming).
  apply IH; lia.
Qed.

Lemma while_exec_fuel (fuel : nat) (st : St) :
  length s < fuel ->
  while_exec_from fault re s cond body fuel 0 st
  = while_exec fault re s cond body st.
Proof. intros H. unfold while_exec. apply while_exec_from_fuel; lia. Qed.
End WhileFuel.

(** The patterns the loops run cannot match the empty string. *)
Lemma loop_patterns_consume :
  nullable (Regex.source citationRegex) = false
  /\ nullable (Regex.source modernRegex) = false
  /\ nullable (Regex.source snippetRegex) = false
  /\ nullable (Regex.source genericLinkRegex) = false.
Proof. repeat split. Qed.

(** So the scans of both extractors are the same with any larger number
    of rounds. *)
Lemma scans_have_rounds_enough (fault : fault_oracle) (s : jsstring)
  (limit : Z) (fuel : nat) :
  length s < fuel ->
  while_exec_from fault citationRegex s
    (fun st => Z.ltb (Z.of_nat (length (snd st))) limit) citation_body fuel 0
    (1, [])
  = while_exec fault citationRegex s
      (fun st => Z.ltb (Z.of_nat (length (snd st))) limit) citation_body (1, [])
  /\ while_exec_from fault modernRegex s (below_cap limit) modern_body fuel 0 []
     = primary_links fault s limit
  /\ while_exec_from fault snippetRegex s (below_cap limit) snippet_body fuel 0 []
     = snippet_texts fault s limit
  /\ while_exec_from fault genericLinkRegex s (below_cap limit) generic_body
       fuel 0 []
     = fallback_links fault s limit [].
Proof.
  intros H. repeat split; apply while_exec_fuel; auto.
Qed.

(** An engine that never gives up makes no scan throw. *)
Lemma while_exec_no_fault (St : Type) (re : RegExp) (s : jsstring)
  (cond : St -> bool) (body : MatchResult -> St -> St) (fuel lastIndex : nat)
  (st : St) :
  exists st', while_exec_from no_fault re s cond body fuel lastIndex st = Ok st'.
Proof.
  revert lastIndex st. induction fuel as [|fuel IH]; intros lastIndex st; simpl.
  - now exists st.
  - destruct (exec re s lastIndex) as [[m lastIndex']|]; [|now exists st].
    destruct (cond st); [apply IH|now exists st].
Qed.

Lemma scan_candidates_no_fault (html : jsstring) (limit : Z) :
  exists links snippets, scan_candidates no_fault html limit = Ok (links, snippets).
Proof.
  unfold scan_candidates, primary_links, snippet_texts, fallback_links, while_exec.
  destruct (while_exec_no_fault _ modernRegex html (below_cap limit) modern_body
              (S (length html)) 0 []) as (links & ->).
  destruct (while_exec_no_fault _ snippetRegex html (below_cap limit) snippet_body
              (S (length html)) 0 []) as (snippets & ->).
  destruct (Nat.eqb (length links) 0); [|now exists links, snippets].
  destruct (while_exec_no_fault _ genericLinkRegex html (below_cap limit)
              generic_body (S (length html)) 0 links) as (links' & ->).
  now exists links', snippets.
Qed.

(** ** Reasoning about programs *)

Lemma wp_weaken {A : Type} (Q Q' : A -> Prop) (E E' : exn -> Prop) (p : prog A) :
  (forall a, Q a -> Q' a) -> (forall e, E e -> E' e) ->
  wp Q E p -> wp Q' E' p.
Proof.
  intros HQ HE. induction p as [a|e|k IH|u i k IH|c k IH|k IH]; simpl; auto.
Qed.

Lemma wp_bind {A B : Type} (Q : B -> Prop) (E : exn -> Prop)
  (p : prog A) (f : A -> prog B) :
  wp (fun a => wp Q E (f a)) E p -> wp Q E (bind p f).
Proof.
  induction p as [a|e|k IH|u i k IH|c k IH|k IH]; simpl; auto.
Qed.

Lemma wp_try_catch {A : Type} (Q : A -> Prop) (E : exn -> Prop)
  (p : prog A) (h : exn -> prog A) :
  wp Q (fun e => wp Q E (h e)) p -> wp Q E (try_catch p h).
Proof.
  induction p as [a|e|k IH|u i k IH|c k IH|k IH]; simpl; auto.
Qed.

Lemma wp_lift {A : Type} (Q : A -> Prop) (E : exn -> Prop) (o : outcome A) :
  (forall a, o = Ok a -> Q a) -> (forall e, o = Throw e -> E e) ->
  wp Q E (lift o).
Proof. destruct o; simpl; auto. Qed.

Lemma wp_console_all {A : Type} (Q : A -> Prop) (E : exn -> Prop)
  (l : list console_entry) (f : unit -> prog A) :
  wp Q E (f tt) -> wp Q E (bind (console_all l) f).
Proof. induction l as [|c l IH]; simpl; auto. Qed.


Lemma emits_bind {A B : Type} (R : event -> Prop) (p : prog A) (f : A -> prog B) :
  emits R p -> (forall a, emits R (f a)) -> emits R (bind p f).
Proof.
  intros Hp Hf. induction p as [a|e|k IH|u i k IH|c k IH|k IH]; simpl in *; auto.
  - intros v. destruct (Hp v). auto.
  - intros r. destruct (Hp r). auto.
  - destruct Hp. auto.
  - intros t. destruct (Hp t). auto.
Qed.

Lemma emits_try_catch {A : Type} (R : event -> Prop) (p : prog A)
  (h : exn -> prog A) :
  emits R p -> (forall e, emits R (h e)) -> emits R (try_catch p h).
Proof.
  intros Hp Hh. induction p as [a|e|k IH|u i k IH|c k IH|k IH]; simpl in *; auto.
  - intros v. destruct (Hp v). auto.
  - intros r. destruct (Hp r). auto.
  - destruct Hp. auto.
  - intros t. destruct (Hp t). auto.
Qed.

Lemma emits_lift {A : Type} (R : event -> Prop) (o : outcome A) :
  emits R (lift o).
Proof. destruct o; exact I. Qed.

Section RunFacts.
Variable W : Type.
Variable P : Platform W.

Lemma wp_run {A : Type} (Q : A -> Prop) (E : exn -> Prop) (p : prog A) :
  wp Q E p ->
  forall w, match value (run P p w) with Ok a => Q a | Throw e => E e end.
Proof.
  induction p as [a|e|k IH|u i k IH|c k IH|k IH]; simpl; intros H w; auto.
  - destruct (read_env P w) as [v w']. simpl. apply IH, H.
  - destruct (do_fetch P u i w) as [r w']. simpl. apply IH, H.
  - apply IH, H.
  - destruct (read_clock P w) as [t w']. simpl. apply IH, H.
Qed.

Lemma emits_run {A : Type} (R : event -> Prop) (p : prog A) :
  emits R p -> forall w, Forall R (trace (run P p w)).
Proof.
  induction p as [a|e|k IH|u i k IH|c k IH|k IH]; simpl; intros H w; auto.
  - destruct (read_env P w) as [v w']. simpl. destruct (H v). auto.
  - destruct (do_fetch P u i w) as [r w']. simpl. destruct (H r). auto.
  - destruct H. auto.
  - destruct (read_clock P w) as [t w']. simpl. destruct (H t). auto.
Qed.

Lemma and_then_after {A B : Type} (ev : event) (r : ran W (outcome A))
  (f : A -> W -> ran W (outcome B)) :
  and_then (after ev r) f = after ev (and_then r f).
Proof. destruct r as [[a|e] t w]; reflexivity. Qed.

Lemma or_catch_after {A : Type} (ev : event) (r : ran W (outcome A))
  (h : exn -> W -> ran W (outcome A)) :
  or_catch (after ev r) h = after ev (or_catch r h).
Proof. destruct r as [[a|e] t w]; reflexivity. Qed.

Lemma ran_eta {A : Type} (r : ran W A) :
  mkRan (value r) (trace r) (final r) = r.
Proof. now destruct r. Qed.

Lemma run_bind {A B : Type} (p : prog A) (f : A -> prog B) (w : W) :
  run P (bind p f) w = and_then (run P p w) (fun a => run P (f a)).
Proof.
  revert w. induction p as [a|e|k IH|u i k IH|c k IH|k IH]; intros w; simpl.
  - unfold and_then. simpl. now rewrite ran_eta.
  - reflexivity.
  - destruct (read_env P w) as [v w']. now rewrite IH, and_then_after.
  - destruct (do_fetch P u i w) as [r w']. now rewrite IH, and_then_after.
  - now rewrite IH, and_then_after.
  - destruct (read_clock P w) as [t w']. now rewrite IH, and_then_after.
Qed.

Lemma run_try_catch {A : Type} (p : prog A) (h : exn -> prog A) (w : W) :
  run P (try_catch p h) w = or_catch (run P p w) (fun e => run P (h e)).
Proof.
  revert w. induction p as [a|e|k IH|u i k IH|c k IH|k IH]; intros w; simpl.
  - reflexivity.
  - unfold or_catch. simpl. now rewrite ran_eta.
  - destruct (read_env P w) as [v w']. now rewrite IH, or_catch_after.
  - destruct (do_fetch P u i w) as [r w']. now rewrite IH, or_catch_after.
  - now rewrite IH, or_catch_after.
  - destruct (read_clock P w) as [t w']. now rewrite IH, or_catch_after.
Qed.

End RunFacts.

(** ** The provider adapters and the resolver *)

Arguments lit : simpl never.
Arguments parsePerplexityResults : simpl never.
Arguments parseDuckDuckGoResults : simpl never.
Arguments encodeURIComponent : simpl never.
Arguments content_of : simpl never.
Arguments perplexity_init : simpl never.
Arguments search_failed : simpl never.

Ltac step_prog :=
  cbn [wp emits bind try_catch lift fetch getenv now console negb].

Lemma wp_searchWithPerplexity (fault : fault_oracle) (q : jsstring)
  (options : SearchOptions) :
  wp (api_envelope q) any_exn (searchWithPerplexity fault q options).
Proof.
  unfold searchWithPerplexity. step_prog. intros [key|]; [|exact I].
  destruct (truthy key); [|exact I].
  step_prog. intros [response|e]; [|exact I]. step_prog.
  destruct (ok response); step_prog.
  - destruct (json_body response) as [data|e]; [|exact I]. step_prog.
    destruct (content_of data) as [content|e]; [|exact I]. step_prog.
    destruct (parsePerplexityResults fault content (limit_of options))
      as [rs|e]; [|exact I]. step_prog.
    intros t. repeat split.
  - destruct (text response); exact I.
Qed.

Lemma wp_search_failed (q : jsstring) (e : exn) :
  wp (failure_envelope q) no_exn (search_failed q e).
Proof. unfold search_failed. step_prog. intros t. repeat split. discriminate. Qed.

Lemma wp_markup_stage (fault : fault_oracle) (q : jsstring) (limit : Z) :
  wp (fun env => markup_envelope q env \/ failure_envelope q env) no_exn
    (markup_stage fault q limit).
Proof.
  unfold markup_stage. apply wp_try_catch. unfold searchDuckDuckGo.
  assert (Hfail : forall e, wp (fun env => markup_envelope q env \/ failure_envelope q env)
                           no_exn (search_failed q e)).
  { intros e. eapply wp_weaken; [| |apply wp_search_failed]; auto. }
  destruct (encodeURIComponent q) as [encoded|e]; step_prog; [|apply Hfail].
  intros [response|e]; step_prog; [|apply Hfail].
  destruct (ok response); step_prog; [|apply Hfail].
  destruct (text response) as [html|e]; step_prog; [|apply Hfail].
  destruct (parseDuckDuckGoResults fault html limit) as [rs logged].
  apply wp_console_all. step_prog. intros t. left. repeat split.
Qed.

Lemma wp_searchWeb (fault : fault_oracle) (q : jsstring)
  (options : SearchOptions) :
  wp (well_formed q) no_exn (searchWeb fault q options).
Proof.
  unfold searchWeb. step_prog. intros key.
  assert (Hm : wp (well_formed q) no_exn
                 (try_catch (searchDuckDuckGo fault q (limit_of options))
                    (search_failed q))).
  { eapply wp_weaken; [| |apply wp_markup_stage]; unfold well_formed; tauto. }
  apply wp_bind. destruct (truthy_key key); [|exact Hm].
  apply wp_try_catch, wp_bind.
  eapply wp_weaken; [| |apply wp_searchWithPerplexity].
  - intros env Henv. step_prog. left. exact Henv.
  - intros e _. step_prog. exact Hm.
Qed.

Section Resolver.
Variable W : Type.
Variable P : Platform W.
Variable fault : fault_oracle.

(** [searchWeb] step by step: the read of the credential; with a
    credential, the API adapter and, when it throws, the warning and the
    markup stage; without one, the markup stage at once. *)
Lemma run_searchWeb (q : jsstring) (options : SearchOptions) (w : W) :
  run P (searchWeb fault q options) w
  = let '(key, w1) := read_env P w in
    after (EvEnv key)
      (if truthy_key key then
         let r1 := run P (searchWithPerplexity fault q
                            (mkOptions (Some (limit_of options)) None)) w1 in
         match value r1 with
         | Ok env => r1
         | Throw e =>
             let r2 := run P (markup_stage fault q (limit_of options)) (final r1) in
             mkRan (value r2)
               (trace r1 ++ EvConsole (fallback_warning e) :: trace r2)
               (final r2)
         end
       else run P (markup_stage fault q (limit_of options)) w1).
Proof.
  unfold searchWeb. cbn [bind getenv run].
  destruct (read_env P w) as [key w1]. f_equal.
  rewrite run_bind. destruct (truthy_key key).
  - rewrite run_try_catch, run_bind.
    destruct (run P (searchWithPerplexity fault q _) w1) as [[env|e] t1 w2].
    + unfold and_then, or_catch; cbn. now rewrite !app_nil_r.
    + unfold and_then, or_catch; cbn.
      fold (markup_stage fault q (limit_of options)).
      now rewrite <- app_assoc.
  - unfold and_then; cbn. fold (markup_stage fault q (limit_of options)).
    now rewrite ran_eta.
Qed.

End Resolver.

(** ** What the stages ask of the platform *)

Lemma markup_url_not_api (encoded : jsstring) :
  str_eqb (searchUrlPrefix ++ encoded) apiUrl = false.
Proof. reflexivity. Qed.

Lemma emits_console_all (R : event -> Prop) (l : list console_entry) :
  (forall c, R (EvConsole c)) -> emits R (console_all l).
Proof. intros H. induction l; simpl; auto. Qed.

Lemma emits_search_failed (q : jsstring) (e : exn) :
  emits quiet (search_failed q e).
Proof. unfold search_failed. step_prog. repeat split. Qed.

Lemma markup_stage_unfold (fault : fault_oracle) (q : jsstring) (limit : Z) :
  markup_stage fault q limit
  = match encodeURIComponent q with
    | Ok encoded =>
        Fetch (searchUrlPrefix ++ encoded) duckduckgo_init
          (markup_rest fault q limit)
    | Throw e => search_failed q e
    end.
Proof.
  unfold markup_stage, searchDuckDuckGo, markup_rest.
  destruct (encodeURIComponent q) as [encoded|e]; [|reflexivity].
  cbn [bind try_catch lift fetch]. reflexivity.
Qed.

Lemma emits_markup_rest (fault : fault_oracle) (q : jsstring) (limit : Z)
  (answer : outcome Response) :
  emits quiet (markup_rest fault q limit answer).
Proof.
  unfold markup_rest. apply emits_try_catch; [|apply emits_search_failed].
  destruct answer as [response|e]; step_prog; [|exact I].
  destruct (ok response); step_prog; [|exact I].
  destruct (text response) as [html|e]; step_prog; [|exact I].
  destruct (parseDuckDuckGoResults fault html limit) as [rs logged].
  apply emits_bind.
  - apply emits_console_all. repeat split.
  - intros _. step_prog. repeat split.
Qed.

(** A response with a success status and a readable body makes a
    [duckduckgo] envelope of what the extractor finds in the body. *)
Lemma wp_markup_rest_ok (fault : fault_oracle) (q : jsstring) (limit : Z)
  (response : Response) (html : jsstring) :
  ok response = true -> text response = Ok html ->
  wp (fun env =>
        markup_envelope q env
        /\ results env = fst (parseDuckDuckGoResults fault html limit))
    no_exn (markup_rest fault q limit (Ok response)).
Proof.
  intros Hok Htext. unfold markup_rest. apply wp_try_catch. step_prog.
  rewrite Hok, Htext. step_prog.
  destruct (parseDuckDuckGoResults fault html limit) as [rs logged].
  apply wp_console_all. step_prog. intros t. repeat split.
Qed.

Section Stages.
Variable W : Type.
Variable P : Platform W.
Variable fault : fault_oracle.

Lemma quiet_not_fetch (l : list event) (u : jsstring) (i : RequestInit)
  (r : outcome Response) :
  Forall quiet l -> ~ In (EvFetch u i r) l.
Proof.
  intros H Hin. rewrite Forall_forall in H. destruct (H _ Hin) as [Hf _].
  discriminate.
Qed.

(** The trace of the markup stage has no read of the credential and no
    request to the API. *)
Lemma markup_stage_trace (q : jsstring) (limit : Z) (w : W) :
  Forall (fun ev => is_env_read ev = false /\ is_api_request ev = false)
    (trace (run P (markup_stage fault q limit) w)).
Proof.
  rewrite markup_stage_unfold.
  assert (Hq : forall ev, quiet ev ->
                 is_env_read ev = false /\ is_api_request ev = false).
  { intros [] [H1 H2]; try discriminate; auto. }
  destruct (encodeURIComponent q) as [encoded|e].
  - cbn [run]. destruct (do_fetch P _ _ w) as [answer w1]. cbn [trace after].
    constructor.
    + split; [reflexivity|apply markup_url_not_api].
    + eapply Forall_impl; [exact Hq|].
      apply emits_run, emits_markup_rest.
  - eapply Forall_impl; [exact Hq|]. apply emits_run, emits_search_failed.
Qed.

(** A markup response in the trace of the markup stage decides its
    result. *)
Lemma markup_stage_success (q : jsstring) (limit : Z) (w : W)
  (u : jsstring) (i : RequestInit) (response : Response) (html : jsstring) :
  In (EvFetch u i (Ok response)) (trace (run P (markup_stage fault q limit) w)) ->
  ok response = true -> text response = Ok html ->
  exists env,
    value (run P (markup_stage fault q limit) w) = Ok env
    /\ markup_envelope q env
    /\ results env = fst (parseDuckDuckGoResults fault html limit).
Proof.
  rewrite markup_stage_unfold.
  destruct (encodeURIComponent q) as [encoded|e].
  - cbn [run]. destruct (do_fetch P _ _ w) as [answer w1]. cbn [trace value after].
    intros [Hin|Hin] Hok Htext.
    + injection Hin as _ _ ->.
      pose proof (wp_run W P _ _ _ (wp_markup_rest_ok fault q limit _ _ Hok Htext) w1)
        as H.
      destruct (value (run P (markup_rest fault q limit (Ok response)) w1))
        as [env|e]; [|destruct H].
      exists env. tauto.
    + exfalso. revert Hin. apply quiet_not_fetch.
      apply emits_run, emits_markup_rest.
  - intros Hin. exfalso. revert Hin. apply quiet_not_fetch.
    apply emits_run, emits_search_failed.
Qed.

(** The API adapter reads the credential first, and sends no request
    without a method. *)
Lemma adapter_reads_env_first (q : jsstring) (options : SearchOptions) (w : W) :
  exists rest,
    trace (run P (searchWithPerplexity fault q options) w)
    = EvEnv (fst (read_env P w)) :: rest.
Proof.
  unfold searchWithPerplexity. cbn [bind getenv run].
  destruct (read_env P w) as [key w1]. cbn [trace after fst]. eauto.
Qed.

Lemma adapter_trace (q : jsstring) (options : SearchOptions) (w : W) :
  Forall (fun ev => without_method ev = false)
    (trace (run P (searchWithPerplexity fault q options) w)).
Proof.
  apply emits_run. unfold searchWithPerplexity. step_prog.
  intros [key|]; (split; [reflexivity|]); [|exact I].
  destruct (truthy key); [|exact I]. step_prog.
  intros [response|e]; (split; [reflexivity|]); [|exact I]. step_prog.
  destruct (ok response); step_prog.
  - destruct (json_body response) as [data|e]; [|exact I]. step_prog.
    destruct (content_of data) as [content|e]; [|exact I]. step_prog.
    destruct (parsePerplexityResults fault content (limit_of options))
      as [rs|e]; [|exact I]. step_prog.
    intros t. split; [reflexivity|exact I].
  - destruct (text response); exact I.
Qed.

End Stages.

(** ** The envelopes of [searchWeb] *)

Lemma well_formed_source_none (q : jsstring) (env : SearchEnvelope) :
  well_formed q env ->
  (source env = none <-> error env <> None /\ results env = []).
Proof.
  intros [(_ & _ & Hs & He)|[(_ & _ & Hs & He)|(_ & _ & Hr & Hs & He)]];
    split; try (rewrite Hs; discriminate); try tauto.
Qed.

Section SearchWebFacts.
Variable W : Type.
Variable P : Platform W.
Variable fault : fault_oracle.

Lemma searchWeb_returns (q : jsstring) (options : SearchOptions) (w : W) :
  exists env,
    value (run P (searchWeb fault q options) w) = Ok env /\ well_formed q env.
Proof.
  pose proof (wp_run W P _ _ _ (wp_searchWeb fault q options) w) as H.
  destruct (value (run P (searchWeb fault q options) w)) as [env|e];
    [|destruct H].
  now exists env.
Qed.

Lemma markup_stage_returns (q : jsstring) (limit : Z) (w : W) :
  exists env,
    value (run P (markup_stage fault q limit) w) = Ok env
    /\ (markup_envelope q env \/ failure_envelope q env).
Proof.
  pose proof (wp_run W P _ _ _ (wp_markup_stage fault q limit) w) as H.
  destruct (value (run P (markup_stage fault q limit) w)) as [env|e];
    [|destruct H].
  now exists env.
Qed.

Lemma adapter_returns (q : jsstring) (options : SearchOptions) (w : W)
  (env : SearchEnvelope) :
  value (run P (searchWithPerplexity fault q options) w) = Ok env ->
  api_envelope q env.
Proof.
  intros H.
  pose proof (wp_run W P _ _ _ (wp_searchWithPerplexity fault q options) w) as H'.
  now rewrite H in H'.
Qed.

Lemma adapter_no_markup_request (q : jsstring) (options : SearchOptions)
  (w : W) (u : jsstring) (r : outcome Response) :
  ~ In (EvFetch u duckduckgo_init r)
      (trace (run P (searchWithPerplexity fault q options) w)).
Proof.
  intros Hin. pose proof (adapter_trace W P fault q options w) as H.
  rewrite Forall_forall in H. specialize (H _ Hin). discriminate.
Qed.

(** A markup response in the trace of [searchWeb] decides its result. *)
Lemma searchWeb_markup_success (q : jsstring) (options : SearchOptions) (w : W)
  (u : jsstring) (response : Response) (html : jsstring) :
  In (EvFetch u duckduckgo_init (Ok response))
    (trace (run P (searchWeb fault q options) w)) ->
  ok response = true -> text response = Ok html ->
  exists env,
    value (run P (searchWeb fault q options) w) = Ok env
    /\ markup_envelope q env
    /\ results env
       = fst (parseDuckDuckGoResults fault html (limit_of options)).
Proof.
  rewrite run_searchWeb. destruct (read_env P w) as [key w1].
  cbn [trace value after]. intros [Hin|Hin]; [discriminate|]. revert Hin.
  destruct (truthy_key key).
  - cbv zeta.
    destruct (value (run P (searchWithPerplexity fault q _) w1)) as [env|e] eqn:E.
    + intros Hin. now apply adapter_no_markup_request in Hin.
    + cbn [trace value]. intros Hin. apply in_app_or in Hin.
      destruct Hin as [Hin|[Hin|Hin]].
      * now apply adapter_no_markup_request in Hin.
      * discriminate.
      * now apply markup_stage_success with (u := u) (i := duckduckgo_init).
  - intros Hin. now apply markup_stage_success with (u := u) (i := duckduckgo_init).
Qed.

End SearchWebFacts.

(** C2: every envelope [searchWeb] returns has source none if and only if
    its error is present and its results are empty; and a markup response
    with a success status whose body yields no result gives source
    duckduckgo, no results, total 0 and no error. *)
Theorem searchWeb_source_none_iff
  (W : Type) (P : Platform W) (fault : fault_oracle)
  (q : jsstring) (options : SearchOptions) (w : W) :
  exists env,
    value (run P (searchWeb fault q options) w) = Ok env
    /\ (source env = none <-> error env <> None /\ results env = [])
    /\ (forall u response html,
          In (EvFetch u duckduckgo_init (Ok response))
            (trace (run P (searchWeb fault q options) w)) ->
          ok response = true -> text response = Ok html ->
          fst (parseDuckDuckGoResults fault html (limit_of options)) = [] ->
          source env = duckduckgo /\ results env = [] /\ total env = 0
          /\ error env = None).
Proof.
  destruct (searchWeb_returns W P fault q options w) as (env & Hv & Hwf).
  exists env. split; [exact Hv|]. split.
  - now apply well_formed_source_none with q.
  - intros u response html Hin Hok Htext Hnone.
    destruct (searchWeb_markup_success W P fault q options w u response html
                Hin Hok Htext) as (env' & Hv' & (_ & Ht & Hs & He) & Hr).
    rewrite Hv in Hv'. injection Hv' as <-.
    rewrite Hnone in Hr. rewrite Hr in Ht. auto.
Qed.

Lemma searchWeb_source_none_iff_witness :
  In (EvFetch (searchUrlPrefix ++ lit "rocq") duckduckgo_init (page empty_page))
    (trace (run (scripted None [page empty_page])
              (searchWeb no_fault (lit "rocq") no_options) 0))
  /\ fst (parseDuckDuckGoResults no_fault empty_page (limit_of no_options)) = []
  /\ exists env,
       value (run (scripted None [page empty_page])
                (searchWeb no_fault (lit "rocq") no_options) 0) = Ok env
       /\ source env = duckduckgo /\ results env = [] /\ total env = 0
       /\ error env = None.
Proof.
  split; [vm_compute; right; left; reflexivity|]. split; [reflexivity|].
  destruct (searchWeb_source_none_iff nat (scripted None [page empty_page])
              no_fault (lit "rocq") no_options 0) as (env & Hv & _ & H).
  exists env. split; [exact Hv|].
  apply (H (searchUrlPrefix ++ lit "rocq")
           (mkResponse true (lit "OK") (Ok empty_page)
              (Throw (Error (lit "Unexpected token < in JSON"))))
           empty_page).
  - vm_compute. right. left. reflexivity.
  - reflexivity.
  - reflexivity.
  - reflexivity.
Defined.

(** C4: [searchWeb] always returns an envelope, whatever the adapters do;
    and when the API adapter throws, the result is that of the markup
    stage run from there, an envelope whose source is not perplexity. *)
Theorem searchWeb_falls_back
  (W : Type) (P : Platform W) (fault : fault_oracle)
  (q : jsstring) (options : SearchOptions) (w : W) :
  exists env,
    value (run P (searchWeb fault q options) w) = Ok env
    /\ query env = q /\ total env = length (results env)
    /\ (forall e,
          let adapter :=
            run P (searchWithPerplexity fault q
                     (mkOptions (Some (limit_of options)) None))
              (snd (read_env P w)) in
          truthy_key (fst (read_env P w)) = true ->
          value adapter = Throw e ->
          source env <> perplexity
          /\ value (run P (markup_stage fault q (limit_of options))
                      (final adapter)) = Ok env
          /\ In (EvConsole (fallback_warning e))
               (trace (run P (searchWeb fault q options) w))).
Proof.
  destruct (searchWeb_returns W P fault q options w) as (env & Hv & Hwf).
  exists env. split; [exact Hv|].
  assert (Hq : query env = q /\ total env = length (results env)).
  { destruct Hwf as [(H1 & H2 & _)|[(H1 & H2 & _)|(H1 & H2 & H3 & _)]];
      split; auto. now rewrite H2, H3. }
  destruct Hq as [Hq Ht]. split; [exact Hq|]. split; [exact Ht|].
  intros e adapter Hkey Hthrow. subst adapter.
  revert Hv. rewrite run_searchWeb.
  destruct (read_env P w) as [key w1]. cbn [fst snd] in *.
  rewrite Hkey. cbv zeta. rewrite Hthrow. cbn [value trace after].
  intros Hv.
  destruct (markup_stage_returns W P fault q (limit_of options)
              (final (run P (searchWithPerplexity fault q
                               (mkOptions (Some (limit_of options)) None)) w1)))
    as (env' & Hv' & Hm).
  rewrite Hv in Hv'. injection Hv' as <-.
  split; [|split; [exact Hv|]].
  - destruct Hm as [(_ & _ & Hs & _)|(_ & _ & _ & Hs & _)]; rewrite Hs; discriminate.
  - right. apply in_or_app. right. now left.
Qed.

Lemma searchWeb_falls_back_witness :
  truthy_key (fst (read_env api_down 0)) = true
  /\ value (run api_down
              (searchWithPerplexity no_fault (lit "rocq")
                 (mkOptions (Some (limit_of no_options)) None))
              (snd (read_env api_down 0)))
     = Throw (Error (lit "Perplexity API error: Service Unavailable - try later"))
  /\ exists env,
       value (run api_down (searchWeb no_fault (lit "rocq") no_options) 0) = Ok env
       /\ source env <> perplexity.
Proof.
  split; [reflexivity|]. split; [vm_compute; reflexivity|].
  destruct (searchWeb_falls_back nat api_down no_fault (lit "rocq") no_options 0)
    as (env & Hv & _ & _ & H).
  exists env. split; [exact Hv|].
  apply (H (Error (lit "Perplexity API error: Service Unavailable - try later"))).
  - reflexivity.
  - vm_compute. reflexivity.
Defined.

(** C5: when the API credential is unset (or empty), [searchWeb] is the
    read of the credential followed by the markup stage: the API adapter,
    whose first step is a read of the credential, is not run, no request
    goes to the API, and the source of the envelope is duckduckgo or
    none. *)
Theorem searchWeb_without_credential
  (W : Type) (P : Platform W) (fault : fault_oracle)
  (q : jsstring) (options : SearchOptions) (w : W) :
  truthy_key (fst (read_env P w)) = false ->
  let r := run P (searchWeb fault q options) w in
  r = after (EvEnv (fst (read_env P w)))
        (run P (markup_stage fault q (limit_of options)) (snd (read_env P w)))
  /\ filter is_env_read (trace r) = [EvEnv (fst (read_env P w))]
  /\ existsb is_api_request (trace r) = false
  /\ exists env,
       value r = Ok env /\ (source env = duckduckgo \/ source env = none).
Proof.
  intros Hkey r. subst r. rewrite run_searchWeb.
  destruct (read_env P w) as [key w1]. cbn [fst snd] in *. rewrite Hkey.
  pose proof (markup_stage_trace W P fault q (limit_of options) w1) as Ht.
  split; [reflexivity|]. cbn [trace value after filter existsb is_env_read
                              is_api_request orb].
  split; [|split].
  - f_equal. induction Ht as [|ev l [H1 _] _ IH]; [reflexivity|].
    cbn [filter]. now rewrite H1.
  - induction Ht as [|ev l [_ H2] _ IH]; [reflexivity|].
    cbn [existsb]. now rewrite H2.
  - destruct (markup_stage_returns W P fault q (limit_of options) w1)
      as (env & Hv & [(_ & _ & Hs & _)|(_ & _ & _ & Hs & _)]);
      exists env; auto.
Qed.

Lemma searchWeb_without_credential_witness :
  truthy_key (fst (read_env (scripted None [page plain_page]) 0)) = false
  /\ trace (run (scripted None [page plain_page])
              (searchWeb no_fault (lit "rocq") no_options) 0)
     = [ EvEnv None;
         EvFetch (searchUrlPrefix ++ lit "rocq") duckduckgo_init (page plain_page);
         EvNow (lit "2025-11-01T00:00:00.000Z") ]
  /\ exists env,
       value (run (scripted None [page plain_page])
                (searchWeb no_fault (lit "rocq") no_options) 0) = Ok env
       /\ (source env = duckduckgo \/ source env = none).
Proof.
  split; [reflexivity|]. split; [vm_compute; reflexivity|].
  apply (searchWeb_without_credential nat (scripted None [page plain_page])
           no_fault (lit "rocq") no_options 0).
  reflexivity.
Defined.

(** ** The enrichment stage *)


Section Enrichment.
Variable W : Type.
Variable P : Platform W.
Variable fault : fault_oracle.






End Enrichment.



Example first_page_times_out_run :
  option_map EnrichmentEnvelope.fetchedContent
    (match value (run first_page_times_out
                    (searchAndFetch no_fault (lit "rocq")
                       (mkFetchOptions (Some 2%Z))) 0) with
     | Ok env => Some env
     | Throw _ => None
     end)
  = Some
      [ mkEnriched (mkResult (lit "T1") (lit "https://ex.org/p") [] 1) None
          (Some (lit "Failed to fetch https://ex.org/p: The operation was aborted due to timeout"));
        mkEnriched (mkResult (lit "B") (lit "http://b.org/") [] 2)
          (Some (lit "T1 B")) None ].
Proof. vm_compute. reflexivity. Qed.


(** ** The batch resolver *)

Lemma awaits_mono {A : Type} (p : prog A) :
  forall n m, n <= m -> awaits n p -> awaits m p.
Proof.
  induction p as [a|e|k IH|u i k IH|c k IH|k IH]; intros n m Hle; simpl; eauto.
  destruct n as [|n]; [tauto|]. destruct m as [|m]; [lia|].
  intros H r. apply (IH r n m); [lia|apply H].
Qed.

Lemma awaits_bind {A B : Type} (p : prog A) (f : A -> prog B) (n m k : nat) :
  awaits n p -> (forall a, awaits m (f a)) -> n + m <= k ->
  awaits k (bind p f).
Proof.
  intros Hp Hf Hk. apply awaits_mono with (n + m); [exact Hk|]. clear Hk.
  revert n Hp.
  induction p as [a|e|g IH|u i g IH|c g IH|g IH]; intros n; simpl; eauto.
  - intros _. apply awaits_mono with m; [lia|apply Hf].
  - destruct n as [|n]; [tauto|]. simpl. intros H r. apply IH, H.
Qed.

Lemma awaits_try_catch {A : Type} (p : prog A) (h : exn -> prog A) (n m k : nat) :
  awaits n p -> (forall e, awaits m (h e)) -> n + m <= k ->
  awaits k (try_catch p h).
Proof.
  intros Hp Hh Hk. apply awaits_mono with (n + m); [exact Hk|]. clear Hk.
  revert n Hp.
  induction p as [a|e|g IH|u i g IH|c g IH|g IH]; intros n; simpl; eauto.
  - intros _. apply awaits_mono with m; [lia|apply Hh].
  - destruct n as [|n]; [tauto|]. simpl. intros H r. apply IH, H.
Qed.

Ltac step_await := cbn [awaits bind try_catch lift fetch getenv now console negb].

Lemma awaits_lift {A : Type} (o : outcome A) (n : nat) : awaits n (lift o).
Proof. destruct o; exact I. Qed.

Lemma awaits_console_all (l : list console_entry) (n : nat) :
  awaits n (console_all l).
Proof. induction l; simpl; auto. Qed.

Lemma awaits_search_failed (q : jsstring) (e : exn) : awaits 0 (search_failed q e).
Proof. unfold search_failed. cbn. auto. Qed.

Lemma awaits_markup_stage (fault : fault_oracle) (q : jsstring) (limit : Z) :
  awaits 1 (markup_stage fault q limit).
Proof.
  rewrite markup_stage_unfold.
  destruct (encodeURIComponent q) as [encoded|e];
    [|apply awaits_mono with 0; [lia|apply awaits_search_failed]].
  cbn [awaits]. intros answer. unfold markup_rest.
  apply (awaits_try_catch _ _ 0 0);
    [|intros e; apply awaits_search_failed|lia].
  destruct answer as [response|e]; step_await; [|exact I].
  destruct (ok response); step_await; [|exact I].
  destruct (text response) as [html|e]; step_await; [|exact I].
  destruct (parseDuckDuckGoResults fault html limit) as [rs logged].
  apply (awaits_bind _ _ 0 0); [apply awaits_console_all| |lia].
  intros _ t. exact I.
Qed.

Lemma awaits_searchWithPerplexity (fault : fault_oracle) (q : jsstring)
  (options : SearchOptions) :
  awaits 1 (searchWithPerplexity fault q options).
Proof.
  unfold searchWithPerplexity. step_await.
  intros [key|]; [|exact I]. destruct (truthy key); [|exact I].
  step_await. intros [response|e]; step_await; [|exact I].
  destruct (ok response); step_await.
  - destruct (json_body response) as [data|e]; step_await; [|exact I].
    destruct (content_of data) as [content|e]; step_await; [|exact I].
    destruct (parsePerplexityResults fault content (limit_of options))
      as [rs|e]; step_await; [|exact I].
    intros t. exact I.
  - destruct (text response); exact I.
Qed.

Lemma awaits_searchWeb (fault : fault_oracle) (q : jsstring)
  (options : SearchOptions) :
  awaits 2 (searchWeb fault q options).
Proof.
  unfold searchWeb. cbn [bind getenv awaits]. intros key.
  apply (awaits_bind _ _ 1 1); [| |lia].
  - destruct (truthy_key key); [|exact I].
    apply (awaits_try_catch _ _ 1 0); [| |lia].
    + apply (awaits_bind _ _ 1 0); [|intros env; exact I|lia].
      apply awaits_searchWithPerplexity.
    + intros e. cbn. exact I.
  - intros [env|]; [exact I|].
    apply (awaits_markup_stage fault q (limit_of options)).
Qed.

Lemma update_length {A : Type} (i : nat) (x : A) (l : list A) :
  length (update i x l) = length l.
Proof. revert i; induction l as [|y l IH]; intros [|i]; simpl; auto. Qed.

Lemma update_nth_error {A : Type} (i j : nat) (x : A) (l : list A) :
  nth_error (update i x l) j
  = if Nat.eqb i j then option_map (fun _ => x) (nth_error l j)
    else nth_error l j.
Proof.
  revert i j; induction l as [|y l IH]; intros [|i] [|j]; simpl; auto.
  - now destruct (Nat.eqb i j).
Qed.

Lemma update_Forall2 {A B : Type} (R : A -> B -> Prop) (i : nat) (x : B)
  (l : list A) (l' : list B) :
  Forall2 R l l' ->
  (forall a, nth_error l i = Some a -> R a x) ->
  Forall2 R l (update i x l').
Proof.
  intros H. revert i. induction H as [|a b l l' Hab H IH]; intros [|i] Hx; simpl;
    constructor; auto.
Qed.

Section Pool.
Variable W : Type.
Variable P : Platform W.

Lemma advance_parked {A : Type} (p : prog A) (w : W) :
  parked (value (advance P p w)).
Proof.
  revert w. induction p as [a|e|k IH|u i k IH|c k IH|k IH]; intros w; simpl; auto.
  - destruct (read_env P w) as [v w']. apply IH.
  - destruct (read_clock P w) as [t w']. apply IH.
Qed.

Lemma advance_wp {A : Type} (Q : A -> Prop) (E : exn -> Prop) (p : prog A) (w : W) :
  wp Q E p -> wp Q E (value (advance P p w)).
Proof.
  revert w. induction p as [a|e|k IH|u i k IH|c k IH|k IH]; intros w; simpl; auto.
  - destruct (read_env P w) as [v w']. intros H. apply IH, H.
  - destruct (read_clock P w) as [t w']. intros H. apply IH, H.
Qed.

Lemma advance_awaits {A : Type} (n : nat) (p : prog A) (w : W) :
  awaits n p -> awaits n (value (advance P p w)).
Proof.
  revert w. induction p as [a|e|k IH|u i k IH|c k IH|k IH]; intros w; simpl; auto.
  - destruct (read_env P w) as [v w']. intros H. apply IH, H.
  - destruct (read_clock P w) as [t w']. intros H. apply IH, H.
Qed.

(** The start of a pool and every step keep what holds of its tasks. *)
Section Invariant.
Variable A I : Type.
Variable Q : I -> A -> Prop.

Lemma start_ok (xs : list I) (ps : list (prog A)) (w : W) :
  Forall2 (fun x p => wp (Q x) no_exn p) xs ps ->
  Forall2 (task_ok A I Q) xs (value (start P ps w)).
Proof.
  intros H. revert w. induction H as [|x p xs ps Hp H IH]; intros w; simpl.
  - constructor.
  - constructor; [|apply IH]. split; [apply advance_parked|now apply advance_wp].
Qed.

Lemma start_within (n : nat) (ps : list (prog A)) (w : W) :
  Forall (awaits n) ps -> within A (fun _ => n) (value (start P ps w)).
Proof.
  intros H. revert w. induction H as [|p ps Hp H IH]; intros w [|i] p'; simpl;
    try discriminate.
  - intros [= <-]. now apply advance_awaits.
  - apply IH.
Qed.

Lemma step_ok (xs : list I) (j : nat) (pool : ran W (list (prog A))) :
  Forall2 (task_ok A I Q) xs (value pool) ->
  Forall2 (task_ok A I Q) xs (value (step P j pool)).
Proof.
  intros H. unfold step.
  destruct (nth_error (value pool) j) as [[a|e|k|u init k|c k|k]|] eqn:E; auto.
  destruct (do_fetch P u init (final pool)) as [r w']. cbn [value].
  apply update_Forall2; [exact H|]. intros x Hx.
  assert (Hp : (task_ok A I Q) x (Fetch u init k)).
  { clear - H E Hx. revert j E Hx.
    induction H as [|x' p xs ps Hp H IH]; intros [|j]; simpl; try discriminate.
    - now intros [= <-] [= <-].
    - apply IH. }
  destruct Hp as [_ Hp]. split; [apply advance_parked|].
  apply advance_wp. apply Hp.
Qed.

Lemma step_within (budget : nat -> nat) (j : nat) (pool : ran W (list (prog A))) :
  Forall parked (value pool) ->
  within A budget (value pool) ->
  within A (fun i => if Nat.eqb j i then pred (budget i) else budget i)
    (value (step P j pool)).
Proof.
  intros Hparked H. unfold step.
  destruct (nth_error (value pool) j) as [p|] eqn:E.
  - assert (Hj : awaits (budget j) p) by (apply (H j), E).
    assert (Hp : parked p).
    { rewrite Forall_forall in Hparked. apply Hparked.
      now apply nth_error_In with j. }
    destruct p as [a|e|k|u init k|c k|k]; try destruct Hp.
    + intros i p' Hi. destruct (Nat.eqb_spec j i) as [<-|Hne]; [|now apply H].
      rewrite E in Hi. now injection Hi as <-.
    + intros i p' Hi. destruct (Nat.eqb_spec j i) as [<-|Hne]; [|now apply H].
      rewrite E in Hi. now injection Hi as <-.
    + destruct (do_fetch P u init (final pool)) as [r w']. cbn [value].
      intros i p'. rewrite update_nth_error.
      destruct (Nat.eqb_spec j i) as [<-|Hne]; [|apply H].
      rewrite E. cbn [option_map]. intros [= <-].
      apply advance_awaits. simpl in Hj.
      destruct (budget j); [destruct Hj|]. apply Hj.
  - intros i p Hi. destruct (Nat.eqb_spec j i) as [<-|Hne]; [|now apply H].
    rewrite E in Hi. discriminate.
Qed.

Lemma task_ok_parked (xs : list I) (pool : list (prog A)) :
  Forall2 (task_ok A I Q) xs pool -> Forall parked pool.
Proof. intros H. induction H as [|x p xs ps [Hp _] H IH]; constructor; auto. Qed.

End Invariant.
End Pool.

Section PoolRun.
Variable W : Type.
Variable P : Platform W.
Variable A I : Type.
Variable Q : I -> A -> Prop.

Lemma schedule_ok (xs : list I) (schedule : list nat) :
  forall pool,
    Forall2 (task_ok A I Q) xs (value pool) ->
    Forall2 (task_ok A I Q) xs (value (run_schedule W P A schedule pool)).
Proof.
  induction schedule as [|j schedule IH]; intros pool H; simpl; [exact H|].
  apply IH. now apply step_ok.
Qed.

Lemma within_ext (b b' : nat -> nat) (pool : list (prog A)) :
  (forall i, b i = b' i) -> within A b pool -> within A b' pool.
Proof. intros Hb H i p Hi. rewrite <- Hb. now apply H. Qed.

Lemma schedule_within (xs : list I) (schedule : list nat) :
  forall (budget : nat -> nat) pool,
    Forall2 (task_ok A I Q) xs (value pool) ->
    within A budget (value pool) ->
    within A (fun i => budget i - count_occ Nat.eq_dec schedule i)
      (value (run_schedule W P A schedule pool)).
Proof.
  induction schedule as [|j schedule IH]; intros budget pool Hok H.
  - simpl. apply within_ext with budget; [intros i; lia|exact H].
  - cbn [run_schedule fold_left]. fold (run_schedule W P A schedule (step P j pool)).
    eapply within_ext; [|apply IH; [apply step_ok, Hok|]].
    2: { apply step_within; [|exact H]. eapply task_ok_parked, Hok. }
    intros i. cbn beta. cbn [count_occ].
    destruct (Nat.eq_dec j i) as [->|Hne].
    + rewrite Nat.eqb_refl. lia.
    + apply Nat.eqb_neq in Hne. rewrite Hne. reflexivity.
Qed.

Lemma settled_ok (xs : list I) (pool : list (prog A)) :
  Forall2 (task_ok A I Q) xs pool ->
  forall l, settled pool = Some (Ok l) -> Forall2 Q xs l.
Proof.
  intros H. induction H as [|x p xs ps [Hp Hwp] H IH]; intros l; simpl.
  - intros [= <-]. constructor.
  - destruct p as [a|e|k|u init k|c k|k]; try destruct Hp.
    + destruct (settled ps) as [[l'|e]|]; try discriminate.
      intros [= <-]. constructor; [exact Hwp|now apply IH].
    + discriminate.
    + destruct (settled ps) as [[l'|e]|]; discriminate.
Qed.

Lemma settled_no_throw (xs : list I) (pool : list (prog A)) :
  Forall2 (task_ok A I Q) xs pool ->
  forall e, settled pool <> Some (Throw e).
Proof.
  intros H. induction H as [|x p xs ps [Hp Hwp] H IH]; intros e'; simpl.
  - discriminate.
  - destruct p as [a|e|k|u init k|c k|k]; try destruct Hp.
    + destruct (settled ps) as [[l'|e]|] eqn:E; try discriminate.
      now destruct (IH e).
    + destruct Hwp.
    + destruct (settled ps) as [[l'|e]|] eqn:E; try discriminate.
      now destruct (IH e).
Qed.

Lemma settled_done (xs : list I) (pool : list (prog A)) :
  Forall2 (task_ok A I Q) xs pool -> Forall (awaits 0) pool ->
  exists l, settled pool = Some (Ok l).
Proof.
  intros H. induction H as [|x p xs ps [Hp Hwp] H IH]; intros Hz; simpl.
  - now exists [].
  - inversion Hz as [|p' ps' Hp0 Hz']; subst.
    destruct (IH Hz') as (l & ->).
    destruct p as [a|e|k|u init k|c k|k]; try destruct Hp.
    + now exists (a :: l).
    + destruct Hwp.
    + destruct Hp0.
Qed.

End PoolRun.

Lemma fold_left_total (l : list SearchEnvelope) (n : nat) :
  fold_left (fun sum r => sum + total r) l n = n + list_sum (map total l).
Proof.
  revert n. induction l as [|env l IH]; intros n; simpl; [lia|].
  rewrite IH. lia.
Qed.

Lemma Forall2_nth_error {A B : Type} (R : A -> B -> Prop) (l : list A) (l' : list B) :
  Forall2 R l l' ->
  forall i a, nth_error l i = Some a ->
  exists b, nth_error l' i = Some b /\ R a b.
Proof.
  intros H. induction H as [|x y l l' Hxy H IH]; intros [|i] a; simpl;
    try discriminate.
  - intros [= <-]. now exists y.
  - apply IH.
Qed.

Section Batch.
Variable W : Type.
Variable P : Platform W.
Variable fault : fault_oracle.
Variable queries : list jsstring.
Variable options : SearchOptions.

Lemma batch_tasks_ok :
  Forall2 (fun q p => wp (well_formed q) no_exn p) queries
    (par_tasks (searchWebMultiple fault queries options)).
Proof.
  cbn [searchWebMultiple par_tasks].
  induction queries as [|q qs IH]; simpl; constructor; [apply wp_searchWeb|exact IH].
Qed.

Lemma batch_tasks_await :
  Forall (awaits 2) (par_tasks (searchWebMultiple fault queries options)).
Proof.
  cbn [searchWebMultiple par_tasks].
  induction queries as [|q qs IH]; simpl; constructor; [apply awaits_searchWeb|exact IH].
Qed.

(** The pool of [searchWebMultiple] after any schedule. *)
Lemma batch_pool_ok (schedule : list nat) (w : W) :
  Forall2 (task_ok SearchEnvelope jsstring well_formed) queries
    (value (run_schedule W P SearchEnvelope schedule
              (start P (par_tasks (searchWebMultiple fault queries options)) w))).
Proof. apply schedule_ok, start_ok, batch_tasks_ok. Qed.

End Batch.

(** C6: whatever the order in which the requests complete,
    [searchWebMultiple] does not reject, and once all calls have settled
    it returns the queries, one envelope for each query at the position
    of the query and with that query, and as totalResults the sum of the
    totals; all calls have settled as soon as two requests have completed
    for each of them. *)
Theorem searchWebMultiple_aligned
  (W : Type) (P : Platform W) (fault : fault_oracle)
  (queries : list jsstring) (options : SearchOptions)
  (schedule : list nat) (w : W) :
  (forall out,
     run_par P (searchWebMultiple fault queries options) schedule w = Some out ->
     exists m,
       value out = Ok m
       /\ MultiQueryEnvelope.queries m = queries
       /\ length (MultiQueryEnvelope.results m) = length queries
       /\ (forall i q,
             nth_error queries i = Some q ->
             exists env,
               nth_error (MultiQueryEnvelope.results m) i = Some env
               /\ query env = q)
       /\ MultiQueryEnvelope.totalResults m
          = list_sum (map total (MultiQueryEnvelope.results m)))
  /\ ((forall i, i < length queries -> 2 <= count_occ Nat.eq_dec schedule i) ->
      exists out,
        run_par P (searchWebMultiple fault queries options) schedule w = Some out).
Proof.
  pose proof (batch_pool_ok W P fault queries options schedule w) as Hok.
  unfold run_par.
  fold (run_schedule W P SearchEnvelope schedule
          (start P (par_tasks (searchWebMultiple fault queries options)) w)).
  set (pool := run_schedule W P SearchEnvelope schedule _) in *.
  split.
  - intros out.
    destruct (settled (value pool)) as [[l|e]|] eqn:E; [| |discriminate].
    + intros [= <-]. cbn [searchWebMultiple par_then bind now run].
      destruct (read_clock P (final pool)) as [t w']. cbn [value after].
      eexists. split; [reflexivity|].
      cbn [MultiQueryEnvelope.queries MultiQueryEnvelope.results
           MultiQueryEnvelope.totalResults].
      pose proof (settled_ok _ _ _ _ _ Hok l E) as Hl.
      split; [reflexivity|]. split; [symmetry; eapply Forall2_length, Hl|].
      split; [|apply (fold_left_total l 0)].
      intros i q Hi.
      destruct (Forall2_nth_error _ _ _ Hl i q Hi) as (env & Henv & Hwf).
      exists env. split; [exact Henv|].
      destruct Hwf as [(H & _)|[(H & _)|(H & _)]]; exact H.
    + now destruct (settled_no_throw _ _ _ _ _ Hok e).
  - intros Hfair.
    assert (Hz : Forall (awaits 0) (value pool)).
    { pose proof (schedule_within W P SearchEnvelope jsstring well_formed queries
                    schedule (fun _ => 2)
                    (start P (par_tasks (searchWebMultiple fault queries options)) w)
                    (start_ok W P _ _ _ _ _ w (batch_tasks_ok fault queries options))
                    (start_within W P _ 2 _ w (batch_tasks_await fault queries options)))
        as Hw.
      fold pool in Hw. apply Forall_forall. intros p Hp.
      apply In_nth_error in Hp. destruct Hp as (i & Hi).
      specialize (Hw i p Hi). cbn beta in Hw.
      assert (Hlt : i < length queries).
      { rewrite (Forall2_length Hok). apply nth_error_Some. now rewrite Hi. }
      specialize (Hfair i Hlt).
      replace (2 - count_occ Nat.eq_dec schedule i) with 0 in Hw by lia.
      exact Hw. }
    destruct (settled_done _ _ _ _ _ Hok Hz) as (l & ->).
    eexists. reflexivity.
Qed.

(** The request of b completes before that of a. *)
Lemma searchWebMultiple_aligned_witness :
  (forall i, i < length [lit "a"; lit "b"] ->
             2 <= count_occ Nat.eq_dec [1; 0; 1; 0] i)
  /\ exists out m,
       run_par two_pages (searchWebMultiple no_fault [lit "a"; lit "b"] no_options)
         [1; 0; 1; 0] 0 = Some out
       /\ value out = Ok m
       /\ map query (MultiQueryEnvelope.results m) = [lit "a"; lit "b"]
       /\ map total (MultiQueryEnvelope.results m) = [2; 2]
       /\ MultiQueryEnvelope.totalResults m = 4.
Proof.
  assert (Hfair : forall i, i < length [lit "a"; lit "b"] ->
                            2 <= count_occ Nat.eq_dec [1; 0; 1; 0] i).
  { intros [|[|i]] Hi; simpl in *; lia. }
  split; [exact Hfair|].
  destruct (searchWebMultiple_aligned nat two_pages no_fault [lit "a"; lit "b"]
              no_options [1; 0; 1; 0] 0) as [Haligned Hsettles].
  destruct (Hsettles Hfair) as (out & Hout).
  destruct (Haligned out Hout) as (m & Hm & _).
  exists out, m. split; [exact Hout|]. split; [exact Hm|].
  vm_compute in Hout. injection Hout as <-. injection Hm as <-.
  repeat split.
Defined.

(** * Further properties *)

(** ** Text before a separator *)

Lemma char_eqb_eq (a b : char) : char_eqb a b = true <-> a = b.
Proof. apply N.eqb_eq. Qed.

Lemma split_go_first (c : char) (s : jsstring) :
  forall cur, nth 0 (split_go [c] 0 cur s) [] = rev cur ++ before c s.
Proof.
  induction s as [|x s IH]; intros cur.
  - simpl. now rewrite app_nil_r.
  - cbn [split_go startsWith before]. rewrite andb_true_r.
    destruct (char_eqb c x).
    + simpl. now rewrite app_nil_r.
    + rewrite IH. simpl. now rewrite <- app_assoc.
Qed.

Lemma split_first (c : char) (s : jsstring) :
  nth 0 (split [c] s) [] = before c s.
Proof. unfold split. now rewrite split_go_first. Qed.

Lemma before_free (c : char) (s : jsstring) : free_of c (before c s).
Proof.
  induction s as [|x s IH]; simpl; [constructor|].
  destruct (char_eqb c x) eqn:E; constructor; auto.
Qed.

Lemma before_prefix (c : char) (s : jsstring) : is_prefix (before c s) s.
Proof.
  induction s as [|x s (t & IH)]; simpl; [now exists []|].
  destruct (char_eqb c x).
  - now exists (x :: s).
  - exists t. simpl. now rewrite <- IH.
Qed.

Lemma before_id (c : char) (s : jsstring) : free_of c s -> before c s = s.
Proof.
  intros H. induction H as [|x s Hx H IH]; simpl; [reflexivity|].
  now rewrite Hx, IH.
Qed.

Lemma before_keeps_free (c d : char) (s : jsstring) :
  free_of d s -> free_of d (before c s).
Proof.
  intros H. induction H as [|x s Hx H IH]; simpl; [constructor|].
  destruct (char_eqb c x); constructor; auto.
Qed.

Lemma is_prefix_trans (a b c : jsstring) :
  is_prefix a b -> is_prefix b c -> is_prefix a c.
Proof.
  intros (t & ->) (t' & ->). exists (t ++ t'). now rewrite app_assoc.
Qed.

Lemma startsWith_app (p s t : jsstring) :
  startsWith p s = true -> startsWith p (s ++ t) = true.
Proof.
  revert s. induction p as [|x p IH]; intros [|y s]; simpl; auto; try discriminate.
  intros H. apply andb_true_iff in H. destruct H as [-> H]. simpl. now apply IH.
Qed.

Lemma includes_app (p s t : jsstring) :
  includes p s = true -> includes p (s ++ t) = true.
Proof.
  induction s as [|y s IH].
  - cbn [includes]. rewrite orb_false_r. intros H.
    destruct p; [|discriminate]. now destruct t.
  - cbn [includes app]. intros H. apply orb_true_iff in H.
    apply orb_true_iff. destruct H as [H|H].
    + left. now apply (startsWith_app p (y :: s) t).
    + right. now apply IH.
Qed.

Lemma includes_prefix (p s u : jsstring) :
  is_prefix s u -> includes p u = false -> includes p s = false.
Proof.
  intros (t & ->) H. destruct (includes p s) eqn:E; [|reflexivity].
  now rewrite (includes_app p s t E) in H.
Qed.

(** [cleanUrl] in closed form. *)
Lemma cleanUrl_before (u : jsstring) :
  cleanUrl u = before (chr "?") (before (chr "&") u).
Proof.
  unfold cleanUrl.
  change (lit "?") with [chr "?"]. change (lit "&") with [chr "&"].
  now rewrite !split_first.
Qed.

(** ** The addresses and titles of the HTML extractor *)

(** X1: URL canonicalization is idempotent, returns a beginning of the
    address, leaves no ampersand and no question mark in it, and changes
    nothing in an address that has neither. *)
Theorem cleanUrl_canonical (u : jsstring) :
  cleanUrl (cleanUrl u) = cleanUrl u
  /\ is_prefix (cleanUrl u) u
  /\ free_of (chr "&") (cleanUrl u)
  /\ free_of (chr "?") (cleanUrl u)
  /\ (free_of (chr "&") u -> free_of (chr "?") u -> cleanUrl u = u).
Proof.
  rewrite !cleanUrl_before.
  assert (Ha : free_of (chr "&") (before (chr "?") (before (chr "&") u)))
    by apply before_keeps_free, before_free.
  assert (Hq : free_of (chr "?") (before (chr "?") (before (chr "&") u)))
    by apply before_free.
  split; [|split; [|split; [exact Ha|split; [exact Hq|]]]].
  - now rewrite (before_id (chr "&") _ Ha), (before_id (chr "?") _ Hq).
  - eapply is_prefix_trans; apply before_prefix.
  - intros H1 H2. now rewrite (before_id _ _ H1), (before_id _ _ H2).
Qed.

Lemma modern_body_off_provider (m : MatchResult) (links : list Link.t) :
  Forall off_provider links -> Forall off_provider (modern_body m links).
Proof.
  unfold modern_body. intros H.
  destruct (includes (lit "duckduckgo.com") (group 1 m)) eqn:Hd;
    cbn [negb andb]; [exact H|].
  destruct (startsWith (lit "http") (group 1 m)); [|exact H].
  apply Forall_app. split; [exact H|]. repeat constructor. exact Hd.
Qed.

(** No link that the scans keep points to the provider. *)
Lemma scan_candidates_off_provider (fault : fault_oracle) (html : jsstring)
  (limit : Z) (links : list Link.t) (snippets : list jsstring) :
  scan_candidates fault html limit = Ok (links, snippets) ->
  Forall off_provider links.
Proof.
  unfold scan_candidates.
  destruct (primary_links fault html limit) as [links0|e] eqn:Ep; [|discriminate].
  assert (H0 : Forall off_provider links0).
  { revert Ep. apply while_exec_inv; [|constructor].
    intros m st Hst _. now apply modern_body_off_provider. }
  destruct (snippet_texts fault html limit) as [sn|e]; [|discriminate].
  destruct (Nat.eqb (length links0) 0).
  - destruct (fallback_links fault html limit links0) as [links1|e] eqn:Ef;
      [|discriminate].
    intros [= <- _]. revert Ef. apply while_exec_inv; [|exact H0].
    intros m st Hst _. now apply generic_body_off_provider.
  - now intros [= <- _].
Qed.

(** The results, with the links they are made of. *)
Lemma parse_results (fault : fault_oracle) (html : jsstring) (limit : Z)
  (r : SearchResult) :
  In r (fst (parseDuckDuckGoResults fault html limit)) ->
  exists links snippets i,
    scan_candidates fault html limit = Ok (links, snippets)
    /\ i < length links /\ (Z.of_nat i < limit)%Z
    /\ r = combined links snippets i.
Proof.
  destruct (parse_cases fault html limit)
    as [(e & _ & ->)|(links & snippets & Hs & ->)]; [intros []|].
  intros Hr. apply in_map_iff in Hr. destruct Hr as (i & <- & Hi).
  apply in_seq in Hi. unfold rounds in Hi.
  exists links, snippets, i. repeat split; auto; lia.
Qed.

(** X2: no result of the HTML extractor has an address that contains the
    provider's domain. *)
Theorem parseDuckDuckGoResults_off_provider
  (fault : fault_oracle) (html : jsstring) (limit : Z) :
  Forall (fun r => includes (lit "duckduckgo.com") (url r) = false)
    (fst (parseDuckDuckGoResults fault html limit)).
Proof.
  apply Forall_forall. intros r Hr.
  destruct (parse_results fault html limit r Hr)
    as (links & snippets & i & Hs & Hi & _ & ->).
  apply scan_candidates_off_provider in Hs. rewrite Forall_forall in Hs.
  cbn [combined url].
  apply includes_prefix with (Link.url (nth i links (Link.mk [] []))).
  - rewrite cleanUrl_before. eapply is_prefix_trans; apply before_prefix.
  - apply Hs. now apply nth_In.
Qed.

(** X3: the address of every result of the HTML extractor is cut before
    the first ampersand and the first question mark: it contains neither,
    and canonicalizing it again changes nothing. *)
Theorem parseDuckDuckGoResults_canonical_urls
  (fault : fault_oracle) (html : jsstring) (limit : Z) :
  Forall (fun r =>
            free_of (chr "&") (url r) /\ free_of (chr "?") (url r)
            /\ cleanUrl (url r) = url r)
    (fst (parseDuckDuckGoResults fault html limit)).
Proof.
  apply Forall_forall. intros r Hr.
  destruct (parse_results fault html limit r Hr)
    as (links & snippets & i & _ & _ & _ & ->).
  cbn [combined url]. set (u := Link.url _).
  rewrite !cleanUrl_before.
  assert (Ha : free_of (chr "&") (before (chr "?") (before (chr "&") u)))
    by apply before_keeps_free, before_free.
  assert (Hq : free_of (chr "?") (before (chr "?") (before (chr "&") u)))
    by apply before_free.
  split; [exact Ha|]. split; [exact Hq|].
  now rewrite (before_id (chr "&") _ Ha), (before_id (chr "?") _ Hq).
Qed.

(** ** The matcher is sound

    Whatever [rmatch] accepts is in the language of the pattern, and the
    captures it adds are texts of the groups. *)

Lemma one_sound (p : char -> bool) (s : jsstring) (caps : captures)
  (k : cont) res :
  one p s caps k = Some res ->
  exists c rest, s = c :: rest /\ p c = true /\ k rest caps = Some res.
Proof.
  destruct s as [|c s]; simpl; [discriminate|].
  destruct (p c) eqn:E; [|discriminate]. intros H. now exists c, s.
Qed.

Lemma star_greedy_sound (p : char -> bool) (s : jsstring) (caps : captures)
  (k : cont) res :
  star_greedy p s caps k = Some res ->
  exists w rest,
    s = w ++ rest /\ Forall (fun c => p c = true) w /\ k rest caps = Some res.
Proof.
  induction s as [|c s IH]; simpl.
  - intros H. now exists [], [].
  - destruct (p c) eqn:E; [|intros H; now exists [], (c :: s)].
    destruct (star_greedy p s caps k) as [res'|] eqn:Es.
    + intros [= <-]. destruct (IH eq_refl) as (w & rest & -> & Hw & Hk).
      exists (c :: w), rest. repeat split; auto.
    + intros H. now exists [], (c :: s).
Qed.

Lemma star_lazy_sound (p : char -> bool) (s : jsstring) (caps : captures)
  (k : cont) res :
  star_lazy p s caps k = Some res ->
  exists w rest,
    s = w ++ rest /\ Forall (fun c => p c = true) w /\ k rest caps = Some res.
Proof.
  induction s as [|c s IH]; simpl.
  - destruct (k [] caps) eqn:E; [|discriminate].
    intros [= <-]. now exists [], [].
  - destruct (k (c :: s) caps) eqn:E.
    + intros [= <-]. now exists [], (c :: s).
    + destruct (p c) eqn:Ep; [|discriminate]. intros H.
      destruct (IH H) as (w & rest & -> & Hw & Hk).
      exists (c :: w), rest. repeat split; auto.
Qed.

Lemma star_sound (p : char -> bool) (g : bool) (s : jsstring) (caps : captures)
  (k : cont) res :
  star p g s caps k = Some res ->
  exists w rest,
    s = w ++ rest /\ Forall (fun c => p c = true) w /\ k rest caps = Some res.
Proof.
  destruct g; [apply star_greedy_sound | apply star_lazy_sound].
Qed.

Lemma captured_refl (ic : bool) (r : regex) (caps : captures) :
  captured ic r caps caps.
Proof. intros n t H. now left. Qed.

Lemma firstn_consumed (w rest : jsstring) :
  firstn (length (w ++ rest) - length rest) (w ++ rest) = w.
Proof.
  rewrite length_app, Nat.add_sub. rewrite firstn_app, Nat.sub_diag.
  now rewrite firstn_all, firstn_O, app_nil_r.
Qed.

Lemma rmatch_sound (ic : bool) (r : regex) :
  forall (s : jsstring) (caps : captures) (k : cont) res,
    rmatch ic r s caps k = Some res -> consumes ic r s caps k res.
Proof.
  induction r as [|a|r1 IH1 r2 IH2|r1 IH1 r2 IH2|g a|g a|a|n r IH|r IH|];
    intros s caps k res; cbn [rmatch]; intros H.
  - exists [], s, caps. repeat split; auto. apply captured_refl.
  - apply one_sound in H. destruct H as (c & rest & -> & Hc & Hk).
    exists [c], rest, caps. repeat split; auto.
    + now exists c.
    + apply captured_refl.
  - apply IH1 in H. destruct H as (w1 & rest1 & caps1 & -> & L1 & H & C1).
    apply IH2 in H. destruct H as (w2 & rest & caps2 & -> & L2 & H & C2).
    exists (w1 ++ w2), rest, caps2. split; [now rewrite app_assoc|].
    split; [now exists w1, w2|]. split; [exact H|].
    intros n t Hin. destruct (C2 n t Hin) as [Hin1|Hg]; [|right; now right].
    destruct (C1 n t Hin1) as [Hin0|Hg]; [now left|right; now left].
  - destruct (rmatch ic r1 s caps k) as [res'|] eqn:E.
    + injection H as <-. apply IH1 in E.
      destruct E as (w & rest & caps' & -> & L & H & C).
      exists w, rest, caps'. repeat split; auto; [now left|].
      intros n t Hin. destruct (C n t Hin); [now left|right; now left].
    + apply IH2 in H. destruct H as (w & rest & caps' & -> & L & H & C).
      exists w, rest, caps'. repeat split; auto; [now right|].
      intros n t Hin. destruct (C n t Hin); [now left|right; now right].
  - apply star_sound in H. destruct H as (w & rest & -> & Hw & Hk).
    exists w, rest, caps. repeat split; auto. apply captured_refl.
  - apply one_sound in H. destruct H as (c & rest1 & -> & Hc & H).
    apply star_sound in H. destruct H as (w & rest & -> & Hw & Hk).
    exists (c :: w), rest, caps. repeat split; auto; [discriminate|].
    apply captured_refl.
  - destruct (one (atom_matches ic a) s caps k) as [res'|] eqn:E.
    + injection H as <-. apply one_sound in E.
      destruct E as (c & rest & -> & Hc & Hk).
      exists [c], rest, caps. repeat split; auto; [right; now exists c|].
      apply captured_refl.
    + exists [], s, caps. repeat split; auto; [now left|]. apply captured_refl.
  - apply IH in H. destruct H as (w & rest & caps' & -> & L & H & C).
    rewrite firstn_consumed in H.
    exists w, rest, (set_capture n w caps'). repeat split; auto.
    intros m t [[= <- <-]|Hin].
    + right. left. split; [reflexivity|now exists rest].
    + destruct (C m t Hin); [now left|right; now right].
  - destruct (rmatch ic r s caps _) as [[s1 caps1]|] eqn:E; [|discriminate].
    apply IH in E. destruct E as (w & rest & caps' & -> & L & [= <- <-] & C).
    exists [], (w ++ rest), caps'. repeat split; auto.
    now exists w, rest.
  - destruct s; [|discriminate].
    exists [], [], caps. repeat split; auto. apply captured_refl.
Qed.

Lemma match_here_sound (re : RegExp) (s rest : jsstring) (caps : captures) :
  match_here re s = Some (rest, caps) ->
  exists w,
    s = w ++ rest
    /\ lang (ignoreCase re) (Regex.source re) w rest
    /\ forall n t, In (n, t) caps ->
                   group_lang (ignoreCase re) (Regex.source re) n t.
Proof.
  unfold match_here. intros H. apply rmatch_sound in H.
  destruct H as (w & rest' & caps' & -> & L & [= <- <-] & C).
  exists w. repeat split; auto.
  intros n t Hin. destruct (C n t Hin) as [[]|Hg]. exact Hg.
Qed.

(** The groups on the spine of a pattern are set by every match, and a
    match unsets no group. *)
Lemma rmatch_spine (ic : bool) (r : regex) :
  forall (s : jsstring) (caps : captures) (k : cont) res,
    rmatch ic r s caps k = Some res ->
    exists s' caps',
      k s' caps' = Some res
      /\ (forall n, capture n caps <> None -> capture n caps' <> None)
      /\ (forall n, In n (spine r) -> capture n caps' <> None).
Proof.
  induction r as [|a|r1 IH1 r2 IH2|r1 IH1 r2 IH2|g a|g a|a|n r IH|r IH|];
    intros s caps k res; cbn [rmatch spine]; intros H.
  - exists s, caps. repeat split; auto; intros ? [].
  - apply one_sound in H. destruct H as (c & rest & -> & Hc & Hk).
    exists rest, caps. repeat split; auto; intros ? [].
  - apply IH1 in H. destruct H as (s1 & caps1 & H & M1 & S1).
    apply IH2 in H. destruct H as (s2 & caps2 & H & M2 & S2).
    exists s2, caps2. split; [exact H|]. split; [auto|].
    intros n Hn. apply in_app_or in Hn. destruct Hn; auto.
  - destruct (rmatch ic r1 s caps k) as [res'|] eqn:E.
    + injection H as <-. apply IH1 in E. destruct E as (s1 & caps1 & H & M1 & _).
      exists s1, caps1. repeat split; auto; intros ? [].
    + apply IH2 in H. destruct H as (s1 & caps1 & H & M1 & _).
      exists s1, caps1. repeat split; auto; intros ? [].
  - apply star_sound in H. destruct H as (w & rest & -> & Hw & Hk).
    exists rest, caps. repeat split; auto; intros ? [].
  - apply one_sound in H. destruct H as (c & rest1 & -> & Hc & H).
    apply star_sound in H. destruct H as (w & rest & -> & Hw & Hk).
    exists rest, caps. repeat split; auto; intros ? [].
  - destruct (one (atom_matches ic a) s caps k) as [res'|] eqn:E.
    + injection H as <-. apply one_sound in E.
      destruct E as (c & rest & -> & Hc & Hk).
      exists rest, caps. repeat split; auto; intros ? [].
    + exists s, caps. repeat split; auto; intros ? [].
  - apply IH in H. destruct H as (s1 & caps1 & H & M1 & S1).
    eexists s1, _. split; [exact H|]. unfold set_capture. split.
    + intros m Hm. cbn [capture]. destruct (Nat.eqb m n); [discriminate|auto].
    + intros m [<-|Hm]; cbn [capture].
      * now rewrite Nat.eqb_refl.
      * destruct (Nat.eqb m n); [discriminate|auto].
  - destruct (rmatch ic r s caps _) as [[s1 caps1]|] eqn:E; [|discriminate].
    apply IH in E. destruct E as (s2 & caps2 & [= <- <-] & M & S).
    exists s, caps2. repeat split; auto.
  - destruct s; [|discriminate].
    exists [], caps. repeat split; auto; intros ? [].
Qed.

Lemma infix_refl (s : jsstring) : infix s s.
Proof. exists [], []. now rewrite app_nil_r. Qed.

Lemma infix_app (t s a b : jsstring) : infix t s -> infix t (a ++ s ++ b).
Proof.
  intros (x & y & ->). exists (a ++ x), (y ++ b). now rewrite <- !app_assoc.
Qed.

Lemma infix_trans (a b c : jsstring) : infix a b -> infix b c -> infix a c.
Proof.
  intros H (x & y & ->). now apply infix_app.
Qed.

Lemma infix_suffix (t w s : jsstring) : infix t s -> infix t (w ++ s).
Proof.
  intros H. rewrite <- (app_nil_r s). now apply infix_app.
Qed.

Lemma infix_prefix (w s : jsstring) : infix w (w ++ s).
Proof. now exists [], s. Qed.

(** Every text that a match captures occurs in the input. *)
Lemma rmatch_infix (ic : bool) (r : regex) :
  forall (s : jsstring) (caps : captures) (k : cont) res,
    rmatch ic r s caps k = Some res ->
    exists s' caps',
      k s' caps' = Some res
      /\ (exists w, s = w ++ s')
      /\ (forall n t, In (n, t) caps' -> In (n, t) caps \/ infix t s).
Proof.
  induction r as [|a|r1 IH1 r2 IH2|r1 IH1 r2 IH2|g a|g a|a|n r IH|r IH|];
    intros s caps k res; cbn [rmatch]; intros H.
  - exists s, caps. split; [exact H|]. split; [now exists []|auto].
  - apply one_sound in H. destruct H as (c & rest & -> & Hc & Hk).
    exists rest, caps. split; [exact Hk|]. split; [now exists [c]|auto].
  - apply IH1 in H. destruct H as (s1 & caps1 & H & (w1 & ->) & C1).
    apply IH2 in H. destruct H as (s2 & caps2 & H & (w2 & ->) & C2).
    exists s2, caps2. split; [exact H|]. split.
    + exists (w1 ++ w2). now rewrite app_assoc.
    + intros n t Hin. destruct (C2 n t Hin) as [Hin1|Hi].
      * apply C1, Hin1.
      * right. now apply infix_suffix.
  - destruct (rmatch ic r1 s caps k) as [res'|] eqn:E.
    + injection H as <-. now apply IH1.
    + now apply IH2.
  - apply star_sound in H. destruct H as (w & rest & -> & Hw & Hk).
    exists rest, caps. split; [exact Hk|]. split; [now exists w|auto].
  - apply one_sound in H. destruct H as (c & rest1 & -> & Hc & H).
    apply star_sound in H. destruct H as (w & rest & -> & Hw & Hk).
    exists rest, caps. split; [exact Hk|]. split; [now exists (c :: w)|auto].
  - destruct (one (atom_matches ic a) s caps k) as [res'|] eqn:E.
    + injection H as <-. apply one_sound in E.
      destruct E as (c & rest & -> & Hc & Hk).
      exists rest, caps. split; [exact Hk|]. split; [now exists [c]|auto].
    + exists s, caps. split; [exact H|]. split; [now exists []|auto].
  - apply IH in H. destruct H as (s1 & caps1 & H & (w & ->) & C1).
    rewrite firstn_consumed in H.
    exists s1, (set_capture n w caps1). split; [exact H|].
    split; [now exists w|]. intros m t [[= <- <-]|Hin].
    + right. apply infix_prefix.
    + apply C1, Hin.
  - destruct (rmatch ic r s caps _) as [[s1 caps1]|] eqn:E; [|discriminate].
    apply IH in E. destruct E as (s2 & caps2 & [= <- <-] & _ & C).
    exists s, caps2. split; [exact H|]. split; [now exists []|exact C].
  - destruct s; [|discriminate].
    exists [], caps. split; [exact H|]. split; [now exists []|auto].
Qed.

Lemma match_here_infix (re : RegExp) (s rest : jsstring) (caps : captures) :
  match_here re s = Some (rest, caps) ->
  forall n t, In (n, t) caps -> infix t s.
Proof.
  unfold match_here. intros H. apply rmatch_infix in H.
  destruct H as (s' & caps' & [= <- <-] & _ & C).
  intros n t Hin. destruct (C n t Hin) as [[]|Hi]. exact Hi.
Qed.

Lemma match_here_spine (re : RegExp) (s rest : jsstring) (caps : captures) :
  match_here re s = Some (rest, caps) ->
  forall n, In n (spine (Regex.source re)) -> capture n caps <> None.
Proof.
  unfold match_here. intros H. apply rmatch_spine in H.
  destruct H as (s' & caps' & [= <- <-] & _ & S). exact S.
Qed.

Lemma search_eq (re : RegExp) (pos : nat) (s : jsstring) :
  search re pos s
  = match match_here re s with
    | Some (s', caps) => Some (mkMatch pos (firstn (length s - length s') s) caps)
    | None =>
        match s with
        | [] => None
        | _ :: s' => search re (S pos) s'
        end
    end.
Proof. now destruct s. Qed.

Lemma search_sound (re : RegExp) (s : jsstring) :
  forall (pos : nat) (m : MatchResult),
    search re pos s = Some m -> matched_by re s m.
Proof.
  induction s as [|c s IH]; intros pos m; rewrite search_eq;
    (destruct (match_here re _) as [[rest caps]|] eqn:E;
     [intros H; pose proof (match_here_spine re _ rest caps E) as S;
      pose proof (match_here_infix re _ rest caps E) as Hinf;
      apply match_here_sound in E;
      destruct E as (w & Hw & L & C);
      assert (m = mkMatch pos w caps) as ->
        by (rewrite <- (firstn_consumed w rest), <- Hw; congruence);
      exists [], rest; cbn [m0 groups]; repeat split; auto|]).
  - discriminate.
  - intros H. apply IH in H. destruct H as (pre & rest & -> & L & C & S & Hinf).
    exists (c :: pre), rest. split; [reflexivity|]. split; [exact L|].
    split; [exact C|]. split; [exact S|].
    intros n t Hin. apply (infix_suffix t [c]). now apply (Hinf n t).
Qed.

Lemma exec_sound (re : RegExp) (s : jsstring) (lastIndex lastIndex' : nat)
  (m : MatchResult) :
  exec re s lastIndex = Some (m, lastIndex') -> matched_by re s m.
Proof.
  unfold exec. destruct (Nat.ltb (length s) lastIndex); [discriminate|].
  destruct (search re lastIndex (skipn lastIndex s)) as [m'|] eqn:E; [|discriminate].
  intros [= <- _]. apply search_sound in E.
  destruct E as (pre & rest & Hs & L & C & S & Hinf).
  exists (firstn lastIndex s ++ pre), rest. split.
  { rewrite <- app_assoc, <- Hs. now rewrite firstn_skipn. }
  split; [exact L|]. split; [exact C|]. split; [exact S|].
  intros n t Hin. rewrite <- (firstn_skipn lastIndex s).
  apply infix_suffix. now apply (Hinf n t).
Qed.

(** The text of a group is empty or a text of that group. *)
Lemma group_sound (re : RegExp) (s : jsstring) (m : MatchResult) (n : nat) :
  matched_by re s m ->
  group n m = []
  \/ group_lang (ignoreCase re) (Regex.source re) n (group n m).
Proof.
  intros (pre & rest & _ & _ & C & _). unfold group.
  destruct (capture n (groups m)) as [t|] eqn:E; [|now left].
  right. apply C. clear C. induction (groups m) as [|[k t'] caps IH]; simpl in *.
  - discriminate.
  - destruct (Nat.eqb_spec n k) as [->|Hne].
    + injection E as ->. now left.
    + right. now apply IH.
Qed.

Lemma match_all_eq (re : RegExp) (c : char) (s : jsstring) :
  match_all re 0 (c :: s)
  = match match_here re (c :: s) with
    | Some (rest, _) =>
        firstn (length (c :: s) - length rest) (c :: s)
        :: match_all re (length (c :: s) - length rest - 1) s
    | None => match_all re 0 s
    end.
Proof. reflexivity. Qed.

Lemma match_all_sound (re : RegExp) (s : jsstring) :
  forall (skip : nat) (u : jsstring),
    In u (match_all re skip s) ->
    exists pre rest,
      s = pre ++ u ++ rest
      /\ lang (ignoreCase re) (Regex.source re) u rest.
Proof.
  induction s as [|c s IH]; intros skip u.
  - cbn [match_all]. destruct skip; [|intros []].
    destruct (match_here re []) as [[rest caps]|] eqn:E; [|intros []].
    intros [<-|[]]. apply match_here_sound in E.
    destruct E as (w & Hw & L & _).
    symmetry in Hw. apply app_eq_nil in Hw. destruct Hw as [-> ->].
    now exists [], [].
  - destruct skip as [|skip].
    + rewrite match_all_eq.
      destruct (match_here re (c :: s)) as [[rest caps]|] eqn:E.
      * intros [Hu|Hin].
        -- apply match_here_sound in E. destruct E as (w & Hw & L & _).
           rewrite Hw, firstn_consumed in Hu. subst u. rewrite Hw.
           now exists [], rest.
        -- apply IH in Hin. destruct Hin as (pre & rest' & -> & L).
           now exists (c :: pre), rest'.
      * intros Hin. apply IH in Hin. destruct Hin as (pre & rest' & -> & L).
        now exists (c :: pre), rest'.
    + cbn [match_all]. intros Hin. apply IH in Hin.
      destruct Hin as (pre & rest' & -> & L).
      now exists (c :: pre), rest'.
Qed.

(** An invariant of a loop needs to be kept only for the matches that
    [exec] returns. *)
Section WhileMatched.
Variable fault : fault_oracle.
Variable St : Type.
Variable re : RegExp.
Variable s : jsstring.
Variable cond : St -> bool.
Variable body : MatchResult -> St -> St.
Variable Inv : St -> Prop.
Hypothesis body_keeps :
  forall m st, matched_by re s m -> Inv st -> cond st = true -> Inv (body m st).

Lemma while_exec_from_matched (fuel lastIndex : nat) (st st' : St) :
  Inv st ->
  while_exec_from fault re s cond body fuel lastIndex st = Ok st' ->
  Inv st'.
Proof.
  revert lastIndex st. induction fuel as [|fuel IH]; intros lastIndex st Hst; simpl.
  - intros [= <-]. exact Hst.
  - destruct (fault re s lastIndex); [discriminate|].
    destruct (exec re s lastIndex) as [[m lastIndex']|] eqn:E.
    + destruct (cond st) eqn:Hc.
      * apply IH. apply body_keeps; auto. eapply exec_sound, E.
      * intros [= <-]. exact Hst.
    + intros [= <-]. exact Hst.
Qed.

Lemma while_exec_matched (st st' : St) :
  Inv st -> while_exec fault re s cond body st = Ok st' -> Inv st'.
Proof. apply while_exec_from_matched. Qed.
End WhileMatched.

(** ** Where a match can begin *)

Lemma lang_first (ic : bool) (r : regex) :
  forall (a : atom) (w rest : jsstring),
    first_atom r = Some a -> lang ic r w rest ->
    exists c w', w = c :: w' /\ atom_matches ic a c = true.
Proof.
  induction r as [|a'|r1 IH1 r2 IH2|r1 IH1 r2 IH2|g a'|g a'|a'|n r IH|r IH|];
    intros a w rest; cbn [first_atom lang]; try discriminate.
  - intros [= <-] (c & -> & Hc). now exists c, [].
  - intros Hf (w1 & w2 & -> & L1 & _).
    destruct (IH1 a w1 _ Hf L1) as (c & w' & -> & Hc). now exists c, (w' ++ w2).
  - intros [= <-] (Hne & Hw). destruct Hw as [|c w Hc Hw]; [now destruct Hne|].
    now exists c, w.
  - apply IH.
Qed.

(** No match begins at a character that the first atom refuses, nor at
    the end of the input. *)
Lemma match_here_first (re : RegExp) (a : atom) (s : jsstring) :
  first_atom (Regex.source re) = Some a ->
  match s with
  | [] => True
  | c :: _ => atom_matches (ignoreCase re) a c = false
  end ->
  match_here re s = None.
Proof.
  intros Hf Hs. destruct (match_here re s) as [[rest caps]|] eqn:E; [|reflexivity].
  apply match_here_sound in E. destruct E as (w & -> & L & _).
  destruct (lang_first _ _ a w rest Hf L) as (c & w' & -> & Hc).
  simpl in Hs. congruence.
Qed.

Lemma search_first (re : RegExp) (a : atom) (s : jsstring) :
  first_atom (Regex.source re) = Some a ->
  Forall (fun c => atom_matches (ignoreCase re) a c = false) s ->
  forall pos, search re pos s = None.
Proof.
  intros Hf H. induction H as [|c s Hc H IH]; intros pos; rewrite search_eq.
  - now rewrite (match_here_first re a [] Hf).
  - rewrite (match_here_first re a (c :: s) Hf Hc). apply IH.
Qed.

Lemma exec_first (re : RegExp) (a : atom) (s : jsstring) (lastIndex : nat) :
  first_atom (Regex.source re) = Some a ->
  Forall (fun c => atom_matches (ignoreCase re) a c = false) s ->
  exec re s lastIndex = None.
Proof.
  intros Hf H. unfold exec. destruct (Nat.ltb (length s) lastIndex); [reflexivity|].
  rewrite (search_first re a (skipn lastIndex s) Hf); [reflexivity|].
  rewrite <- (firstn_skipn lastIndex s) in H. apply Forall_app in H. apply H.
Qed.

(** A loop over an input in which no match can begin leaves its state as
    it is, if the engine does not give up on the one call it makes. *)
Lemma while_exec_first (fault : fault_oracle) (St : Type) (re : RegExp)
  (a : atom) (s : jsstring) (cond : St -> bool)
  (body : MatchResult -> St -> St) (st : St) :
  first_atom (Regex.source re) = Some a ->
  Forall (fun c => atom_matches (ignoreCase re) a c = false) s ->
  forall st', while_exec fault re s cond body st = Ok st' -> st' = st.
Proof.
  intros Hf H st'. unfold while_exec. cbn [while_exec_from].
  destruct (fault re s 0); [discriminate|].
  rewrite (exec_first re a s 0 Hf H). now intros [= <-].
Qed.

Lemma replace_all_first (re : RegExp) (a : atom) (repl s : jsstring) :
  first_atom (Regex.source re) = Some a ->
  Forall (fun c => atom_matches (ignoreCase re) a c = false) s ->
  replace_all re repl 0 s = s.
Proof.
  intros Hf H. induction H as [|c s Hc H IH]; cbn [replace_all].
  - now rewrite (match_here_first re a [] Hf).
  - rewrite (match_here_first re a (c :: s) Hf Hc). now rewrite IH.
Qed.

(** A literal character, and its negated class, without the [i] flag and
    with it when the character is no letter. *)
Lemma canonicalize_other (ic : bool) (x c : char) :
  in_range 65%N 90%N x = false -> in_range 97%N 122%N x = false ->
  char_eqb (canonicalize ic x) (canonicalize ic c) = char_eqb x c.
Proof.
  unfold canonicalize, in_range, char_eqb. intros Hu Hl.
  destruct ic; cbn [andb]; [|reflexivity]. rewrite Hl.
  destruct (N.leb 97%N c && N.leb c 122%N) eqn:E; [|reflexivity].
  apply andb_true_iff in E. destruct E as [E1 E2].
  apply N.leb_le in E1, E2.
  apply andb_false_iff in Hu.
  apply andb_false_iff in Hl.
  destruct (N.eqb_spec x (c - 32)%N) as [Hx1|Hx1];
    destruct (N.eqb_spec x c) as [Hx2|Hx2]; try reflexivity; exfalso.
  - destruct Hu as [Hu|Hu]; apply N.leb_gt in Hu; lia.
  - destruct Hl as [Hl|Hl]; apply N.leb_gt in Hl; lia.
Qed.

(** ** The results of the citation extractor *)

Lemma atom_lit_exact (x c : char) :
  atom_matches false (ALit x) c = true -> c = x.
Proof.
  cbn [atom_matches canonicalize andb]. intros H.
  apply char_eqb_eq in H. now symmetry.
Qed.

(** Without the [i] flag a literal text matches itself only. *)
Lemma lang_chars (l : jsstring) :
  forall w rest, lang false (chars l) w rest -> w = l.
Proof.
  induction l as [|x l IH]; intros w rest; cbn [chars lang].
  - auto.
  - destruct l as [|y l].
    + cbn [lang]. intros (c & -> & Hc). now rewrite (atom_lit_exact x c Hc).
    + cbn [lang]. intros (w1 & w2 & -> & (c & -> & Hc) & L2).
      rewrite (atom_lit_exact x c Hc). apply IH in L2. now rewrite L2.
Qed.

Lemma or_else_nonempty (a b : jsstring) : b <> [] -> or_else a b <> [].
Proof. unfold or_else. destruct a; simpl; [auto|discriminate]. Qed.

Lemma result_n_nonempty (n : nat) : result_n n <> [].
Proof. unfold result_n. discriminate. Qed.

(** What [urlRegex] matches. *)
Lemma url_lang (u rest : jsstring) :
  lang false (Regex.source urlRegex) u rest -> http_url u.
Proof.
  unfold urlRegex. cbn [Regex.source seq lang]. unfold str.
  intros (w1 & w2 & -> & L1 & w3 & w4 & -> & L3 & w5 & w6 & -> & L5 & Hne & Hrun).
  apply lang_chars in L1, L5. subst w1 w5.
  assert (Hr : Forall (fun c => is_space c = false /\ char_eqb (chr ")") c = false) w6).
  { eapply Forall_impl; [|exact Hrun]. intros c Hc.
    cbn [atom_matches existsb citem_matches canonicalize andb xorb orb] in Hc.
    apply negb_true_iff in Hc. apply orb_false_iff in Hc.
    destruct Hc as [H1 H2]. apply orb_false_iff in H2. tauto. }
  assert (Hs : Forall (fun c => is_space c = false) w6)
    by (eapply Forall_impl; [|exact Hr]; tauto).
  assert (Hp : free_of (chr ")") w6)
    by (eapply Forall_impl; [|exact Hr]; tauto).
  destruct L3 as [->|(c & -> & Hc)].
  - split; [reflexivity|]. split.
    + apply Forall_app. split; [repeat constructor|].
      apply Forall_app. split; [constructor|].
      apply Forall_app. split; [repeat constructor|exact Hs].
    + apply Forall_app. split; [repeat constructor|].
      apply Forall_app. split; [constructor|].
      apply Forall_app. split; [repeat constructor|exact Hp].
  - rewrite (atom_lit_exact _ c Hc). split; [reflexivity|]. split.
    + apply Forall_app. split; [repeat constructor|].
      apply Forall_app. split; [repeat constructor|].
      apply Forall_app. split; [repeat constructor|exact Hs].
    + apply Forall_app. split; [repeat constructor|].
      apply Forall_app. split; [repeat constructor|].
      apply Forall_app. split; [repeat constructor|exact Hp].
Qed.

Lemma match_g_first (re : RegExp) (s u : jsstring) (us : list jsstring) :
  match_g re s = Some (u :: us) ->
  exists rest, lang (ignoreCase re) (Regex.source re) u rest.
Proof.
  unfold match_g. destruct (match_all re 0 s) as [|u' us'] eqn:E; [discriminate|].
  intros [= <- <-].
  destruct (match_all_sound re s 0 u') as (pre & rest & _ & L).
  - rewrite E. now left.
  - now exists rest.
Qed.

Lemma citation_body_keeps (limit : Z) (m : MatchResult)
  (st : nat * list SearchResult) :
  citation_inv limit st ->
  Z.ltb (Z.of_nat (length (snd st))) limit = true ->
  citation_inv limit (citation_body m st).
Proof.
  destruct st as [n rs]. unfold citation_inv. cbn [fst snd].
  intros (Hn & Hlen & Hrank & Hok) Hc. apply Z.ltb_lt in Hc.
  unfold citation_body.
  destruct (match_g urlRegex (trim (group 2 m))) as [[|u us]|] eqn:E;
    cbn [fst snd]; auto.
  destruct (truthy u); cbn [fst snd]; auto.
  rewrite length_app, map_app, seq_app. cbn [length map rank List.seq].
  repeat split.
  - lia.
  - lia.
  - rewrite Hrank. do 2 f_equal. lia.
  - apply Forall_app. split; [exact Hok|]. constructor; [|constructor].
    unfold citation_ok. cbn [title snippet url]. split; [|split].
    + apply or_else_nonempty, result_n_nonempty.
    + now apply substring0_length.
    + apply match_g_first in E. destruct E as (rest & L).
      now apply url_lang with rest.
Qed.

Lemma parsePerplexityResults_inv (fault : fault_oracle) (content : jsstring)
  (limit : Z) (rs : list SearchResult) :
  parsePerplexityResults fault content limit = Ok rs ->
  (Z.of_nat (length rs) <= Z.max 0 limit)%Z
  /\ map rank rs = List.seq 1 (length rs)
  /\ Forall citation_ok rs.
Proof.
  unfold parsePerplexityResults.
  destruct (while_exec fault citationRegex content _ citation_body (1, []))
    as [[n rs']|e] eqn:E; [|discriminate].
  intros [= <-].
  assert (H : citation_inv limit (n, rs')).
  { revert E. apply while_exec_inv.
    - intros m st. apply citation_body_keeps.
    - unfold citation_inv. cbn. repeat split; try lia. constructor. }
  destruct H as (_ & H1 & H2 & H3). auto.
Qed.

(** X4: when the citation extractor returns, it returns at most [limit]
    results (none for a limit of zero or less), and their ranks are
    1, 2, ..., length in this order: a citation without an address takes
    no rank. *)
Theorem parsePerplexityResults_length_rank
  (fault : fault_oracle) (content : jsstring) (limit : Z)
  (rs : list SearchResult) :
  parsePerplexityResults fault content limit = Ok rs ->
  (Z.of_nat (length rs) <= Z.max 0 limit)%Z
  /\ map rank rs = List.seq 1 (length rs).
Proof.
  intros H. apply parsePerplexityResults_inv in H. tauto.
Qed.

Lemma parsePerplexityResults_length_rank_witness :
  (Z.of_nat 1 <= Z.max 0 1)%Z
  /\ map rank [mkResult (lit "Example Site") (lit "https://example.com")
                 (lit "more info") 1] = List.seq 1 1.
Proof.
  apply (parsePerplexityResults_length_rank no_fault citation_example 1
           [mkResult (lit "Example Site") (lit "https://example.com")
              (lit "more info") 1]).
  vm_compute. reflexivity.
Defined.

(** X5: every result of the citation extractor has a non-empty title, a
    snippet of at most 200 code units, and an address that begins with
    http:// or https:// and contains neither white space nor a closing
    parenthesis. *)
Theorem parsePerplexityResults_results_ok
  (fault : fault_oracle) (content : jsstring) (limit : Z)
  (rs : list SearchResult) :
  parsePerplexityResults fault content limit = Ok rs ->
  Forall (fun r =>
            title r <> []
            /\ (Z.of_nat (length (snippet r)) <= 200)%Z
            /\ (startsWith (lit "http://") (url r)
                || startsWith (lit "https://") (url r)) = true
            /\ Forall (fun c => is_space c = false) (url r)
            /\ free_of (chr ")") (url r)) rs.
Proof.
  intros H. apply parsePerplexityResults_inv in H.
  destruct H as (_ & _ & H). eapply Forall_impl; [|exact H].
  intros r (Ht & Hs & Hu). unfold http_url in Hu. tauto.
Qed.

Lemma parsePerplexityResults_results_ok_witness :
  Forall (fun r =>
            title r <> []
            /\ (Z.of_nat (length (snippet r)) <= 200)%Z
            /\ (startsWith (lit "http://") (url r)
                || startsWith (lit "https://") (url r)) = true
            /\ Forall (fun c => is_space c = false) (url r)
            /\ free_of (chr ")") (url r))
    [mkResult (lit "Example Site") (lit "https://example.com")
       (lit "more info") 1].
Proof.
  apply (parsePerplexityResults_results_ok no_fault citation_example 1).
  vm_compute. reflexivity.
Defined.

Lemma free_of_atom (ic : bool) (x : char) (s : jsstring) :
  in_range 65%N 90%N x = false -> in_range 97%N 122%N x = false ->
  free_of x s ->
  Forall (fun c => atom_matches ic (ALit x) c = false) s.
Proof.
  intros Hu Hl H. eapply Forall_impl; [|exact H].
  intros c Hc. cbn [atom_matches]. now rewrite canonicalize_other.
Qed.

(** X6: a text without an opening bracket holds no citation: the citation
    extractor calls the engine once and returns the empty list, or throws
    what the engine threw on that call. *)
Theorem parsePerplexityResults_no_bracket
  (fault : fault_oracle) (content : jsstring) (limit : Z) :
  free_of (chr "[") content ->
  parsePerplexityResults fault content limit
  = match fault citationRegex content 0 with
    | Some e => Throw e
    | None => Ok []
    end.
Proof.
  intros H. unfold parsePerplexityResults, while_exec. cbn [while_exec_from].
  destruct (fault citationRegex content 0); [reflexivity|].
  rewrite (exec_first citationRegex (ALit (chr "[")) content 0);
    [reflexivity|reflexivity|].
  now apply free_of_atom.
Qed.

Lemma parsePerplexityResults_no_bracket_witness :
  parsePerplexityResults no_fault (lit "see https://example.com") 10 = Ok [].
Proof.
  apply (parsePerplexityResults_no_bracket no_fault
           (lit "see https://example.com") 10).
  unfold free_of. repeat constructor.
Defined.

(** ** The titles and snippets of the HTML extractor *)

Lemma trimStart_Forall (P : char -> Prop) (s : jsstring) :
  Forall P s -> Forall P (trimStart s).
Proof.
  induction 1 as [|c s Hc H IH]; cbn [trimStart]; [constructor|].
  destruct (is_space c); [exact IH|now constructor].
Qed.

Lemma trim_Forall (P : char -> Prop) (s : jsstring) :
  Forall P s -> Forall P (trim s).
Proof.
  intros H. unfold trim, trimEnd.
  apply Forall_rev, trimStart_Forall, Forall_rev, trimStart_Forall, H.
Qed.

Lemma trimStart_idem (s : jsstring) : trimStart (trimStart s) = trimStart s.
Proof.
  induction s as [|c s IH]; cbn [trimStart]; [reflexivity|].
  destruct (is_space c) eqn:E; [exact IH|]. cbn [trimStart]. now rewrite E.
Qed.

Lemma trimStart_snoc (l : jsstring) (c : char) :
  is_space c = false -> trimStart (l ++ [c]) = trimStart l ++ [c].
Proof.
  intros Hc. induction l as [|x l IH]; cbn [trimStart app].
  - now rewrite Hc.
  - destruct (is_space x); [exact IH|reflexivity].
Qed.

Lemma trimEnd_cons (c : char) (t : jsstring) :
  is_space c = false -> trimEnd (c :: t) = c :: trimEnd t.
Proof.
  intros Hc. unfold trimEnd. cbn [rev].
  now rewrite trimStart_snoc, rev_app_distr.
Qed.

Lemma trimEnd_idem (t : jsstring) : trimEnd (trimEnd t) = trimEnd t.
Proof. unfold trimEnd. now rewrite rev_involutive, trimStart_idem. Qed.

Lemma trimStart_cases (s : jsstring) :
  trimStart s = []
  \/ exists c t, trimStart s = c :: t /\ is_space c = false.
Proof.
  induction s as [|c s IH]; cbn [trimStart]; [now left|].
  destruct (is_space c) eqn:E; [exact IH|]. right. now exists c, s.
Qed.

(** Trimming twice is trimming once, and a trimmed text has no white
    space at its start. *)
Lemma trim_idem (s : jsstring) : trim (trim s) = trim s.
Proof.
  unfold trim at 2 3. destruct (trimStart_cases s) as [->|(c & t & -> & Hc)].
  - reflexivity.
  - rewrite (trimEnd_cons c t Hc). unfold trim. cbn [trimStart]. rewrite Hc.
    rewrite (trimEnd_cons c _ Hc). now rewrite trimEnd_idem.
Qed.

Lemma trim_trimStart (s : jsstring) : trimStart (trim s) = trim s.
Proof.
  unfold trim. destruct (trimStart_cases s) as [->|(c & t & -> & Hc)].
  - reflexivity.
  - rewrite (trimEnd_cons c t Hc). cbn [trimStart]. now rewrite Hc.
Qed.

Lemma trimStart_firstn (n : nat) (s : jsstring) :
  trimStart s = s -> trimStart (firstn n s) = firstn n s.
Proof.
  destruct s as [|c s]; [now rewrite firstn_nil|].
  destruct n; [reflexivity|]. cbn [trimStart firstn].
  destruct (is_space c) eqn:E; [|reflexivity].
  intros H. exfalso.
  assert (Hl : length (trimStart s) <= length s).
  { clear. induction s as [|x s IH]; cbn [trimStart]; [lia|].
    destruct (is_space x); simpl; lia. }
  rewrite H in Hl. simpl in Hl. lia.
Qed.

Lemma not_char_free (ic : bool) (x : char) (t : jsstring) :
  in_range 65%N 90%N x = false -> in_range 97%N 122%N x = false ->
  Forall (fun c => atom_matches ic (AClass true [CChar x]) c = true) t ->
  free_of x t.
Proof.
  intros Hu Hl H. eapply Forall_impl; [|exact H]. intros c Hc.
  cbn [atom_matches existsb citem_matches orb] in Hc.
  rewrite canonicalize_other, orb_false_r in Hc by assumption.
  now apply negb_true_iff in Hc.
Qed.

(** A text without [<] holds no tag: stripping the tags leaves it as it
    is. *)
Lemma clean_text_plain (s : jsstring) :
  free_of (chr "<") s -> clean_text s = trim s.
Proof.
  intros H. unfold clean_text, replace_g.
  apply (replace_all_first tagRegex (ALit (chr "<"))); [reflexivity|].
  apply free_of_atom; [reflexivity|reflexivity|]. now apply trim_Forall.
Qed.

Lemma clean_text_plain_text (s : jsstring) :
  free_of (chr "<") s -> plain_text (clean_text s).
Proof.
  intros H. rewrite (clean_text_plain s H). split.
  - now apply trim_Forall.
  - apply trim_idem.
Qed.

(** The groups that hold the text of an anchor cannot hold a [<]. *)
Lemma anchor_text_free (re : RegExp) (n : nat) (s : jsstring) (m : MatchResult) :
  (forall t, group_lang (ignoreCase re) (Regex.source re) n t ->
             free_of (chr "<") t) ->
  matched_by re s m -> free_of (chr "<") (group n m).
Proof.
  intros Hg Hm. destruct (group_sound re s m n Hm) as [->|H].
  - constructor.
  - now apply Hg.
Qed.

(** A literal text holds no group. *)
Lemma group_lang_chars (ic : bool) (l : jsstring) (n : nat) (t : jsstring) :
  group_lang ic (chars l) n t -> False.
Proof.
  induction l as [|x l IH]; cbn [chars group_lang]; [auto|].
  destruct l as [|y l]; cbn [group_lang]; [auto|]. intros [[]|H]. now apply IH.
Qed.

Ltac group_cases H :=
  repeat match type of H with
         | _ \/ _ => destruct H as [H|H]
         | _ /\ _ => destruct H as [? H]
         | False => destruct H
         | group_lang _ (str _) _ _ => apply group_lang_chars in H
         end.

Lemma modern_title_lang (t : jsstring) :
  group_lang true (Regex.source modernRegex) 2 t -> free_of (chr "<") t.
Proof.
  unfold modernRegex. cbn [Regex.source seq group_lang a_quot]. intros H.
  group_cases H; try discriminate.
  destruct H as (rest & H). cbn [lang] in H.
  now apply not_char_free with true.
Qed.

Lemma generic_title_lang (t : jsstring) :
  group_lang true (Regex.source genericLinkRegex) 2 t -> free_of (chr "<") t.
Proof.
  unfold genericLinkRegex. cbn [Regex.source seq group_lang a_quot]. intros H.
  group_cases H; try discriminate.
  destruct H as (rest & H). cbn [lang] in H. destruct H as [_ H].
  now apply not_char_free with true.
Qed.

Lemma snippet_lang (t : jsstring) :
  group_lang true (Regex.source snippetRegex) 1 t -> free_of (chr "<") t.
Proof.
  unfold snippetRegex. cbn [Regex.source seq group_lang a_quot]. intros H.
  group_cases H; try discriminate.
  destruct H as (rest & H). cbn [lang] in H.
  now apply not_char_free with true.
Qed.

(** The titles and the snippets that the scans keep are plain text. *)
Lemma scan_candidates_plain (fault : fault_oracle) (html : jsstring)
  (limit : Z) (links : list Link.t) (snippets : list jsstring) :
  scan_candidates fault html limit = Ok (links, snippets) ->
  Forall (fun l => plain_text (Link.title l)) links
  /\ Forall plain_text snippets.
Proof.
  unfold scan_candidates.
  destruct (primary_links fault html limit) as [links0|e] eqn:Ep; [|discriminate].
  assert (H0 : Forall (fun l => plain_text (Link.title l)) links0).
  { revert Ep. apply while_exec_matched; [|constructor].
    intros m st Hm Hst _. unfold modern_body.
    destruct (_ && _); [|exact Hst].
    apply Forall_app. split; [exact Hst|]. constructor; [|constructor].
    cbn [Link.title]. apply clean_text_plain_text.
    eapply anchor_text_free; [|exact Hm]. exact modern_title_lang. }
  destruct (snippet_texts fault html limit) as [sn|e] eqn:Es; [|discriminate].
  assert (H1 : Forall plain_text sn).
  { revert Es. apply while_exec_matched; [|constructor].
    intros m st Hm Hst _. unfold snippet_body.
    apply Forall_app. split; [exact Hst|]. constructor; [|constructor].
    apply clean_text_plain_text.
    eapply anchor_text_free; [|exact Hm]. exact snippet_lang. }
  destruct (Nat.eqb (length links0) 0).
  - destruct (fallback_links fault html limit links0) as [links1|e] eqn:Ef;
      [|discriminate].
    intros [= <- <-]. split; [|exact H1].
    revert Ef. apply while_exec_matched; [|exact H0].
    intros m st Hm Hst _. unfold generic_body.
    destruct (_ && _); [|exact Hst].
    apply Forall_app. split; [exact Hst|]. constructor; [|constructor].
    cbn [Link.title]. apply clean_text_plain_text.
    eapply anchor_text_free; [|exact Hm]. exact generic_title_lang.
  - now intros [= <- <-].
Qed.

Lemma uint_digits_digit (u : Decimal.uint) :
  Forall (fun c => is_digit c = true) (uint_digits u).
Proof. induction u; cbn [uint_digits]; constructor; auto. Qed.

Lemma of_nat_nonempty (n : nat) : of_nat n <> [].
Proof.
  unfold of_nat. intros H.
  assert (Hn : Nat.to_uint n = Decimal.Nil)
    by (destruct (Nat.to_uint n); try discriminate; reflexivity).
  pose proof (DecimalNat.Unsigned.of_to n) as E. rewrite Hn in E.
  simpl in E. subst n. discriminate.
Qed.

Lemma trimStart_nonspace (l r : jsstring) :
  l <> [] -> Forall (fun c => is_space c = false) l ->
  trimStart (l ++ r) = l ++ r.
Proof.
  intros Hne H. destruct H as [|c l Hc H]; [now destruct Hne|].
  cbn [app trimStart]. now rewrite Hc.
Qed.

Lemma digit_not_space (c : char) : is_digit c = true -> is_space c = false.
Proof.
  unfold is_digit, is_space, in_range, char_eqb. intros H.
  apply andb_true_iff in H. destruct H as [H1 H2]. apply N.leb_le in H1, H2.
  repeat (apply orb_false_iff; split);
    try (apply andb_false_iff; (left + right); apply N.leb_gt; lia);
    try (apply N.eqb_neq; lia).
Qed.

Lemma digit_not_lt (c : char) : is_digit c = true -> char_eqb (chr "<") c = false.
Proof.
  unfold is_digit, in_range, char_eqb. intros H.
  apply andb_true_iff in H. destruct H as [H1 H2]. apply N.leb_le in H1, H2.
  apply N.eqb_neq. change (chr "<") with 60%N. lia.
Qed.

(** The default title is plain text. *)
Lemma result_n_plain (n : nat) : plain_text (result_n n).
Proof.
  unfold result_n. split.
  - apply Forall_app. split; [repeat constructor|].
    eapply Forall_impl; [|apply uint_digits_digit]. apply digit_not_lt.
  - unfold trim. change (trimStart (lit "Result " ++ of_nat n))
      with (lit "Result " ++ of_nat n).
    unfold trimEnd. rewrite rev_app_distr.
    rewrite trimStart_nonspace.
    + now rewrite <- rev_app_distr, rev_involutive.
    + intros H. apply (of_nat_nonempty n).
      rewrite <- (rev_involutive (of_nat n)), H. reflexivity.
    + apply Forall_rev. eapply Forall_impl; [|apply uint_digits_digit].
      apply digit_not_space.
Qed.

Lemma Forall_prefix {A : Type} (P : A -> Prop) (n : nat) (l : list A) :
  Forall P l -> Forall P (firstn n l).
Proof.
  intros H. rewrite <- (firstn_skipn n l) in H. apply Forall_app in H. apply H.
Qed.

Lemma snippet_for_plain (snippets : list jsstring) (i : nat) :
  Forall plain_text snippets -> plain_text (snippet_for snippets i).
Proof.
  intros H. assert (He : plain_text []) by (split; [constructor|reflexivity]).
  assert (Hn : forall j, plain_text (nth j snippets [])).
  { intros j. destruct (Nat.lt_ge_cases j (length snippets)) as [Hj|Hj].
    - rewrite Forall_forall in H. now apply H, nth_In.
    - now rewrite nth_overflow. }
  unfold snippet_for, or_else.
  destruct (truthy (nth i snippets [])); [apply Hn|].
  destruct i as [|j]; cbn [truthy]; [exact He|].
  destruct (truthy (nth j snippets [])); [apply Hn|exact He].
Qed.

(** X7: every result of the HTML extractor has a non-empty title without
    white space at either end, and neither its title nor its snippet
    contains the character [<]; the snippet has no white space at its
    start. *)
Theorem parseDuckDuckGoResults_plain_text
  (fault : fault_oracle) (html : jsstring) (limit : Z) :
  Forall (fun r =>
            title r <> [] /\ trim (title r) = title r
            /\ free_of (chr "<") (title r)
            /\ free_of (chr "<") (snippet r)
            /\ trimStart (snippet r) = snippet r)
    (fst (parseDuckDuckGoResults fault html limit)).
Proof.
  apply Forall_forall. intros r Hr.
  destruct (parse_results fault html limit r Hr)
    as (links & snippets & i & Hs & Hi & _ & ->).
  apply scan_candidates_plain in Hs. destruct Hs as [Hl Hsn].
  cbn [combined title snippet].
  assert (Ht : plain_text (or_else (Link.title (nth i links (Link.mk [] [])))
                             (result_n (i + 1)))).
  { unfold or_else. destruct (truthy _); [|apply result_n_plain].
    rewrite Forall_forall in Hl. now apply Hl, nth_In. }
  destruct Ht as [Ht1 Ht2].
  destruct (snippet_for_plain snippets i Hsn) as [Hp1 Hp2].
  split; [apply or_else_nonempty, result_n_nonempty|].
  split; [exact Ht2|]. split; [exact Ht1|]. split.
  - unfold substring0. now apply Forall_prefix.
  - unfold substring0. apply trimStart_firstn.
    rewrite <- Hp2. apply trim_trimStart.
Qed.

(** ** Inputs without results *)

Lemma scan_candidates_no_tag (fault : fault_oracle) (html : jsstring)
  (limit : Z) (links : list Link.t) (snippets : list jsstring) :
  free_of (chr "<") html ->
  scan_candidates fault html limit = Ok (links, snippets) ->
  links = [] /\ snippets = [].
Proof.
  intros H. pose proof (free_of_atom true (chr "<") html eq_refl eq_refl H) as Ha.
  unfold scan_candidates.
  destruct (primary_links fault html limit) as [links0|e] eqn:Ep; [|discriminate].
  apply (while_exec_first fault _ modernRegex (ALit (chr "<"))) in Ep;
    [subst links0|reflexivity|exact Ha].
  destruct (snippet_texts fault html limit) as [sn|e] eqn:Es; [|discriminate].
  apply (while_exec_first fault _ snippetRegex (ALit (chr "<"))) in Es;
    [subst sn|reflexivity|exact Ha].
  cbn [length Nat.eqb].
  destruct (fallback_links fault html limit []) as [links1|e] eqn:Ef;
    [|discriminate].
  apply (while_exec_first fault _ genericLinkRegex (ALit (chr "<"))) in Ef;
    [subst links1|reflexivity|exact Ha].
  now intros [= <- <-].
Qed.

(** X8: a document in which the character [<] does not occur has no
    results, whatever the limit and whether or not the engine gives up. *)
Theorem parseDuckDuckGoResults_no_tag
  (fault : fault_oracle) (html : jsstring) (limit : Z) :
  free_of (chr "<") html ->
  fst (parseDuckDuckGoResults fault html limit) = [].
Proof.
  intros H.
  destruct (parse_cases fault html limit)
    as [(e & _ & ->)|(links & snippets & Hs & ->)]; [reflexivity|].
  apply (scan_candidates_no_tag fault html limit links snippets H) in Hs.
  destruct Hs as [-> _]. unfold rounds. cbn [length].
  now destruct limit.
Qed.

Lemma parseDuckDuckGoResults_no_tag_witness :
  fst (parseDuckDuckGoResults no_fault (lit "No results found.") 10) = [].
Proof.
  apply (parseDuckDuckGoResults_no_tag no_fault (lit "No results found.") 10).
  unfold free_of. repeat constructor.
Defined.

(** ** A larger limit keeps the results of a smaller one *)

Section WhileCap.
Variable fault : fault_oracle.
Variable St A : Type.
Variable re : RegExp.
Variable s : jsstring.
Variable proj : St -> list A.
Variable body : MatchResult -> St -> St.
Hypothesis body_extends :
  forall m st, exists ext, proj (body m st) = proj st ++ ext /\ length ext <= 1.

(** A loop only appends. *)
Lemma while_exec_from_extends (cap : Z) (fuel lastIndex : nat) (st st' : St) :
  while_exec_from fault re s (under proj cap) body fuel lastIndex st = Ok st' ->
  exists ext, proj st' = proj st ++ ext.
Proof.
  revert lastIndex st. induction fuel as [|fuel IH]; intros lastIndex st;
    cbn [while_exec_from].
  - intros [= <-]. exists []. now rewrite app_nil_r.
  - destruct (fault re s lastIndex); [discriminate|].
    destruct (exec re s lastIndex) as [[m lastIndex']|].
    + destruct (under proj cap st).
      * intros H. apply IH in H. destruct H as (ext & ->).
        destruct (body_extends m st) as (ext' & -> & _).
        exists (ext' ++ ext). now rewrite app_assoc.
      * intros [= <-]. exists []. now rewrite app_nil_r.
    + intros [= <-]. exists []. now rewrite app_nil_r.
Qed.

(** The loop with the smaller cap stops where it has collected that many
    items; the loop with the larger cap goes on from the same state. *)
Lemma while_exec_from_cap (cap cap' : Z) (fuel lastIndex : nat)
  (st r r' : St) :
  (cap <= cap')%Z -> (Z.of_nat (length (proj st)) <= cap)%Z ->
  while_exec_from fault re s (under proj cap) body fuel lastIndex st = Ok r ->
  while_exec_from fault re s (under proj cap') body fuel lastIndex st = Ok r' ->
  proj r = firstn (Z.to_nat cap) (proj r').
Proof.
  intros Hc. revert lastIndex st.
  induction fuel as [|fuel IH]; intros lastIndex st Hst; cbn [while_exec_from].
  - intros [= <-] [= <-]. symmetry. apply firstn_all2. lia.
  - destruct (fault re s lastIndex); [discriminate|].
    destruct (exec re s lastIndex) as [[m lastIndex']|].
    + unfold under at 1 3. destruct (Z.ltb_spec (Z.of_nat (length (proj st))) cap)
        as [Hlt|Hge].
      * destruct (Z.ltb_spec (Z.of_nat (length (proj st))) cap'); [|lia].
        apply IH. destruct (body_extends m st) as (ext & -> & Hone).
        rewrite length_app. lia.
      * intros [= <-]. assert (Hn : Z.to_nat cap = length (proj st)) by lia.
        destruct (Z.ltb (Z.of_nat (length (proj st))) cap').
        -- intros H. apply while_exec_from_extends in H. destruct H as (ext & ->).
           destruct (body_extends m st) as (ext' & -> & _).
           rewrite Hn, <- app_assoc. rewrite firstn_app, Nat.sub_diag, firstn_all.
           cbn [firstn]. now rewrite app_nil_r.
        -- intros [= <-]. symmetry. apply firstn_all2. lia.
    + intros [= <-] [= <-]. symmetry. apply firstn_all2. lia.
Qed.
End WhileCap.

Lemma citation_body_extends (m : MatchResult) (st : nat * list SearchResult) :
  exists ext, snd (citation_body m st) = snd st ++ ext /\ length ext <= 1.
Proof.
  destruct st as [n rs]. unfold citation_body.
  destruct (match_g urlRegex (trim (group 2 m))) as [[|u us]|];
    try (exists []; cbn [snd length]; rewrite app_nil_r; auto; fail).
  destruct (truthy u).
  - eexists. cbn [snd]. split; [reflexivity|]. cbn [length]. lia.
  - exists []. cbn [snd length]. rewrite app_nil_r. auto.
Qed.

Lemma modern_body_extends (m : MatchResult) (links : list Link.t) :
  exists ext, modern_body m links = links ++ ext /\ length ext <= 1.
Proof.
  unfold modern_body. destruct (_ && _).
  - eexists. split; [reflexivity|]. cbn [length]. lia.
  - exists []. rewrite app_nil_r. cbn [length]. auto.
Qed.

Lemma generic_body_extends (m : MatchResult) (links : list Link.t) :
  exists ext, generic_body m links = links ++ ext /\ length ext <= 1.
Proof.
  unfold generic_body. destruct (_ && _).
  - eexists. split; [reflexivity|]. cbn [length]. lia.
  - exists []. rewrite app_nil_r. cbn [length]. auto.
Qed.

Lemma snippet_body_extends (m : MatchResult) (snippets : list jsstring) :
  exists ext, snippet_body m snippets = snippets ++ ext /\ length ext <= 1.
Proof.
  unfold snippet_body. eexists. split; [reflexivity|]. cbn [length]. lia.
Qed.

(** With a limit of zero or less a loop keeps its state. *)
Lemma while_exec_from_closed (fault : fault_oracle) (St : Type) (re : RegExp)
  (s : jsstring) (cond : St -> bool) (body : MatchResult -> St -> St)
  (fuel lastIndex : nat) (st st' : St) :
  cond st = false ->
  while_exec_from fault re s cond body fuel lastIndex st = Ok st' -> st' = st.
Proof.
  intros Hc. destruct fuel as [|fuel]; cbn [while_exec_from].
  - now intros [= <-].
  - destruct (fault re s lastIndex); [discriminate|].
    destruct (exec re s lastIndex) as [[m lastIndex']|]; [rewrite Hc|];
      now intros [= <-].
Qed.

Lemma citations_limit_prefix (fault : fault_oracle) (content : jsstring)
  (L L' : Z) (rs rs' : list SearchResult) :
  (L <= L')%Z ->
  parsePerplexityResults fault content L = Ok rs ->
  parsePerplexityResults fault content L' = Ok rs' ->
  rs = firstn (Z.to_nat L) rs'.
Proof.
  intros HL. unfold parsePerplexityResults, while_exec.
  destruct (while_exec_from fault citationRegex content _ citation_body _ 0 (1, []))
    as [[n r]|e] eqn:E; [|discriminate].
  destruct (while_exec_from fault citationRegex content
              (fun st => Z.ltb (Z.of_nat (length (snd st))) L') citation_body _ 0
              (1, [])) as [[n' r']|e] eqn:E'; [|discriminate].
  intros [= <-] [= <-].
  destruct (Z.le_gt_cases 0 L) as [H0|H0].
  - assert (Hi : (Z.of_nat (length (snd (1, @nil SearchResult))) <= L)%Z)
      by (cbn [snd length]; lia).
    exact (while_exec_from_cap fault _ _ citationRegex content snd citation_body
             citation_body_extends L L' _ 0 (1, []) (n, r) (n', r') HL Hi E E').
  - apply while_exec_from_closed in E.
    + injection E as _ ->. now destruct L.
    + cbn [snd length]. apply Z.ltb_ge. lia.
Qed.

(** X9: the citations found with a limit are the first ones found with
    any larger limit: with an engine that does not give up, the citation
    extractor returns for [L] the first [L] results of what it returns
    for [L'], when [L <= L']. *)
Theorem parsePerplexityResults_limit_prefix
  (content : jsstring) (L L' : Z) :
  (L <= L')%Z ->
  exists rs',
    parsePerplexityResults no_fault content L' = Ok rs'
    /\ parsePerplexityResults no_fault content L = Ok (firstn (Z.to_nat L) rs').
Proof.
  intros HL.
  assert (T : forall l, exists rs, parsePerplexityResults no_fault content l = Ok rs).
  { intros l. unfold parsePerplexityResults, while_exec.
    destruct (while_exec_no_fault _ citationRegex content
                (fun st => Z.ltb (Z.of_nat (length (snd st))) l) citation_body
                (S (length content)) 0 (1, [])) as ([n rs] & ->).
    now exists rs. }
  destruct (T L) as (rs & E). destruct (T L') as (rs' & E').
  exists rs'. split; [exact E'|]. rewrite E. f_equal.
  exact (citations_limit_prefix no_fault content L L' rs rs' HL E E').
Qed.

Lemma parsePerplexityResults_limit_prefix_witness :
  exists rs',
    parsePerplexityResults no_fault citation_example 10 = Ok rs'
    /\ parsePerplexityResults no_fault citation_example 1
       = Ok (firstn (Z.to_nat 1) rs').
Proof.
  apply (parsePerplexityResults_limit_prefix citation_example 1 10). lia.
Defined.

Lemma firstn_seq_min (n start len : nat) :
  firstn n (List.seq start len) = List.seq start (Nat.min n len).
Proof.
  revert start len. induction n as [|n IH]; intros start [|len]; cbn; auto.
  now rewrite IH.
Qed.

Lemma firstn_nil_inv {A : Type} (n : nat) (l : list A) :
  0 < n -> firstn n l = [] -> l = [].
Proof. destruct n; [lia|]. destruct l; [auto|discriminate]. Qed.

Lemma nth_prefix {A : Type} (n i : nat) (l : list A) (d : A) :
  i < n -> nth i (firstn n l) d = nth i l d.
Proof.
  intros H. rewrite nth_firstn.
  destruct (Nat.ltb_spec i n); [reflexivity|lia].
Qed.

(** The links and snippets scanned with a limit are the first ones
    scanned with a larger limit. *)
Lemma scan_candidates_limit_prefix (fault : fault_oracle) (html : jsstring)
  (L L' : Z) (links links' : list Link.t) (snippets snippets' : list jsstring) :
  (1 <= L <= L')%Z ->
  scan_candidates fault html L = Ok (links, snippets) ->
  scan_candidates fault html L' = Ok (links', snippets') ->
  links = firstn (Z.to_nat (L * 2)) links'
  /\ snippets = firstn (Z.to_nat (L * 2)) snippets'.
Proof.
  intros HL. unfold scan_candidates.
  assert (Hc : (L * 2 <= L' * 2)%Z) by lia.
  assert (Hi : forall A : Type, (Z.of_nat (length (@nil A)) <= L * 2)%Z)
    by (intros A; cbn [length]; lia).
  destruct (primary_links fault html L) as [l0|e] eqn:Ep; [|discriminate].
  destruct (primary_links fault html L') as [l0'|e] eqn:Ep'; [|discriminate].
  pose proof (while_exec_from_cap fault _ _ modernRegex html (fun l => l)
                modern_body modern_body_extends (L * 2) (L' * 2) _ 0 [] l0 l0'
                Hc (Hi _) Ep Ep') as Hl.
  destruct (snippet_texts fault html L) as [s0|e] eqn:Es; [|discriminate].
  destruct (snippet_texts fault html L') as [s0'|e] eqn:Es'; [|discriminate].
  pose proof (while_exec_from_cap fault _ _ snippetRegex html (fun l => l)
                snippet_body snippet_body_extends (L * 2) (L' * 2) _ 0 [] s0 s0'
                Hc (Hi _) Es Es') as Hs.
  destruct l0 as [|x l0].
  - symmetry in Hl. apply firstn_nil_inv in Hl; [|lia]. subst l0'.
    cbn [length Nat.eqb].
    destruct (fallback_links fault html L []) as [l1|e] eqn:Ef; [|discriminate].
    destruct (fallback_links fault html L' []) as [l1'|e] eqn:Ef'; [|discriminate].
    intros [= <- <-] [= <- <-]. split; [|exact Hs].
    exact (while_exec_from_cap fault _ _ genericLinkRegex html (fun l => l)
             generic_body generic_body_extends (L * 2) (L' * 2) _ 0 [] l1 l1'
             Hc (Hi _) Ef Ef').
  - destruct l0' as [|x' l0'].
    + rewrite firstn_nil in Hl. discriminate.
    + cbn [length Nat.eqb]. intros [= <- <-] [= <- <-]. now split.
Qed.

(** X10: the results of the HTML extractor for a limit are the first
    results for any larger limit: with an engine that does not give up,
    the extractor returns for [L] the first [L] results of what it
    returns for [L'], when [L <= L']. *)
Theorem parseDuckDuckGoResults_limit_prefix
  (html : jsstring) (L L' : Z) :
  (L <= L')%Z ->
  fst (parseDuckDuckGoResults no_fault html L)
  = firstn (Z.to_nat L) (fst (parseDuckDuckGoResults no_fault html L')).
Proof.
  intros HL.
  destruct (parse_cases no_fault html L)
    as [(e & He & _)|(links & snippets & Hs & ->)].
  { destruct (scan_candidates_no_fault html L) as (l & sn & E). congruence. }
  destruct (parse_cases no_fault html L')
    as [(e & He & _)|(links' & snippets' & Hs' & ->)].
  { destruct (scan_candidates_no_fault html L') as (l & sn & E). congruence. }
  destruct (Z.le_gt_cases 1 L) as [H1|H1].
  - destruct (scan_candidates_limit_prefix no_fault html L L' links links'
                snippets snippets' (conj H1 HL) Hs Hs') as [-> ->].
    rewrite firstn_map, firstn_seq_min. unfold rounds.
    rewrite length_firstn.
    replace (Z.to_nat (Z.min (Z.of_nat (Nat.min (Z.to_nat (L * 2)) (length links'))) L))
      with (Nat.min (Z.to_nat L)
              (Z.to_nat (Z.min (Z.of_nat (length links')) L'))) by lia.
    apply map_ext_in. intros i Hi. apply in_seq in Hi.
    unfold combined, snippet_for. rewrite !nth_prefix by lia.
    destruct i as [|j]; [reflexivity|]. now rewrite !nth_prefix by lia.
  - unfold rounds. replace (Z.to_nat (Z.min _ L)) with 0 by lia.
    replace (Z.to_nat L) with 0 by lia. reflexivity.
Qed.

Lemma parseDuckDuckGoResults_limit_prefix_witness :
  fst (parseDuckDuckGoResults no_fault sample_page 1)
  = firstn (Z.to_nat 1) (fst (parseDuckDuckGoResults no_fault sample_page 10)).
Proof.
  apply (parseDuckDuckGoResults_limit_prefix sample_page 1 10). lia.
Defined.

(** ** The result lists of [searchWeb] *)

Lemma parsePerplexityResults_listed (fault : fault_oracle) (content : jsstring)
  (limit : Z) (rs : list SearchResult) :
  parsePerplexityResults fault content limit = Ok rs -> listed limit rs.
Proof.
  intros H. apply parsePerplexityResults_inv in H.
  destruct H as (H1 & H2 & H3). repeat split; auto.
  eapply Forall_impl; [|exact H3]. intros r (Ht & Hs & _). split; [exact Ht|lia].
Qed.

Lemma parseDuckDuckGoResults_listed (fault : fault_oracle) (html : jsstring)
  (limit : Z) :
  listed limit (fst (parseDuckDuckGoResults fault html limit)).
Proof.
  destruct (parse_cases fault html limit)
    as [(e & _ & ->)|(links & snippets & _ & ->)].
  - repeat split; cbn [length]; [lia|constructor].
  - unfold listed. rewrite !length_map, length_seq. repeat split.
    + unfold rounds. lia.
    + now apply (seq_shift_rank (combined links snippets) 0).
    + apply Forall_forall. intros r Hr. apply in_map_iff in Hr.
      destruct Hr as (i & <- & _). cbn [combined title snippet]. split.
      * apply or_else_nonempty, result_n_nonempty.
      * pose proof (substring0_length 300 (snippet_for snippets i)). lia.
Qed.

Lemma wp_search_listed (fault : fault_oracle) (q : jsstring)
  (options : SearchOptions) :
  wp (fun env => listed (limit_of options) (results env)) no_exn
    (searchWeb fault q options).
Proof.
  assert (Hnil : listed (limit_of options) []).
  { repeat split; cbn [length]; [lia|constructor]. }
  unfold searchWeb. step_prog. intros key.
  assert (Hm : wp (fun env => listed (limit_of options) (results env)) no_exn
                 (try_catch (searchDuckDuckGo fault q (limit_of options))
                    (search_failed q))).
  { apply wp_try_catch. unfold searchDuckDuckGo.
    assert (Hfail : forall e,
               wp (fun env => listed (limit_of options) (results env)) no_exn
                 (search_failed q e)).
    { intros e. unfold search_failed. step_prog. intros t. exact Hnil. }
    destruct (encodeURIComponent q) as [encoded|e]; step_prog; [|apply Hfail].
    intros [response|e]; step_prog; [|apply Hfail].
    destruct (ok response); step_prog; [|apply Hfail].
    destruct (text response) as [html|e]; step_prog; [|apply Hfail].
    pose proof (parseDuckDuckGoResults_listed fault html (limit_of options)) as Hl.
    destruct (parseDuckDuckGoResults fault html (limit_of options)) as [rs logged].
    apply wp_console_all. step_prog. intros t. exact Hl. }
  apply wp_bind. destruct (truthy_key key); [|exact Hm].
  apply wp_try_catch, wp_bind.
  apply wp_weaken with
    (Q := fun env => listed (limit_of options) (results env)) (E := any_exn).
  - intros env Henv. step_prog. exact Henv.
  - intros e _. step_prog. exact Hm.
  - unfold searchWithPerplexity. step_prog. intros [k|]; [|exact I].
    destruct (truthy k); [|exact I].
    step_prog. intros [response|e]; [|exact I]. step_prog.
    destruct (ok response); step_prog.
    + destruct (json_body response) as [data|e]; [|exact I]. step_prog.
      destruct (content_of data) as [content|e]; [|exact I]. step_prog.
      change (limit_of (mkOptions (Some (limit_of options)) None))
        with (limit_of options).
      destruct (parsePerplexityResults fault content (limit_of options))
        as [rs|e] eqn:E; [|exact I]. step_prog.
      intros t. now apply parsePerplexityResults_listed with fault content.
    + destruct (text response); exact I.
Qed.

(** X11: whatever the platform answers, the envelope of [searchWeb] holds
    at most [limit] results (none for a limit of zero or less), ranked
    1, 2, ... in this order, each with a non-empty title and a snippet of
    at most 300 code units, and its total is their number. *)
Theorem searchWeb_results_listed
  (W : Type) (P : Platform W) (fault : fault_oracle)
  (q : jsstring) (options : SearchOptions) (w : W) :
  exists env,
    value (run P (searchWeb fault q options) w) = Ok env
    /\ (Z.of_nat (length (results env)) <= Z.max 0 (limit_of options))%Z
    /\ total env = length (results env)
    /\ map rank (results env) = List.seq 1 (length (results env))
    /\ Forall (fun r => title r <> [] /\ length (snippet r) <= 300)
         (results env).
Proof.
  pose proof (wp_run W P _ _ _ (wp_search_listed fault q options) w) as H.
  pose proof (wp_run W P _ _ _ (wp_searchWeb fault q options) w) as H'.
  destruct (value (run P (searchWeb fault q options) w)) as [env|e];
    [|destruct H].
  exists env. destruct H as (H1 & H2 & H3). repeat split; auto.
  destruct H' as [(_ & Ht & _)|[(_ & Ht & _)|(_ & Ht & Hr & _)]]; auto.
  now rewrite Hr, Ht.
Qed.

(** ** The requests of [searchWeb] *)

Lemma requests_app (R : jsstring -> RequestInit -> Prop) (l l' : list event) :
  requests R l -> requests R l' -> requests R (l ++ l').
Proof. intros H H'. apply Forall_app. now split. Qed.

Lemma requests_weaken (R R' : jsstring -> RequestInit -> Prop) (l : list event) :
  (forall u i, R u i -> R' u i) -> requests R l -> requests R' l.
Proof.
  intros H. apply Forall_impl. intros [] Hev; auto.
Qed.

Lemma requests_quiet (R : jsstring -> RequestInit -> Prop) (l : list event) :
  Forall quiet l -> requests R l.
Proof.
  apply Forall_impl. intros [] [Hf _]; try exact I. discriminate.
Qed.

Section Requests.
Variable W : Type.
Variable P : Platform W.
Variable fault : fault_oracle.

Lemma awaits_run {A : Type} (p : prog A) :
  forall n w, awaits n p -> length (filter is_fetch (trace (run P p w))) <= n.
Proof.
  induction p as [a|e|k IH|u i k IH|c k IH|k IH]; intros n w; cbn [run awaits].
  - cbn. lia.
  - cbn. lia.
  - intros H. destruct (read_env P w) as [v w']. cbn [trace after filter is_fetch].
    now apply IH.
  - destruct n as [|n]; [tauto|]. intros H.
    destruct (do_fetch P u i w) as [r w']. cbn [trace after filter is_fetch length].
    apply le_n_S. now apply IH.
  - intros H. cbn [trace after filter is_fetch]. now apply IH.
  - intros H. destruct (read_clock P w) as [t w']. cbn [trace after filter is_fetch].
    now apply IH.
Qed.

Lemma markup_stage_requests (q : jsstring) (limit : Z) (w : W) :
  requests (sent_to_markup q) (trace (run P (markup_stage fault q limit) w)).
Proof.
  rewrite markup_stage_unfold.
  destruct (encodeURIComponent q) as [encoded|e] eqn:E.
  - cbn [run]. destruct (do_fetch P _ _ w) as [answer w1]. cbn [trace after].
    constructor.
    + now exists encoded.
    + apply requests_quiet, emits_run, emits_markup_rest.
  - apply requests_quiet, emits_run, emits_search_failed.
Qed.

Lemma adapter_requests (q : jsstring) (options : SearchOptions) (w : W) :
  requests (sent_to_api (fst (read_env P w)) q (limit_of options))
    (trace (run P (searchWithPerplexity fault q options) w)).
Proof.
  assert (H : exists k,
             searchWithPerplexity fault q options = GetEnv k
             /\ forall key,
                  emits (fun ev =>
                           match ev with
                           | EvFetch u i _ =>
                               sent_to_api key q (limit_of options) u i
                           | _ => True
                           end) (k key)).
  { eexists. split; [reflexivity|]. intros [key|]; [|exact I].
    destruct (truthy key) eqn:Hk; [|exact I]. step_prog.
    intros [response|e]; (split; [split; eauto|]); [|exact I]. step_prog.
    destruct (ok response); step_prog.
    - destruct (json_body response) as [data|e]; [|exact I]. step_prog.
      destruct (content_of data) as [content|e]; [|exact I]. step_prog.
      destruct (parsePerplexityResults fault content (limit_of options))
        as [rs|e]; [|exact I]. step_prog.
      intros t. split; exact I.
    - destruct (text response); exact I. }
  destruct H as (k & -> & Hk). cbn [run].
  destruct (read_env P w) as [key w1]. cbn [fst trace after].
  constructor; [exact I|]. apply emits_run, Hk.
Qed.

Lemma searchWeb_trace_requests (q : jsstring) (options : SearchOptions) (w : W) :
  requests
    (fun u i =>
       sent_to_api (fst (read_env P (snd (read_env P w)))) q (limit_of options)
         u i
       \/ sent_to_markup q u i)
    (trace (run P (searchWeb fault q options) w)).
Proof.
  rewrite run_searchWeb. destruct (read_env P w) as [key w1]. cbn [snd].
  assert (Hm : forall w',
             requests
               (fun u i =>
                  sent_to_api (fst (read_env P w1)) q (limit_of options) u i
                  \/ sent_to_markup q u i)
               (trace (run P (markup_stage fault q (limit_of options)) w'))).
  { intros w'. eapply requests_weaken; [|apply markup_stage_requests]. auto. }
  assert (Ha : requests
                 (fun u i =>
                    sent_to_api (fst (read_env P w1)) q (limit_of options) u i
                    \/ sent_to_markup q u i)
                 (trace (run P (searchWithPerplexity fault q
                                  (mkOptions (Some (limit_of options)) None)) w1))).
  { eapply requests_weaken; [|apply adapter_requests]. auto. }
  cbn [trace after]. constructor; [exact I|].
  destruct (truthy_key key); [|apply Hm]. cbv zeta.
  destruct (value (run P (searchWithPerplexity fault q _) w1)); [exact Ha|].
  cbn [trace]. apply requests_app; [exact Ha|].
  constructor; [exact I|apply Hm].
Qed.

End Requests.


Lemma filter_length_le {A : Type} (f g : A -> bool) (l : list A) :
  (forall x, f x = true -> g x = true) ->
  length (filter f l) <= length (filter g l).
Proof.
  intros H. induction l as [|x l IH]; cbn [filter]; [lia|].
  destruct (f x) eqn:E.
  - rewrite (H x E). cbn [length]. lia.
  - destruct (g x); cbn [length]; lia.
Qed.

Lemma filter_none {A : Type} (f : A -> bool) (l : list A) :
  Forall (fun x => f x = false) l -> filter f l = [].
Proof.
  induction 1 as [|x l Hx H IH]; cbn [filter]; [reflexivity|]. now rewrite Hx.
Qed.

Lemma api_request_is_fetch (ev : event) :
  is_api_request ev = true -> is_fetch ev = true.
Proof. now destruct ev. Qed.

Lemma without_method_is_fetch (ev : event) :
  without_method ev = true -> is_fetch ev = true.
Proof. now destruct ev. Qed.

(** X13: [searchWeb] sends at most two requests, at most one of them to
    the API and at most one to the markup provider; without a credential
    it sends at most one request. *)
Theorem searchWeb_request_count
  (W : Type) (P : Platform W) (fault : fault_oracle)
  (q : jsstring) (options : SearchOptions) (w : W) :
  let t := trace (run P (searchWeb fault q options) w) in
  length (filter is_fetch t)
    <= (if truthy_key (fst (read_env P w)) then 2 else 1)
  /\ length (filter is_api_request t) <= 1
  /\ length (filter without_method t) <= 1.
Proof.
  cbv zeta.
  pose proof (awaits_run W P (searchWeb fault q options) 2 w
                (awaits_searchWeb fault q options)) as H2.
  rewrite run_searchWeb in *. destruct (read_env P w) as [key w1].
  cbn [fst trace after filter is_fetch is_api_request without_method] in *.
  pose proof (fun w' => awaits_run W P _ 1 w'
                (awaits_markup_stage fault q (limit_of options))) as Hm.
  pose proof (fun w' => markup_stage_trace W P fault q (limit_of options) w') as Hq.
  assert (Hma : forall w',
             filter is_api_request
               (trace (run P (markup_stage fault q (limit_of options)) w')) = []).
  { intros w'. apply filter_none. eapply Forall_impl; [|apply Hq].
    intros ev [_ H]. exact H. }
  assert (Hmm : forall w',
             length (filter without_method
                       (trace (run P (markup_stage fault q (limit_of options)) w')))
             <= 1).
  { intros w'. etransitivity; [|apply (Hm w')].
    apply filter_length_le, without_method_is_fetch. }
  destruct (truthy_key key).
  - split; [exact H2|]. cbv zeta.
    set (o := mkOptions (Some (limit_of options)) None).
    pose proof (awaits_run W P _ 1 w1 (awaits_searchWithPerplexity fault q o))
      as Ha.
    assert (Haa : length (filter is_api_request
                            (trace (run P (searchWithPerplexity fault q o) w1)))
                  <= 1).
    { etransitivity; [|apply Ha]. apply filter_length_le, api_request_is_fetch. }
    assert (Ham : filter without_method
                    (trace (run P (searchWithPerplexity fault q o) w1)) = []).
    { apply filter_none, adapter_trace. }
    destruct (value (run P (searchWithPerplexity fault q o) w1)).
    + rewrite Ham. cbn [length]. split; [exact Haa|lia].
    + cbn [trace]. rewrite !filter_app.
      cbn [filter is_api_request without_method].
      rewrite Ham, Hma, length_app. cbn [length app]. split; [lia|apply Hmm].
  - split; [apply Hm|]. rewrite Hma. cbn [length]. split; [lia|apply Hmm].
Qed.

(** ** A query that cannot be encoded *)

Lemma prepend_error (p : jsstring) (o : outcome jsstring) (e : exn) :
  prepend p o = Throw e -> o = Throw e.
Proof. destruct o; [discriminate|auto]. Qed.

Lemma encodeURIComponent_cons (c : char) (s' : jsstring) :
  encodeURIComponent (c :: s')
  = if uri_unreserved c then prepend [c] (encodeURIComponent s')
    else if in_range 56320%N 57343%N c then Throw URIError
    else if in_range 55296%N 56319%N c then
      match s' with
      | c2 :: s'' =>
          if in_range 56320%N 57343%N c2
          then prepend
                 (escape ((c - 55296) * 1024 + (c2 - 56320) + 65536)%N)
                 (encodeURIComponent s'')
          else Throw URIError
      | [] => Throw URIError
      end
    else prepend (escape c) (encodeURIComponent s').
Proof. reflexivity. Qed.

(** The only exception of [encodeURIComponent] is the URIError. *)
Lemma encodeURIComponent_error (s : jsstring) (e : exn) :
  encodeURIComponent s = Throw e -> e = URIError.
Proof.
  assert (H : forall n s, length s <= n ->
                          encodeURIComponent s = Throw e -> e = URIError).
  { clear s. induction n as [|n IH]; intros [|c s] Hn;
      try discriminate; cbn [length] in Hn; [lia|].
    rewrite encodeURIComponent_cons.
    destruct (uri_unreserved c).
    { intros H. apply prepend_error in H. apply IH in H; [exact H|lia]. }
    destruct (in_range 56320%N 57343%N c); [now intros [= <-]|].
    destruct (in_range 55296%N 56319%N c).
    - destruct s as [|c2 s]; [now intros [= <-]|].
      destruct (in_range 56320%N 57343%N c2); [|now intros [= <-]].
      intros H. apply prepend_error in H. apply IH in H; [exact H|].
      cbn [length] in Hn. lia.
    - intros H. apply prepend_error in H. apply IH in H; [exact H|lia]. }
  now apply (H (length s) s).
Qed.

Lemma run_search_failed (W : Type) (P : Platform W) (q : jsstring) (e : exn)
  (w : W) :
  run P (search_failed q e) w
  = mkRan
      (Ok (mkEnvelope q [] 0 (Some (message e)) (fst (read_clock P w)) none))
      [EvConsole (mkEntry level_error (lit "Web search error:") (message e));
       EvNow (fst (read_clock P w))]
      (snd (read_clock P w)).
Proof.
  unfold search_failed. cbn [bind console now run].
  destruct (read_clock P w) as [t w']. reflexivity.
Qed.

(** X14: a query that [encodeURIComponent] rejects (a lone surrogate)
    never reaches the markup provider: [searchWeb] sends no request to
    it, and unless the API adapter has answered, the envelope has source
    none, no results, and the error text of the URIError. *)
Theorem searchWeb_unencodable_query
  (W : Type) (P : Platform W) (fault : fault_oracle)
  (q : jsstring) (options : SearchOptions) (w : W) (e : exn) :
  encodeURIComponent q = Throw e ->
  exists env,
    value (run P (searchWeb fault q options) w) = Ok env
    /\ filter without_method (trace (run P (searchWeb fault q options) w)) = []
    /\ (source env = perplexity
        \/ source env = none /\ results env = [] /\ total env = 0
           /\ error env = Some (lit "URI malformed"))
    /\ (truthy_key (fst (read_env P w)) = false ->
        source env = none
        /\ filter is_fetch (trace (run P (searchWeb fault q options) w)) = []).
Proof.
  intros E. pose proof (encodeURIComponent_error q e E) as ->.
  assert (Hm : forall w', run P (markup_stage fault q (limit_of options)) w'
                          = run P (search_failed q URIError) w').
  { intros w'. now rewrite markup_stage_unfold, E. }
  rewrite run_searchWeb. destruct (read_env P w) as [key w1]. cbn [fst].
  destruct (truthy_key key).
  - cbv zeta. set (o := mkOptions (Some (limit_of options)) None).
    pose proof (adapter_returns W P fault q o w1) as Ha.
    pose proof (filter_none without_method _ (adapter_trace W P fault q o w1))
      as Hn.
    destruct (value (run P (searchWithPerplexity fault q o) w1)) as [env|e']
      eqn:Ev.
    + exists env. cbn [value trace after filter without_method].
      split; [exact Ev|]. split; [exact Hn|].
      split; [|discriminate]. left. now destruct (Ha env eq_refl) as (_ & _ & Hs & _).
    + rewrite Hm, run_search_failed. eexists.
      cbn [value trace after filter without_method].
      split; [reflexivity|]. split.
      * rewrite filter_app, Hn. reflexivity.
      * split; [|discriminate]. right. repeat split.
  - rewrite Hm, run_search_failed. eexists.
    cbn [value trace after filter without_method is_fetch].
    split; [reflexivity|]. split; [reflexivity|]. split.
    + right. repeat split.
    + intros _. split; reflexivity.
Qed.

Lemma searchWeb_unencodable_query_witness :
  exists env,
    value (run (scripted None []) (searchWeb no_fault [55296%N] no_options) 0)
    = Ok env
    /\ source env = none
    /\ error env = Some (lit "URI malformed").
Proof.
  destruct (searchWeb_unencodable_query nat (scripted None []) no_fault
              [55296%N] no_options 0 URIError eq_refl)
    as (env & Hv & _ & _ & Hn).
  exists env. split; [exact Hv|].
  destruct (Hn eq_refl) as [Hs _]. split; [exact Hs|].
  pose proof Hv as Hv'. vm_compute in Hv'. injection Hv' as <-. reflexivity.
Defined.

(** ** What the answer of the markup provider makes of the envelope *)

Lemma wp_markup_rest_verdict (fault : fault_oracle) (q : jsstring) (limit : Z)
  (answer : outcome Response) :
  wp (markup_verdict fault limit answer) no_exn (markup_rest fault q limit answer).
Proof.
  unfold markup_rest, markup_verdict, search_failed. apply wp_try_catch.
  destruct answer as [response|e]; step_prog; [|intros t; now split].
  destruct (ok response); step_prog; [|intros t; now split].
  destruct (text response) as [html|e]; step_prog; [|intros t; now split].
  destruct (parseDuckDuckGoResults fault html limit) as [rs logged].
  apply wp_console_all. step_prog. intros t. repeat split.
Qed.

Section Verdict.
Variable W : Type.
Variable P : Platform W.
Variable fault : fault_oracle.

Lemma markup_stage_verdict (q : jsstring) (limit : Z) (w : W)
  (u : jsstring) (i : RequestInit) (answer : outcome Response) :
  In (EvFetch u i answer) (trace (run P (markup_stage fault q limit) w)) ->
  exists env,
    value (run P (markup_stage fault q limit) w) = Ok env
    /\ markup_verdict fault limit answer env.
Proof.
  rewrite markup_stage_unfold.
  destruct (encodeURIComponent q) as [encoded|e].
  - cbn [run]. destruct (do_fetch P _ _ w) as [answer' w1].
    cbn [trace value after]. intros [Hin|Hin].
    + injection Hin as _ _ ->.
      pose proof (wp_run W P _ _ _ (wp_markup_rest_verdict fault q limit answer) w1)
        as H.
      destruct (value (run P (markup_rest fault q limit answer) w1))
        as [env|e]; [|destruct H].
      now exists env.
    + exfalso. revert Hin. apply quiet_not_fetch.
      apply emits_run, emits_markup_rest.
  - intros Hin. exfalso. revert Hin. apply quiet_not_fetch.
    apply emits_run, emits_search_failed.
Qed.

Lemma searchWeb_verdict (q : jsstring) (options : SearchOptions) (w : W)
  (u : jsstring) (answer : outcome Response) :
  In (EvFetch u duckduckgo_init answer)
    (trace (run P (searchWeb fault q options) w)) ->
  exists env,
    value (run P (searchWeb fault q options) w) = Ok env
    /\ markup_verdict fault (limit_of options) answer env.
Proof.
  rewrite run_searchWeb. destruct (read_env P w) as [key w1].
  cbn [trace value after]. intros [Hin|Hin]; [discriminate|]. revert Hin.
  destruct (truthy_key key).
  - cbv zeta.
    destruct (value (run P (searchWithPerplexity fault q _) w1)) as [env|e] eqn:E.
    + intros Hin. now apply adapter_no_markup_request in Hin.
    + cbn [trace value]. intros Hin. apply in_app_or in Hin.
      destruct Hin as [Hin|[Hin|Hin]].
      * now apply adapter_no_markup_request in Hin.
      * discriminate.
      * now apply markup_stage_verdict with (u := u) (i := duckduckgo_init).
  - intros Hin. now apply markup_stage_verdict with (u := u) (i := duckduckgo_init).
Qed.
End Verdict.

(** X15: the answer to the markup request decides the envelope of
    [searchWeb].  A rejected request gives source none with the message
    of the rejection as error; a status that is not a success gives
    source none with the error Search failed: followed by the status
    text, and the body is not looked at; a body that cannot be read gives
    source none with the message of that failure; a body that can be read
    gives source duckduckgo, no error, and the results of the extractor
    on it. *)
Theorem searchWeb_markup_verdict
  (W : Type) (P : Platform W) (fault : fault_oracle)
  (q : jsstring) (options : SearchOptions) (w : W)
  (u : jsstring) (answer : outcome Response) :
  In (EvFetch u duckduckgo_init answer)
    (trace (run P (searchWeb fault q options) w)) ->
  exists env,
    value (run P (searchWeb fault q options) w) = Ok env
    /\ match answer with
       | Throw e => source env = none /\ error env = Some (message e)
       | Ok response =>
           if ok response then
             match text response with
             | Ok html =>
                 source env = duckduckgo /\ error env = None
                 /\ results env
                    = fst (parseDuckDuckGoResults fault html (limit_of options))
             | Throw e => source env = none /\ error env = Some (message e)
             end
           else
             source env = none
             /\ error env = Some (lit "Search failed: " ++ statusText response)
       end.
Proof. exact (searchWeb_verdict W P fault q options w u answer). Qed.

Lemma searchWeb_markup_verdict_witness :
  exists env,
    value (run (scripted None
                  [Ok (mkResponse false (lit "Too Many Requests")
                         (Ok (lit "slow down"))
                         (Throw (Error (lit "Unexpected token s in JSON"))))])
             (searchWeb no_fault (lit "rocq") no_options) 0) = Ok env
    /\ source env = none
    /\ error env = Some (lit "Search failed: Too Many Requests").
Proof.
  apply (searchWeb_markup_verdict nat
           (scripted None
              [Ok (mkResponse false (lit "Too Many Requests")
                     (Ok (lit "slow down"))
                     (Throw (Error (lit "Unexpected token s in JSON"))))])
           no_fault (lit "rocq") no_options 0
           (searchUrlPrefix ++ lit "rocq")
           (Ok (mkResponse false (lit "Too Many Requests")
                  (Ok (lit "slow down"))
                  (Throw (Error (lit "Unexpected token s in JSON")))))).
  vm_compute. right. left. reflexivity.
Defined.

(** ** What the answer of the API makes of the envelope *)

Lemma adapter_shape (fault : fault_oracle) (q : jsstring)
  (options : SearchOptions) :
  exists k,
    searchWithPerplexity fault q options = GetEnv k
    /\ forall key,
         (exists e, k key = Raise e)
         \/ exists init rest,
              k key = Fetch apiUrl init rest
              /\ forall answer,
                   emits quiet (rest answer)
                   /\ wp (fun env =>
                            api_outcome fault (limit_of options) answer
                            = Ok (results env)
                            /\ api_envelope q env)
                        (fun e =>
                           api_outcome fault (limit_of options) answer = Throw e)
                        (rest answer).
Proof.
  eexists. split; [reflexivity|]. intros [key|]; [|left; eexists; reflexivity].
  destruct (truthy key); [|left; eexists; reflexivity].
  right. cbn [bind fetch]. do 2 eexists. split; [reflexivity|].
  intros [response|e]; unfold api_outcome; step_prog; [|split; [exact I|reflexivity]].
  destruct (ok response); step_prog.
  - destruct (json_body response) as [data|e]; step_prog;
      [|split; [exact I|reflexivity]].
    destruct (content_of data) as [content|e]; step_prog;
      [|split; [exact I|reflexivity]].
    destruct (parsePerplexityResults fault content (limit_of options))
      as [rs|e]; step_prog; [|split; [exact I|reflexivity]].
    split; intros t; repeat split.
  - destruct (text response); step_prog; split; try exact I; reflexivity.
Qed.

Section ApiVerdict.
Variable W : Type.
Variable P : Platform W.
Variable fault : fault_oracle.

(** A request in the trace of the adapter is its only one, and the answer
    decides what the adapter returns or throws. *)
Lemma adapter_verdict (q : jsstring) (options : SearchOptions) (w : W)
  (u : jsstring) (i : RequestInit) (answer : outcome Response) :
  In (EvFetch u i answer) (trace (run P (searchWithPerplexity fault q options) w)) ->
  match value (run P (searchWithPerplexity fault q options) w) with
  | Ok env =>
      api_outcome fault (limit_of options) answer = Ok (results env)
      /\ api_envelope q env
  | Throw e => api_outcome fault (limit_of options) answer = Throw e
  end.
Proof.
  destruct (adapter_shape fault q options) as (k & -> & Hk). cbn [run].
  destruct (read_env P w) as [key w1]. cbn [trace value after].
  intros [Hin|Hin]; [discriminate|]. revert Hin.
  destruct (Hk key) as [(e & ->)|(init & rest & -> & Hrest)]; [intros []|].
  cbn [run]. destruct (do_fetch P apiUrl init w1) as [answer' w2].
  cbn [trace value after]. destruct (Hrest answer') as [Hq Hwp].
  intros [Hin|Hin].
  - injection Hin as _ _ <-. apply (wp_run W P _ _ _ Hwp w2).
  - exfalso. revert Hin. apply quiet_not_fetch, emits_run, Hq.
Qed.

Lemma searchWeb_api_verdict_run (q : jsstring) (options : SearchOptions) (w : W)
  (i : RequestInit) (answer : outcome Response) :
  In (EvFetch apiUrl i answer) (trace (run P (searchWeb fault q options) w)) ->
  exists env,
    value (run P (searchWeb fault q options) w) = Ok env
    /\ match api_outcome fault (limit_of options) answer with
       | Ok rs =>
           source env = perplexity /\ results env = rs /\ error env = None
           /\ filter without_method
                (trace (run P (searchWeb fault q options) w)) = []
       | Throw e =>
           source env <> perplexity
           /\ In (EvConsole (fallback_warning e))
                (trace (run P (searchWeb fault q options) w))
       end.
Proof.
  rewrite run_searchWeb. destruct (read_env P w) as [key w1].
  cbn [trace value after]. intros [Hin|Hin]; [discriminate|]. revert Hin.
  assert (Hno : forall w', ~ In (EvFetch apiUrl i answer)
                  (trace (run P (markup_stage fault q (limit_of options)) w'))).
  { intros w' Hin.
    pose proof (markup_stage_trace W P fault q (limit_of options) w') as H.
    rewrite Forall_forall in H. destruct (H _ Hin) as [_ Ha].
    cbn [is_api_request] in Ha.
    assert (Hr : forall s, str_eqb s s = true).
    { induction s as [|c s IH]; cbn [str_eqb]; [reflexivity|].
      unfold char_eqb. now rewrite N.eqb_refl, IH. }
    rewrite Hr in Ha. discriminate. }
  destruct (truthy_key key); [|intros Hin; now apply Hno in Hin].
  cbv zeta. set (o := mkOptions (Some (limit_of options)) None).
  pose proof (adapter_verdict q o w1 apiUrl i answer) as Hv.
  change (limit_of o) with (limit_of options) in Hv.
  pose proof (filter_none without_method _ (adapter_trace W P fault q o w1)) as Hn.
  destruct (value (run P (searchWithPerplexity fault q o) w1)) as [env|e] eqn:E.
  - intros Hin. destruct (Hv Hin) as [Ho (_ & _ & Hs & He)].
    exists env. split; [exact E|]. rewrite Ho.
    cbn [filter without_method]. auto.
  - cbn [trace value]. intros Hin.
    assert (Hin' : In (EvFetch apiUrl i answer)
                     (trace (run P (searchWithPerplexity fault q o) w1))).
    { apply in_app_or in Hin. destruct Hin as [Hin|[Hin|Hin]];
        [exact Hin|discriminate|now apply Hno in Hin]. }
    rewrite (Hv Hin').
    destruct (markup_stage_returns W P fault q (limit_of options)
                (final (run P (searchWithPerplexity fault q o) w1)))
      as (env & Henv & Hsrc).
    exists env. split; [exact Henv|]. split.
    + destruct Hsrc as [(_ & _ & Hs & _)|(_ & _ & _ & Hs & _)];
        rewrite Hs; discriminate.
    + right. apply in_or_app. right. now left.
Qed.
End ApiVerdict.

(** X16: the answer to the API request decides whether [searchWeb] falls
    back.  When the status is a success, the body is JSON, the content
    can be read from it and the citation extractor returns, the envelope
    has source perplexity and these results, also when there are none,
    and no request goes to the markup provider.  In every other case
    (a rejected request, a status that is not a success, a body that is
    not JSON, a TypeError while reading the content or while making a
    string of it, an engine failure)
    the exception, which for a bad status reads Perplexity API error:
    status text - body, is written to the console as a warning and the
    envelope comes from the markup stage. *)
Theorem searchWeb_api_verdict
  (W : Type) (P : Platform W) (fault : fault_oracle)
  (q : jsstring) (options : SearchOptions) (w : W)
  (i : RequestInit) (answer : outcome Response) :
  In (EvFetch apiUrl i answer) (trace (run P (searchWeb fault q options) w)) ->
  exists env,
    value (run P (searchWeb fault q options) w) = Ok env
    /\ match api_outcome fault (limit_of options) answer with
       | Ok rs =>
           source env = perplexity /\ results env = rs /\ error env = None
           /\ filter without_method
                (trace (run P (searchWeb fault q options) w)) = []
       | Throw e =>
           source env <> perplexity
           /\ In (EvConsole (fallback_warning e))
                (trace (run P (searchWeb fault q options) w))
       end.
Proof. exact (searchWeb_api_verdict_run W P fault q options w i answer). Qed.

Lemma searchWeb_api_verdict_witness :
  (exists env,
     value (run api_silent (searchWeb no_fault (lit "rocq") no_options) 0) = Ok env
     /\ source env = perplexity /\ results env = [] /\ error env = None
     /\ filter without_method
          (trace (run api_silent (searchWeb no_fault (lit "rocq") no_options) 0))
        = [])
  /\ (exists env,
        value (run api_unprintable (searchWeb no_fault (lit "rocq") no_options) 0)
        = Ok env
        /\ source env <> perplexity
        /\ In (EvConsole
                 (fallback_warning
                    (Error (lit "Cannot convert object to primitive value"))))
             (trace (run api_unprintable
                       (searchWeb no_fault (lit "rocq") no_options) 0))).
Proof.
  split.
  - apply (searchWeb_api_verdict nat api_silent no_fault (lit "rocq") no_options 0
             (perplexity_init (lit "pplx-key") (lit "rocq") 10) (Ok no_citations)).
    vm_compute. right. right. left. reflexivity.
  - apply (searchWeb_api_verdict nat api_unprintable no_fault (lit "rocq")
             no_options 0
             (perplexity_init (lit "pplx-key") (lit "rocq") 10) (Ok unprintable)).
    vm_compute. right. right. left. reflexivity.
Defined.

(** ** The totals of a batch *)

Lemma wp_conj {A : Type} (Q Q' : A -> Prop) (E : exn -> Prop) (p : prog A) :
  wp Q E p -> wp Q' E p -> wp (fun a => Q a /\ Q' a) E p.
Proof.
  induction p as [a|e|k IH|u i k IH|c k IH|k IH]; simpl; auto.
Qed.

Lemma well_formed_total (q : jsstring) (env : SearchEnvelope) :
  well_formed q env -> total env = length (results env).
Proof.
  intros [(_ & Ht & _)|[(_ & Ht & _)|(_ & Ht & Hr & _)]]; auto.
  now rewrite Hr, Ht.
Qed.

Lemma batch_entries_total (limit : Z) (qs : list jsstring)
  (l : list SearchEnvelope) :
  Forall2 (batch_entry limit) qs l ->
  list_sum (map total l) = length (concat (map results l))
  /\ list_sum (map total l) <= length qs * Z.to_nat limit
  /\ Forall (fun env => listed limit (results env)) l.
Proof.
  induction 1 as [|q env qs l [Hwf Hl] H (IH1 & IH2 & IH3)].
  - repeat split; auto.
  - cbn [map concat length].
    change (list_sum (total env :: map total l))
      with (total env + list_sum (map total l)).
    rewrite length_app, (well_formed_total q env Hwf), IH1.
    split; [reflexivity|]. split.
    + rewrite <- IH1. destruct Hl as (Hb & _). lia.
    + constructor; [exact Hl|exact IH3].
Qed.

Section BatchTotals.
Variable W : Type.
Variable P : Platform W.
Variable fault : fault_oracle.
Variable queries : list jsstring.
Variable options : SearchOptions.

Lemma batch_tasks_entries :
  Forall2 (fun q p => wp (batch_entry (limit_of options) q) no_exn p) queries
    (par_tasks (searchWebMultiple fault queries options)).
Proof.
  cbn [searchWebMultiple par_tasks].
  induction queries as [|q qs IH]; simpl; constructor; [|exact IH].
  apply wp_conj; [apply wp_searchWeb|apply wp_search_listed].
Qed.

Lemma batch_returns (schedule : list nat) (w : W)
  (out : ran W (outcome MultiQueryEnvelope.t)) :
  run_par P (searchWebMultiple fault queries options) schedule w = Some out ->
  exists m,
    value out = Ok m
    /\ MultiQueryEnvelope.totalResults m
       = list_sum (map total (MultiQueryEnvelope.results m))
    /\ Forall2 (batch_entry (limit_of options)) queries
         (MultiQueryEnvelope.results m).
Proof.
  pose proof (schedule_ok W P _ _ (batch_entry (limit_of options)) queries
                schedule _
                (start_ok W P _ _ _ _ _ w batch_tasks_entries)) as Hok.
  unfold run_par.
  fold (run_schedule W P SearchEnvelope schedule
          (start P (par_tasks (searchWebMultiple fault queries options)) w)).
  set (pool := run_schedule W P SearchEnvelope schedule _) in *.
  destruct (settled (value pool)) as [[l|e]|] eqn:E; [| |discriminate].
  - intros [= <-]. cbn [searchWebMultiple par_then bind now run].
    destruct (read_clock P (final pool)) as [t w']. cbn [value after].
    eexists. split; [reflexivity|].
    cbn [MultiQueryEnvelope.results MultiQueryEnvelope.totalResults].
    split; [apply (fold_left_total l 0)|].
    exact (settled_ok _ _ _ _ _ Hok l E).
  - now destruct (settled_no_throw _ _ _ _ _ Hok e).
Qed.
End BatchTotals.

(** X17: in what [searchWebMultiple] returns, totalResults is the number
    of results of all envelopes together, each envelope holds at most
    [limit] results, and so totalResults is at most the number of queries
    times the limit. *)
Theorem searchWebMultiple_total_results
  (W : Type) (P : Platform W) (fault : fault_oracle)
  (queries : list jsstring) (options : SearchOptions)
  (schedule : list nat) (w : W) (out : ran W (outcome MultiQueryEnvelope.t)) :
  run_par P (searchWebMultiple fault queries options) schedule w = Some out ->
  exists m,
    value out = Ok m
    /\ MultiQueryEnvelope.totalResults m
       = length (concat (map results (MultiQueryEnvelope.results m)))
    /\ Forall (fun env =>
                 (Z.of_nat (length (results env)) <= Z.max 0 (limit_of options))%Z)
         (MultiQueryEnvelope.results m)
    /\ MultiQueryEnvelope.totalResults m
       <= length queries * Z.to_nat (limit_of options).
Proof.
  intros Hout.
  destruct (batch_returns W P fault queries options schedule w out Hout)
    as (m & Hm & Ht & Hall).
  exists m. split; [exact Hm|].
  destruct (batch_entries_total _ _ _ Hall) as (H1 & H2 & H3).
  rewrite Ht. split; [exact H1|]. split; [|exact H2].
  eapply Forall_impl; [|exact H3]. intros env (Hb & _). exact Hb.
Qed.

Lemma searchWebMultiple_total_results_witness :
  exists out m,
    run_par two_pages (searchWebMultiple no_fault [lit "a"; lit "b"]
                         (mkOptions (Some 1%Z) None)) [1; 0] 0 = Some out
    /\ value out = Ok m
    /\ MultiQueryEnvelope.totalResults m = 2
    /\ MultiQueryEnvelope.totalResults m <= 2 * 1.
Proof.
  assert (Hout : exists out,
             run_par two_pages (searchWebMultiple no_fault [lit "a"; lit "b"]
                                  (mkOptions (Some 1%Z) None)) [1; 0] 0
             = Some out)
    by (vm_compute; eexists; reflexivity).
  destruct Hout as (out & Hout).
  destruct (searchWebMultiple_total_results nat two_pages no_fault
              [lit "a"; lit "b"] (mkOptions (Some 1%Z) None) [1; 0] 0 out Hout)
    as (m & Hm & _ & _ & Hb).
  exists out, m. split; [exact Hout|]. split; [exact Hm|]. split; [|exact Hb].
  vm_compute in Hout. injection Hout as <-. injection Hm as <-. reflexivity.
Defined.

(** X18: a batch without queries settles at once, whatever the schedule:
    [searchWebMultiple] returns no queries, no envelopes and a
    totalResults of 0, and it only reads the clock. *)
Theorem searchWebMultiple_empty
  (W : Type) (P : Platform W) (fault : fault_oracle)
  (options : SearchOptions) (schedule : list nat) (w : W) :
  run_par P (searchWebMultiple fault [] options) schedule w
  = Some (mkRan
            (Ok (MultiQueryEnvelope.mk [] [] 0 (fst (read_clock P w))))
            [EvNow (fst (read_clock P w))]
            (snd (read_clock P w))).
Proof.
  unfold run_par. cbn [searchWebMultiple par_tasks map start].
  assert (H : forall pool : ran W (list (prog SearchEnvelope)),
             value pool = [] ->
             fold_left (fun pool i => step P i pool) schedule pool = pool).
  { induction schedule as [|i schedule IH]; intros pool Hp; [reflexivity|].
    cbn [fold_left]. unfold step at 2. rewrite Hp.
    destruct i; cbn [nth_error]; now apply IH. }
  rewrite H by reflexivity. cbn [value trace final settled].
  unfold searchWebMultiple. cbn [par_then bind now run fold_left].
  destruct (read_clock P w) as [t w']. reflexivity.
Qed.

(** ** The pages of [searchAndFetch] *)

Section Pages.
Variable W : Type.
Variable P : Platform W.
Variable fault : fault_oracle.

(** [fetchWebPage] is one request and what it makes of the answer. *)
Lemma run_fetchWebPage (u : jsstring) (w : W) :
  run P (fetchWebPage u) w
  = mkRan (page_outcome u (fst (do_fetch P u page_init w)))
      [EvFetch u page_init (fst (do_fetch P u page_init w))]
      (snd (do_fetch P u page_init w)).
Proof.
  unfold fetchWebPage. cbn [bind fetch try_catch run].
  destruct (do_fetch P u page_init w) as [[response|e] w1];
    cbn [fst snd bind try_catch run]; [|reflexivity].
  unfold page_outcome. destruct (ok response); cbn [negb bind try_catch run];
    [|reflexivity].
  destruct (text response) as [html|e]; reflexivity.
Qed.



End Pages.




(** ** The text of a page *)

Lemma star_greedy_spaces (p : char -> bool) (s : jsstring) (caps : captures) :
  (forall c, p c = is_space c) ->
  star_greedy p s caps (fun s' caps' => Some (s', caps'))
  = Some (trimStart s, caps).
Proof.
  intros Hp. induction s as [|c s IH]; cbn [star_greedy trimStart]; [reflexivity|].
  rewrite Hp. destruct (is_space c); [now rewrite IH|reflexivity].
Qed.

(** A match of [\s+] is a longest run of white space. *)
Lemma match_here_space (s : jsstring) :
  match_here spaceRegex s
  = match s with
    | c :: s' => if is_space c then Some (trimStart s', []) else None
    | [] => None
    end.
Proof.
  unfold match_here, spaceRegex. cbn [Regex.source ignoreCase rmatch].
  destruct s as [|c s']; cbn [one star]; [reflexivity|].
  assert (Hp : forall c, atom_matches false (AClass false [CSpace]) c = is_space c).
  { intros x. cbn [atom_matches existsb citem_matches xorb].
    now rewrite orb_false_r. }
  rewrite Hp. destruct (is_space c); [|reflexivity].
  now apply star_greedy_spaces.
Qed.

Lemma replace_all_skip (re : RegExp) (repl : jsstring) (n : nat) :
  forall s, n <= length s ->
            replace_all re repl n s = replace_all re repl 0 (skipn n s).
Proof.
  induction n as [|n IH]; intros s Hn; [reflexivity|].
  destruct s as [|c s]; cbn [length] in Hn; [lia|].
  cbn [replace_all skipn]. apply IH. lia.
Qed.

Lemma trimStart_suffix (s : jsstring) :
  length (trimStart s) <= length s
  /\ skipn (length s - length (trimStart s)) s = trimStart s.
Proof.
  induction s as [|c s [IH1 IH2]]; cbn [trimStart]; [split; reflexivity|].
  destruct (is_space c).
  - split; [cbn [length]; lia|].
    replace (length (c :: s) - length (trimStart s))
      with (S (length s - length (trimStart s))) by (cbn [length]; lia).
    exact IH2.
  - split; [lia|]. now rewrite Nat.sub_diag.
Qed.

Lemma collapse_space (c : char) (s : jsstring) :
  is_space c = true ->
  replace_g spaceRegex (lit " ") (c :: s)
  = chr " " :: replace_g spaceRegex (lit " ") (trimStart s).
Proof.
  intros Hc. unfold replace_g. cbn [replace_all].
  rewrite (match_here_space (c :: s)), Hc.
  destruct (trimStart_suffix s) as [Hl Hs].
  replace (length (c :: s) - length (trimStart s))
    with (S (length s - length (trimStart s))) by (cbn [length]; lia).
  rewrite replace_all_skip by lia. now rewrite Hs.
Qed.

Lemma collapse_other (c : char) (s : jsstring) :
  is_space c = false ->
  replace_g spaceRegex (lit " ") (c :: s)
  = c :: replace_g spaceRegex (lit " ") s.
Proof.
  intros Hc. unfold replace_g. cbn [replace_all].
  now rewrite (match_here_space (c :: s)), Hc.
Qed.

(** After [replace(/\s+/g, ' ')] white space only occurs as single
    spaces. *)
Lemma collapse_single_spaced (s : jsstring) :
  single_spaced (replace_g spaceRegex (lit " ") s).
Proof.
  assert (H : forall n s, length s <= n ->
                          single_spaced (replace_g spaceRegex (lit " ") s)).
  { clear s. induction n as [|n IH]; intros [|c s] Hn;
      try exact I; cbn [length] in Hn; [lia|].
    destruct (is_space c) eqn:Hc.
    - rewrite (collapse_space c s Hc). cbn [single_spaced].
      destruct (trimStart_suffix s) as [Hl _]. split.
      + intros _. split; [reflexivity|].
        destruct (trimStart_cases s) as [->|(d & t & -> & Hd)]; [exact I|].
        now rewrite (collapse_other d t Hd).
      + apply IH. lia.
    - rewrite (collapse_other c s Hc). cbn [single_spaced]. split.
      + intros Hc'. congruence.
      + apply IH. lia. }
  now apply (H (length s)).
Qed.

Lemma single_spaced_app (a b : jsstring) :
  single_spaced (a ++ b) -> single_spaced a /\ single_spaced b.
Proof.
  induction a as [|c a IH]; cbn [app single_spaced]; [auto|].
  intros [Hc H]. destruct (IH H) as [Ha Hb]. split; [|exact Hb].
  split; [|exact Ha]. intros Hs. destruct (Hc Hs) as [-> Hn].
  split; [reflexivity|]. destruct a; [exact I|exact Hn].
Qed.

Lemma trimStart_split (s : jsstring) : exists pre, s = pre ++ trimStart s.
Proof.
  induction s as [|c s (pre & IH)]; cbn [trimStart]; [now exists []|].
  destruct (is_space c); [|now exists []].
  exists (c :: pre). cbn [app]. now rewrite <- IH.
Qed.

Lemma trim_single_spaced (s : jsstring) :
  single_spaced s -> single_spaced (trim s).
Proof.
  intros H. unfold trim, trimEnd.
  destruct (trimStart_split s) as (pre & Hs).
  rewrite Hs in H. apply single_spaced_app in H. destruct H as [_ H].
  destruct (trimStart_split (rev (trimStart s))) as (post & Hr).
  apply (f_equal (@rev char)) in Hr. rewrite rev_involutive, rev_app_distr in Hr.
  rewrite Hr in H. apply single_spaced_app in H. apply H.
Qed.

Lemma page_text_shape (html : jsstring) :
  (Z.of_nat (length (page_text html)) <= 10000)%Z
  /\ trimStart (page_text html) = page_text html
  /\ single_spaced (page_text html).
Proof.
  unfold page_text. split; [now apply substring0_length|]. split.
  - unfold substring0. apply trimStart_firstn, trim_trimStart.
  - unfold substring0.
    set (t := trim _).
    assert (Ht : single_spaced t)
      by apply trim_single_spaced, collapse_single_spaced.
    rewrite <- (firstn_skipn (Z.to_nat 10000) t) in Ht.
    apply single_spaced_app in Ht. apply Ht.
Qed.

(** X21: the text that [fetchWebPage] returns has at most 10000 code
    units, does not begin with white space, and contains white space only
    as single spaces: no tab, no line break, no two spaces in a row. *)
Theorem fetchWebPage_text_shape
  (W : Type) (P : Platform W) (u : jsstring) (w : W) (t : jsstring) :
  value (run P (fetchWebPage u) w) = Ok t ->
  (Z.of_nat (length t) <= 10000)%Z
  /\ trimStart t = t
  /\ single_spaced t.
Proof.
  rewrite run_fetchWebPage. cbn [value]. unfold page_outcome.
  destruct (fst (do_fetch P u page_init w)) as [response|e]; [|discriminate].
  destruct (ok response); [|discriminate].
  destruct (text response) as [html|e]; [|discriminate].
  intros [= <-]. apply page_text_shape.
Qed.

Lemma fetchWebPage_text_shape_witness :
  (Z.of_nat (length (lit "Hello big world")) <= 10000)%Z
  /\ trimStart (lit "Hello big world") = lit "Hello big world"
  /\ single_spaced (lit "Hello big world").
Proof.
  apply (fetchWebPage_text_shape nat
           (scripted None
              [page (lit "  <p>Hello   <b>big</b>" ++ [10%N; 9%N]
                     ++ lit "world</p> ")])
           (lit "http://b.org/") 0).
  vm_compute. reflexivity.
Defined.

(** ** The address of the markup request *)

Lemma prepend_ok (p : jsstring) (o : outcome jsstring) (s : jsstring) :
  prepend p o = Ok s -> exists s', o = Ok s' /\ s = p ++ s'.
Proof. destruct o as [s'|e]; [|discriminate]. intros [= <-]. now exists s'. Qed.

Lemma hex_digit_safe (n : N) : (n < 16)%N -> url_safe (hex_digit n).
Proof.
  intros Hn. left. unfold hex_digit, uri_unreserved, in_range.
  destruct (N.ltb_spec n 10).
  - replace (N.leb 48 (48 + n) && N.leb (48 + n) 57) with true.
    + now rewrite !orb_true_r.
    + symmetry. apply andb_true_iff. split; apply N.leb_le; lia.
  - replace (N.leb 65 (55 + n) && N.leb (55 + n) 90) with true; [reflexivity|].
    symmetry. apply andb_true_iff. split; apply N.leb_le; lia.
Qed.

Lemma percent_safe (b : N) : (b < 256)%N -> Forall url_safe (percent b).
Proof.
  intros Hb. unfold percent. constructor; [now right|].
  constructor; [|constructor; [|constructor]]; apply hex_digit_safe.
  - apply N.Div0.div_lt_upper_bound. lia.
  - apply N.mod_upper_bound. lia.
Qed.

Lemma utf8_bytes (cp : N) :
  (cp < 1114112)%N -> Forall (fun b => (b < 256)%N) (utf8 cp).
Proof.
  intros Hcp. unfold utf8.
  pose proof (N.mod_upper_bound cp 64 ltac:(lia)).
  pose proof (N.mod_upper_bound (cp / 64) 64 ltac:(lia)).
  pose proof (N.mod_upper_bound (cp / 4096) 64 ltac:(lia)).
  destruct (N.ltb_spec cp 128); [repeat constructor; lia|].
  destruct (N.ltb_spec cp 2048).
  { assert (cp / 64 < 32)%N by (apply N.Div0.div_lt_upper_bound; lia).
    repeat constructor; lia. }
  destruct (N.ltb_spec cp 65536).
  { assert (cp / 4096 < 16)%N by (apply N.Div0.div_lt_upper_bound; lia).
    repeat constructor; lia. }
  assert (cp / 262144 < 5)%N by (apply N.Div0.div_lt_upper_bound; lia).
  repeat constructor; lia.
Qed.

Lemma escape_safe (cp : N) : (cp < 1114112)%N -> Forall url_safe (escape cp).
Proof.
  intros Hcp. unfold escape. pose proof (utf8_bytes cp Hcp) as H.
  induction H as [|b l Hb H IH]; cbn [map concat]; [constructor|].
  apply Forall_app. split; [now apply percent_safe|exact IH].
Qed.

(** What [encodeURIComponent] returns holds unreserved characters and
    percent signs only. *)
Lemma encodeURIComponent_safe (s : jsstring) :
  forall enc,
    Forall (fun c => (c < 65536)%N) s ->
    encodeURIComponent s = Ok enc -> Forall url_safe enc.
Proof.
  assert (H : forall n s enc, length s <= n ->
                Forall (fun c => (c < 65536)%N) s ->
                encodeURIComponent s = Ok enc -> Forall url_safe enc).
  { clear s. induction n as [|n IH]; intros [|c s] enc Hn Hs;
      try (intros [= <-]; constructor); cbn [length] in Hn; [lia|].
    inversion Hs as [|c' s' Hc Hs']; subst.
    rewrite encodeURIComponent_cons.
    destruct (uri_unreserved c) eqn:Hu.
    { intros H. apply prepend_ok in H. destruct H as (t & Ht & ->).
      constructor; [now left|]. apply (IH s t); auto. lia. }
    destruct (in_range 56320%N 57343%N c); [discriminate|].
    destruct (in_range 55296%N 56319%N c) eqn:Hhi.
    - destruct s as [|c2 s]; [discriminate|].
      destruct (in_range 56320%N 57343%N c2) eqn:Hlo; [|discriminate].
      intros H. apply prepend_ok in H. destruct H as (t & Ht & ->).
      inversion Hs' as [|c2' s2' Hc2 Hs'']; subst.
      apply Forall_app. split.
      + apply escape_safe. unfold in_range in Hhi, Hlo.
        apply andb_true_iff in Hhi, Hlo.
        destruct Hhi as [H1 H2], Hlo as [H3 H4].
        apply N.leb_le in H1, H2, H3, H4. lia.
      + apply (IH s t); auto. cbn [length] in Hn. lia.
    - intros H. apply prepend_ok in H. destruct H as (t & Ht & ->).
      apply Forall_app. split; [apply escape_safe; lia|].
      apply (IH s t); auto. lia. }
  intros enc. now apply (H (length s)).
Qed.

Lemma url_safe_free (x : char) (s : jsstring) :
  uri_unreserved x = false -> x <> chr "%" ->
  Forall url_safe s -> free_of x s.
Proof.
  intros Hx Hp. apply Forall_impl. intros c [Hc| ->].
  - unfold char_eqb. apply N.eqb_neq. intros <-. congruence.
  - unfold char_eqb. now apply N.eqb_neq.
Qed.

(** X22: the address of the markup request is the search address
    followed by text that holds unreserved characters and percent signs
    only, whatever the query: it contains no ampersand, equals sign,
    hash, question mark, slash, plus sign or space, so the query cannot
    end the parameter or add another one. *)
Theorem searchWeb_markup_address
  (W : Type) (P : Platform W) (fault : fault_oracle)
  (q : jsstring) (options : SearchOptions) (w : W)
  (u : jsstring) (answer : outcome Response) :
  Forall (fun c => (c < 65536)%N) q ->
  In (EvFetch u duckduckgo_init answer)
    (trace (run P (searchWeb fault q options) w)) ->
  exists encoded,
    u = searchUrlPrefix ++ encoded
    /\ encodeURIComponent q = Ok encoded
    /\ Forall (fun c => uri_unreserved c = true \/ c = chr "%") encoded
    /\ Forall (fun x => free_of x encoded)
         [chr "&"; chr "="; chr "#"; chr "?"; chr "/"; chr "+"; chr " "].
Proof.
  intros Hq Hin.
  pose proof (searchWeb_trace_requests W P fault q options w) as H.
  unfold requests in H. rewrite Forall_forall in H. specialize (H _ Hin).
  destruct H as [(_ & k & _ & _ & Hi)|(encoded & He & -> & _)]; [discriminate|].
  exists encoded. split; [reflexivity|]. split; [exact He|].
  pose proof (encodeURIComponent_safe q encoded Hq He) as Hs.
  split; [exact Hs|].
  repeat constructor; apply url_safe_free; auto; discriminate.
Qed.

Lemma searchWeb_markup_address_witness :
  exists encoded,
    searchUrlPrefix ++ lit "a%20b%26c%3D1" = searchUrlPrefix ++ encoded
    /\ encodeURIComponent (lit "a b&c=1") = Ok encoded
    /\ Forall (fun c => uri_unreserved c = true \/ c = chr "%") encoded
    /\ Forall (fun x => free_of x encoded)
         [chr "&"; chr "="; chr "#"; chr "?"; chr "/"; chr "+"; chr " "].
Proof.
  apply (searchWeb_markup_address nat (scripted None [page empty_page]) no_fault
           (lit "a b&c=1") no_options 0
           (searchUrlPrefix ++ lit "a%20b%26c%3D1") (page empty_page)).
  - repeat constructor.
  - vm_compute. right. left. reflexivity.
Defined.

(** ** The API adapter without a credential *)

(** X23: when the credential is unset or empty, the API adapter throws
    the error PERPLEXITY_API_KEY not set after reading it, and sends no
    request. *)
Theorem searchWithPerplexity_without_key
  (W : Type) (P : Platform W) (fault : fault_oracle)
  (q : jsstring) (options : SearchOptions) (w : W) :
  truthy_key (fst (read_env P w)) = false ->
  run P (searchWithPerplexity fault q options) w
  = mkRan (Throw (Error (lit "PERPLEXITY_API_KEY not set")))
      [EvEnv (fst (read_env P w))] (snd (read_env P w)).
Proof.
  unfold searchWithPerplexity. cbn [bind getenv run].
  destruct (read_env P w) as [[key|] w1]; cbn [fst snd truthy_key].
  - intros ->. reflexivity.
  - reflexivity.
Qed.

Lemma searchWithPerplexity_without_key_witness :
  run (scripted (Some []) []) (searchWithPerplexity no_fault (lit "rocq") no_options) 0
  = mkRan (Throw (Error (lit "PERPLEXITY_API_KEY not set")))
      [EvEnv (Some [])] 0.
Proof.
  apply (searchWithPerplexity_without_key nat (scripted (Some []) []) no_fault
           (lit "rocq") no_options 0).
  reflexivity.
Defined.

(** ** The timestamp of an envelope *)

Lemma stamped_run (W : Type) (P : Platform W) {A : Type} (ts : A -> jsstring)
  (p : prog A) :
  stamped ts p ->
  forall w a, value (run P p w) = Ok a ->
              exists pre, trace (run P p w) = pre ++ [EvNow (ts a)].
Proof.
  induction p as [a|e|k IH|u i k IH|c k IH|k IH]; cbn [stamped run]; intros H w a'.
  - destruct H.
  - discriminate.
  - destruct (read_env P w) as [v w']. cbn [value trace after]. intros Hv.
    destruct (IH v (H v) w' a' Hv) as (pre & ->). now exists (EvEnv v :: pre).
  - destruct (do_fetch P u i w) as [r w']. cbn [value trace after]. intros Hv.
    destruct (IH r (H r) w' a' Hv) as (pre & ->). now exists (EvFetch u i r :: pre).
  - cbn [value trace after]. intros Hv.
    destruct (IH H w a' Hv) as (pre & ->). now exists (EvConsole c :: pre).
  - destruct (read_clock P w) as [t w']. cbn [value trace after].
    destruct (H t) as [(a & Hk & Ht)|Hs].
    + rewrite Hk. cbn [run value trace]. intros [= <-]. exists []. now rewrite Ht.
    + intros Hv. destruct (IH t Hs w' a' Hv) as (pre & ->).
      now exists (EvNow t :: pre).
Qed.

Lemma stamped_console_all {A : Type} (ts : A -> jsstring)
  (l : list console_entry) (p : prog A) :
  stamped ts p -> stamped ts (console_all l ;;; p).
Proof. intros H. induction l as [|c l IH]; cbn [console_all bind stamped]; auto. Qed.

Ltac step_stamp :=
  cbn [stamped bind try_catch lift fetch getenv now console negb].

Lemma stamped_search_failed (q : jsstring) (e : exn) :
  stamped timestamp (search_failed q e).
Proof.
  unfold search_failed. step_stamp. intros t. left. eexists. split; reflexivity.
Qed.

Lemma stamped_markup_stage (fault : fault_oracle) (q : jsstring) (limit : Z) :
  stamped timestamp (markup_stage fault q limit).
Proof.
  rewrite markup_stage_unfold.
  destruct (encodeURIComponent q) as [encoded|e]; [|apply stamped_search_failed].
  cbn [stamped]. intros answer. unfold markup_rest.
  destruct answer as [response|e]; step_stamp; [|apply stamped_search_failed].
  destruct (ok response); step_stamp; [|apply stamped_search_failed].
  destruct (text response) as [html|e]; step_stamp; [|apply stamped_search_failed].
  destruct (parseDuckDuckGoResults fault html limit) as [rs logged].
  induction logged as [|c logged IH]; cbn [console_all]; step_stamp; [|exact IH].
  intros t. left. eexists. split; reflexivity.
Qed.

Lemma stamped_searchWeb (fault : fault_oracle) (q : jsstring)
  (options : SearchOptions) :
  stamped timestamp (searchWeb fault q options).
Proof.
  pose proof (stamped_markup_stage fault q (limit_of options)) as Hm.
  unfold markup_stage in Hm.
  unfold searchWeb, searchWithPerplexity. step_stamp. intros key.
  destruct (truthy_key key); step_stamp; [|exact Hm].
  intros [k|]; step_stamp; [|exact Hm].
  destruct (truthy k); step_stamp; [|exact Hm].
  intros [response|e]; step_stamp; [|exact Hm].
  destruct (ok response); step_stamp.
  - destruct (json_body response) as [data|e]; step_stamp; [|exact Hm].
    destruct (content_of data) as [content|e]; step_stamp; [|exact Hm].
    destruct (parsePerplexityResults fault content _) as [rs|e]; step_stamp;
      [|exact Hm].
    intros t. left. eexists. split; reflexivity.
  - destruct (text response); step_stamp; exact Hm.
Qed.

(** X24: the timestamp of the envelope of [searchWeb] is read from the
    clock as the last step, after every request has been answered and the
    results have been extracted: it is the time of completion. *)
Theorem searchWeb_timestamp
  (W : Type) (P : Platform W) (fault : fault_oracle)
  (q : jsstring) (options : SearchOptions) (w : W) :
  exists env before_it,
    value (run P (searchWeb fault q options) w) = Ok env
    /\ trace (run P (searchWeb fault q options) w)
       = before_it ++ [EvNow (timestamp env)].
Proof.
  destruct (searchWeb_returns W P fault q options w) as (env & Hv & _).
  destruct (stamped_run W P timestamp _ (stamped_searchWeb fault q options) w env Hv)
    as (pre & Ht).
  now exists env, pre.
Qed.

(** ** The requests of a batch *)





Section PoolRequests.
Variable W : Type.
Variable P : Platform W.
Variable A : Type.
Variable R : event -> Prop.




End PoolRequests.




(** ** The scheme of the addresses *)

Lemma lower_canonicalize (ic : bool) (c : char) :
  lower (canonicalize ic c) = lower c.
Proof.
  unfold canonicalize, lower, in_range. destruct ic; cbn [andb]; [|reflexivity].
  destruct (N.leb_spec 97 c); destruct (N.leb_spec c 122); cbn [andb];
    try reflexivity.
  destruct (N.leb_spec 65 (c - 32)); destruct (N.leb_spec (c - 32) 90);
    cbn [andb]; try lia.
  destruct (N.leb_spec 65 c); destruct (N.leb_spec c 90); cbn [andb]; lia.
Qed.

Lemma atom_lit_lower (ic : bool) (x c : char) :
  atom_matches ic (ALit x) c = true -> lower c = lower x.
Proof.
  cbn [atom_matches]. intros H. apply char_eqb_eq in H.
  now rewrite <- (lower_canonicalize ic c), <- H, lower_canonicalize.
Qed.

(** A literal text matches itself up to the case of its letters. *)
Lemma lang_chars_lower (ic : bool) (l : jsstring) :
  forall w rest, lang ic (chars l) w rest -> map lower w = map lower l.
Proof.
  induction l as [|x l IH]; intros w rest; cbn [chars lang].
  - now intros ->.
  - destruct l as [|y l].
    + cbn [lang]. intros (c & -> & Hc). cbn [map].
      now rewrite (atom_lit_lower ic x c Hc).
    + cbn [lang]. intros (w1 & w2 & -> & (c & -> & Hc) & L2).
      apply IH in L2. cbn [app map].
      now rewrite (atom_lit_lower ic x c Hc), L2.
Qed.

Lemma startsWith_spec (p s : jsstring) :
  startsWith p s = true <-> exists t, s = p ++ t.
Proof.
  revert s. induction p as [|x p IH]; intros s; cbn [startsWith].
  - split; [intros _; now exists s|reflexivity].
  - destruct s as [|y s].
    + split; [discriminate|]. intros (t & Ht). discriminate.
    + rewrite andb_true_iff, IH, char_eqb_eq. split.
      * intros (-> & t & ->). now exists t.
      * intros (t & [= -> ->]). split; [reflexivity|now exists t].
Qed.

Lemma generic_url_lang (t : jsstring) :
  group_lang true (Regex.source genericLinkRegex) 1 t ->
  startsWith (lit "http") (map lower t) = true.
Proof.
  unfold genericLinkRegex. cbn [Regex.source seq group_lang a_quot]. intros H.
  group_cases H; try discriminate.
  destruct H as (rest & H). cbn [lang] in H.
  destruct H as (w1 & w2 & -> & L1 & _).
  apply lang_chars_lower in L1. apply startsWith_spec.
  exists (map lower w2). now rewrite map_app, L1.
Qed.

Lemma before_starts (c : char) (p s : jsstring) :
  free_of c p -> startsWith p s = true -> startsWith p (before c s) = true.
Proof.
  intros Hp. revert s. induction Hp as [|x p Hx Hp IH]; intros s;
    cbn [startsWith]; [reflexivity|].
  destruct s as [|y s]; [discriminate|]. intros H.
  apply andb_true_iff in H. destruct H as [Hxy Hs].
  apply char_eqb_eq in Hxy. subst y. cbn [before]. rewrite Hx.
  cbn [startsWith]. apply andb_true_iff. split; [now apply char_eqb_eq|].
  now apply IH.
Qed.

Lemma lower_starts (p s : jsstring) :
  startsWith p s = true -> startsWith (map lower p) (map lower s) = true.
Proof.
  intros H. apply startsWith_spec in H. destruct H as (t & ->).
  apply startsWith_spec. exists (map lower t). apply map_app.
Qed.

(** A group on the spine of the pattern holds a text of that group. *)
Lemma spine_group_sound (re : RegExp) (s : jsstring) (m : MatchResult) (n : nat) :
  matched_by re s m -> In n (spine (Regex.source re)) ->
  group_lang (ignoreCase re) (Regex.source re) n (group n m).
Proof.
  intros (pre & rest & _ & _ & C & S & _) Hn. specialize (S n Hn). unfold group.
  destruct (capture n (groups m)) as [t|] eqn:E; [|now destruct S].
  apply C. clear C S. induction (groups m) as [|[k t'] caps IH]; simpl in *.
  - discriminate.
  - destruct (Nat.eqb_spec n k) as [->|Hne].
    + injection E as ->. now left.
    + right. now apply IH.
Qed.

(** Every link that the scans keep has an address that begins with http,
    in upper or lower case. *)
Lemma scan_candidates_scheme (fault : fault_oracle) (html : jsstring)
  (limit : Z) (links : list Link.t) (snippets : list jsstring) :
  scan_candidates fault html limit = Ok (links, snippets) ->
  Forall (fun l => startsWith (lit "http") (Link.url l) = true
                   \/ startsWith (lit "http") (map lower (Link.url l)) = true)
    links.
Proof.
  unfold scan_candidates.
  destruct (primary_links fault html limit) as [links0|e] eqn:Ep; [|discriminate].
  assert (H0 : Forall (fun l => startsWith (lit "http") (Link.url l) = true
                                \/ startsWith (lit "http") (map lower (Link.url l))
                                   = true) links0).
  { revert Ep. apply while_exec_inv; [|constructor].
    intros m st Hst _. unfold modern_body.
    destruct (negb _); cbn [andb]; [|exact Hst].
    destruct (startsWith (lit "http") (group 1 m)) eqn:Hs; [|exact Hst].
    apply Forall_app. split; [exact Hst|]. constructor; [|constructor].
    left. exact Hs. }
  destruct (snippet_texts fault html limit) as [sn|e]; [|discriminate].
  destruct (Nat.eqb (length links0) 0).
  - destruct (fallback_links fault html limit links0) as [links1|e] eqn:Ef;
      [|discriminate].
    intros [= <- _]. revert Ef. apply while_exec_matched; [|exact H0].
    intros m st Hm Hst _. unfold generic_body.
    destruct (_ && _); [|exact Hst].
    apply Forall_app. split; [exact Hst|]. constructor; [|constructor].
    right. cbn [Link.url]. apply generic_url_lang.
    apply (spine_group_sound genericLinkRegex html m 1 Hm).
    vm_compute. left. reflexivity.
  - now intros [= <- _].
Qed.

Lemma before_map_lower_starts (c : char) (s : jsstring) :
  free_of c (lit "http") ->
  lower c = c -> (forall x, lower x = c -> x = c) ->
  startsWith (lit "http") (map lower s) = true ->
  startsWith (lit "http") (map lower (before c s)) = true.
Proof.
  intros Hc Hcc Hl H.
  assert (Hb : forall s, map lower (before c s) = before c (map lower s)).
  { clear - Hl Hcc. induction s as [|x s IH]; cbn [before map]; [reflexivity|].
    unfold char_eqb.
    destruct (N.eqb_spec c x) as [<-|Hne].
    - rewrite Hcc, N.eqb_refl. reflexivity.
    - destruct (N.eqb_spec c (lower x)) as [He|_].
      + exfalso. apply Hne. symmetry. now apply Hl.
      + cbn [map]. now rewrite IH. }
  rewrite Hb. now apply before_starts.
Qed.

(** X26: the address of every result of the HTML extractor begins with
    http, written in upper or lower case; in particular it is not empty
    and not a relative address. *)
Theorem parseDuckDuckGoResults_http
  (fault : fault_oracle) (html : jsstring) (limit : Z) :
  Forall (fun r => startsWith (lit "http") (map lower (url r)) = true)
    (fst (parseDuckDuckGoResults fault html limit)).
Proof.
  apply Forall_forall. intros r Hr.
  destruct (parse_results fault html limit r Hr)
    as (links & snippets & i & Hs & Hi & _ & ->).
  apply scan_candidates_scheme in Hs. rewrite Forall_forall in Hs.
  specialize (Hs _ (nth_In links (Link.mk [] []) Hi)).
  cbn [combined url]. set (u := Link.url _) in *.
  assert (Hu : startsWith (lit "http") (map lower u) = true).
  { destruct Hs as [Hs|Hs]; [|exact Hs].
    exact (lower_starts (lit "http") u Hs). }
  rewrite cleanUrl_before.
  assert (Hx : forall c x : char,
             in_range 65%N 90%N c = false -> (c < 97)%N ->
             lower x = c -> x = c).
  { intros c x Hc Hlt. unfold lower.
    destruct (in_range 65%N 90%N x) eqn:E; [|auto]. intros <-.
    unfold in_range in E. apply andb_true_iff in E. destruct E as [E1 E2].
    apply N.leb_le in E1, E2. lia. }
  apply before_map_lower_starts;
    [unfold free_of; repeat constructor|reflexivity
    |intros x; apply Hx; reflexivity|].
  apply before_map_lower_starts;
    [unfold free_of; repeat constructor|reflexivity
    |intros x; apply Hx; reflexivity|exact Hu].
Qed.

(** ** The requests of [searchAndFetch] *)



(** ** The results are taken from the document *)

Lemma infix_nil (s : jsstring) : infix [] s.
Proof. now exists [], s. Qed.

Lemma is_prefix_infix (p s : jsstring) : is_prefix p s -> infix p s.
Proof. intros (t & ->). apply infix_prefix. Qed.

Lemma infix_firstn (n : nat) (s : jsstring) : infix (firstn n s) s.
Proof.
  rewrite <- (firstn_skipn n s) at 2. apply infix_prefix.
Qed.

Lemma infix_trimStart (s : jsstring) : infix (trimStart s) s.
Proof.
  destruct (trimStart_split s) as (pre & Hs). exists pre, [].
  now rewrite app_nil_r.
Qed.

Lemma infix_trim (s : jsstring) : infix (trim s) s.
Proof.
  unfold trim, trimEnd. apply infix_trans with (trimStart s);
    [|apply infix_trimStart].
  destruct (trimStart_split (rev (trimStart s))) as (post & Hr).
  apply (f_equal (@rev char)) in Hr. rewrite rev_involutive, rev_app_distr in Hr.
  rewrite Hr at 2. apply infix_prefix.
Qed.

Lemma group_infix (re : RegExp) (s : jsstring) (m : MatchResult) (n : nat) :
  matched_by re s m -> infix (group n m) s.
Proof.
  intros (pre & rest & _ & _ & _ & _ & Hinf). unfold group.
  destruct (capture n (groups m)) as [t|] eqn:E; [|apply infix_nil].
  apply (Hinf n). clear Hinf. induction (groups m) as [|[k t'] caps IH]; simpl in *.
  - discriminate.
  - destruct (Nat.eqb_spec n k) as [->|Hne].
    + injection E as ->. now left.
    + right. now apply IH.
Qed.

Lemma or_else_cases (P : jsstring -> Prop) (a b : jsstring) :
  P a -> P b -> P (or_else a b).
Proof. unfold or_else. now destruct (truthy a). Qed.

(** The links and snippets that the scans keep are taken from the
    document. *)
Lemma scan_candidates_infix (fault : fault_oracle) (html : jsstring)
  (limit : Z) (links : list Link.t) (snippets : list jsstring) :
  scan_candidates fault html limit = Ok (links, snippets) ->
  Forall (fun l => infix (Link.url l) html /\ infix (Link.title l) html) links
  /\ Forall (fun t => infix t html) snippets.
Proof.
  unfold scan_candidates.
  destruct (primary_links fault html limit) as [links0|e] eqn:Ep; [|discriminate].
  assert (H0 : Forall (fun l => infix (Link.url l) html
                                /\ infix (Link.title l) html) links0).
  { revert Ep. apply while_exec_matched; [|constructor].
    intros m st Hm Hst _. unfold modern_body.
    destruct (_ && _); [|exact Hst].
    apply Forall_app. split; [exact Hst|]. constructor; [|constructor].
    cbn [Link.url Link.title]. split; [now apply group_infix with modernRegex|].
    rewrite clean_text_plain
      by (eapply anchor_text_free; [|exact Hm]; exact modern_title_lang).
    eapply infix_trans; [apply infix_trim|now apply group_infix with modernRegex]. }
  destruct (snippet_texts fault html limit) as [sn|e] eqn:Es; [|discriminate].
  assert (H1 : Forall (fun t => infix t html) sn).
  { revert Es. apply while_exec_matched; [|constructor].
    intros m st Hm Hst _. unfold snippet_body.
    apply Forall_app. split; [exact Hst|]. constructor; [|constructor].
    rewrite clean_text_plain
      by (eapply anchor_text_free; [|exact Hm]; exact snippet_lang).
    eapply infix_trans; [apply infix_trim|now apply group_infix with snippetRegex]. }
  destruct (Nat.eqb (length links0) 0).
  - destruct (fallback_links fault html limit links0) as [links1|e] eqn:Ef;
      [|discriminate].
    intros [= <- <-]. split; [|exact H1].
    revert Ef. apply while_exec_matched; [|exact H0].
    intros m st Hm Hst _. unfold generic_body.
    destruct (_ && _); [|exact Hst].
    apply Forall_app. split; [exact Hst|]. constructor; [|constructor].
    cbn [Link.url Link.title].
    split; [now apply group_infix with genericLinkRegex|].
    rewrite clean_text_plain
      by (eapply anchor_text_free; [|exact Hm]; exact generic_title_lang).
    eapply infix_trans;
      [apply infix_trim|now apply group_infix with genericLinkRegex].
  - now intros [= <- <-].
Qed.

(** X28: the HTML extractor invents nothing: the address and the snippet
    of every result occur in the document, and so does its title, unless
    it is the default title Result followed by the rank. *)
Theorem parseDuckDuckGoResults_taken_from
  (fault : fault_oracle) (html : jsstring) (limit : Z) :
  Forall (fun r =>
            infix (url r) html
            /\ (infix (title r) html \/ title r = result_n (rank r))
            /\ infix (snippet r) html)
    (fst (parseDuckDuckGoResults fault html limit)).
Proof.
  apply Forall_forall. intros r Hr.
  destruct (parse_results fault html limit r Hr)
    as (links & snippets & i & Hs & Hi & _ & ->).
  apply scan_candidates_infix in Hs. destruct Hs as [Hl Hsn].
  rewrite Forall_forall in Hl.
  destruct (Hl _ (nth_In links (Link.mk [] []) Hi)) as [Hu Ht].
  cbn [combined url title snippet rank]. split; [|split].
  - eapply infix_trans; [|exact Hu]. apply is_prefix_infix.
    rewrite cleanUrl_before. eapply is_prefix_trans; apply before_prefix.
  - unfold or_else. destruct (truthy _); [now left|now right].
  - unfold substring0. eapply infix_trans; [apply infix_firstn|].
    assert (Hn : forall j, infix (nth j snippets []) html).
    { intros j. destruct (Nat.lt_ge_cases j (length snippets)) as [Hj|Hj].
      - rewrite Forall_forall in Hsn. now apply Hsn, nth_In.
      - rewrite nth_overflow by exact Hj. apply infix_nil. }
    unfold snippet_for. apply or_else_cases; [apply Hn|].
    apply or_else_cases; [|apply infix_nil].
    destruct i; [apply infix_nil|apply Hn].
Qed.

(** Every piece of [s.split(sep)] occurs in [s]. *)
Lemma split_go_pieces (sep : jsstring) (s : jsstring) :
  (forall cur p, In p (split_go sep 0 cur s) ->
                 (exists t, p = rev cur ++ t /\ is_prefix t s) \/ infix p s)
  /\ (forall n p, In p (split_go sep n [] s) -> infix p s).
Proof.
  induction s as [|c s [IHa IHb]].
  - split.
    + intros cur p [<-|[]]. left. exists []. split; [now rewrite app_nil_r|].
      now exists [].
    + intros n p Hp. destruct n; cbn [split_go] in Hp;
        destruct Hp as [<-|[]]; apply infix_nil.
  - assert (Ha : forall cur p, In p (split_go sep 0 cur (c :: s)) ->
                   (exists t, p = rev cur ++ t /\ is_prefix t (c :: s))
                   \/ infix p (c :: s)).
    { intros cur p. cbn [split_go].
      destruct (startsWith sep (c :: s)).
      - intros [<-|Hp].
        + left. exists []. split; [now rewrite app_nil_r|]. now exists (c :: s).
        + right. apply (infix_suffix p [c]).
          exact (IHb (length sep - 1) p Hp).
      - intros Hp. destruct (IHa _ p Hp) as [(t & -> & (x & ->))|Hi].
        + left. exists (c :: t). cbn [rev]. rewrite <- app_assoc. split; [reflexivity|].
          now exists x.
        + right. now apply (infix_suffix p [c]). }
    split; [exact Ha|]. intros [|n] p Hp.
    + destruct (Ha [] p Hp) as [(t & -> & Ht)|Hi]; [|exact Hi].
      cbn [rev app]. now apply is_prefix_infix.
    + cbn [split_go] in Hp. apply (infix_suffix p [c]). now apply (IHb n p).
Qed.

Lemma split_pieces (sep s p : jsstring) :
  sep <> [] -> In p (split sep s) -> infix p s.
Proof.
  intros Hne. unfold split. destruct sep as [|x sep]; [now destruct Hne|].
  apply (proj2 (split_go_pieces (x :: sep) s) 0 p).
Qed.

Lemma nth_in_or_default {A : Type} (P : A -> Prop) (n : nat) (l : list A) (d : A) :
  (forall x, In x l -> P x) -> P d -> P (nth n l d).
Proof.
  intros Hl Hd. destruct (Nat.lt_ge_cases n (length l)) as [Hn|Hn].
  - now apply Hl, nth_In.
  - now rewrite nth_overflow.
Qed.

Lemma citation_body_taken (content : jsstring) (m : MatchResult)
  (st : nat * list SearchResult) :
  matched_by citationRegex content m ->
  fst st = S (length (snd st)) ->
  Forall (taken_from content) (snd st) ->
  Forall (taken_from content) (snd (citation_body m st))
  /\ fst (citation_body m st) = S (length (snd (citation_body m st))).
Proof.
  destruct st as [n rs]. cbn [fst snd]. intros Hm Hn Hrs.
  unfold citation_body.
  destruct (match_g urlRegex (trim (group 2 m))) as [[|u us]|] eqn:E;
    cbn [fst snd]; auto.
  destruct u as [|x u']; cbn [truthy fst snd]; auto.
  set (u := x :: u') in *.
  assert (Ht : infix (trim (group 2 m)) content).
  { eapply infix_trans; [apply infix_trim|].
    now apply group_infix with citationRegex. }
  assert (Hp : forall p, In p (split u (trim (group 2 m))) -> infix p content).
  { intros p Hp. eapply infix_trans; [|exact Ht].
    apply split_pieces with u; [discriminate|exact Hp]. }
  split; [|rewrite length_app; cbn [length]; lia].
  apply Forall_app. split; [exact Hrs|]. constructor; [|constructor].
  unfold taken_from. cbn [url title snippet rank]. split; [|split].
  - eapply infix_trans; [|exact Ht].
    unfold match_g in E.
    destruct (match_all urlRegex 0 (trim (group 2 m))) as [|v vs] eqn:Ea;
      [discriminate|]. injection E as Ev _.
    destruct (match_all_sound urlRegex (trim (group 2 m)) 0 v)
      as (pre & rest & Hs & _); [rewrite Ea; now left|].
    exists pre, rest. now rewrite <- Ev.
  - set (t := trim (nth 0 (split u (trim (group 2 m))) [])).
    unfold or_else. destruct (truthy t); [left|now right].
    eapply infix_trans; [apply infix_trim|].
    apply nth_in_or_default; [exact Hp|apply infix_nil].
  - unfold substring0. eapply infix_trans; [apply infix_firstn|].
    destruct (nth_error (split u (trim (group 2 m))) 1) as [p|] eqn:Ep;
      [|apply infix_nil].
    apply or_else_cases; [|apply infix_nil].
    eapply infix_trans; [apply infix_trim|]. apply Hp.
    now apply nth_error_In with 1.
Qed.

(** X29: the citation extractor invents nothing: the address and the
    snippet of every result occur in the content it was given, and so
    does its title, unless it is the default title Result followed by the
    rank. *)
Theorem parsePerplexityResults_taken_from
  (fault : fault_oracle) (content : jsstring) (limit : Z)
  (rs : list SearchResult) :
  parsePerplexityResults fault content limit = Ok rs ->
  Forall (fun r =>
            infix (url r) content
            /\ (infix (title r) content \/ title r = result_n (rank r))
            /\ infix (snippet r) content) rs.
Proof.
  unfold parsePerplexityResults.
  destruct (while_exec fault citationRegex content _ citation_body (1, []))
    as [[n rs']|e] eqn:E; [|discriminate].
  intros [= <-].
  assert (H : fst (n, rs') = S (length (snd (n, rs')))
              /\ Forall (taken_from content) (snd (n, rs'))).
  { revert E.
    apply (while_exec_matched fault _ citationRegex content _ citation_body
             (fun st => fst st = S (length (snd st))
                        /\ Forall (taken_from content) (snd st))).
    - intros m st Hm [Hn Hrs] _.
      destruct (citation_body_taken content m st Hm Hn Hrs). now split.
    - split; [reflexivity|constructor]. }
  exact (proj2 H).
Qed.

Lemma parsePerplexityResults_taken_from_witness :
  Forall (fun r =>
            infix (url r) citation_example
            /\ (infix (title r) citation_example \/ title r = result_n (rank r))
            /\ infix (snippet r) citation_example)
    [mkResult (lit "Example Site") (lit "https://example.com")
       (lit "more info") 1].
Proof.
  apply (parsePerplexityResults_taken_from no_fault citation_example 1).
  vm_compute. reflexivity.
Defined.
